(** * SSML parsing and serialisation ([src/ssml.py])

    A shallow embedding of [parseSSML], [_normalize_tag_whitespace] and
    [ssmlNodeToText], together with the parts of Python's [re], [str],
    [html] and [xml.etree.ElementTree] modules they call. *)

From Stdlib Require Import List NArith Arith Bool String Ascii Lia Permutation.
Import ListNotations.

Set Implicit Arguments.
Set Warnings "-register-all".

(** ** Python strings

    A [str] is a sequence of Unicode code points. *)

Definition pystr := list N.

(** [py "..."] is the [str] spelt by an ASCII literal. *)
Definition py (s : string) : pystr := map N_of_ascii (list_ascii_of_string s).

Definition ch (a : ascii) : N := N_of_ascii a.

(** The double quote, and a text between double quotes. *)
Definition dquote : N := 34.
Definition quoted (s : pystr) : pystr := dquote :: s ++ [dquote].

Definition pystr_eqb (a b : pystr) : bool :=
  if list_eq_dec N.eq_dec a b then true else false.

(** [str.isspace] on one code point; the same set is what [\s] matches in a
    [str] pattern. *)
Definition isspace (c : N) : bool :=
  ((9 <=? c) && (c <=? 13) || (28 <=? c) && (c <=? 32)
   || (c =? 133) || (c =? 160) || (c =? 5760)
   || (8192 <=? c) && (c <=? 8202)
   || (c =? 8232) || (c =? 8233) || (c =? 8239) || (c =? 8287)
   || (c =? 12288))%N.

Fixpoint lstrip (s : pystr) : pystr :=
  match s with
  | c :: s' => if isspace c then lstrip s' else s
  | [] => []
  end.

(** [s.strip()] *)
Definition strip (s : pystr) : pystr := rev (lstrip (rev (lstrip s))).

(** [sub in s] for a one-character [sub]. *)
Definition contains_char (c : N) (s : pystr) : bool := existsb (N.eqb c) s.

Fixpoint startswith (p s : pystr) : bool :=
  match p, s with
  | [], _ => true
  | a :: p', b :: s' => (a =? b)%N && startswith p' s'
  | _ :: _, [] => false
  end.

(** [s.replace(old, new)]: every non-overlapping occurrence, left to right.
    [skip] counts the characters of the current occurrence still to drop. *)
Fixpoint replace_go (old new : pystr) (skip : nat) (s : pystr) : pystr :=
  match skip with
  | S n => match s with
           | [] => []
           | _ :: s' => replace_go old new n s'
           end
  | O =>
      if startswith old s then
        new ++ match s with
               | [] => []
               | c :: s' =>
                   match List.length old with
                   | O => c :: replace_go old new 0 s'
                   | S n => replace_go old new n s'
                   end
               end
      else match s with
           | [] => []
           | c :: s' => c :: replace_go old new 0 s'
           end
  end.

Definition replace (s old new : pystr) : pystr := replace_go old new 0 s.

(** [sep.join(parts)] *)
Fixpoint join (sep : pystr) (parts : list pystr) : pystr :=
  match parts with
  | [] => []
  | [p] => p
  | p :: ps => p ++ sep ++ join sep ps
  end.

(** ** Regular expressions ([re])

    The patterns of this program quantify single characters and character
    classes only, so a quantifier carries the class it repeats.  Matching
    is Python's: leftmost, greedy, with backtracking. *)

Module Re.

Inductive regex : Type :=
| Lit (c : N)                                   (* one literal character *)
| Cls (p : N -> bool)                           (* a class, a negated class, \s, \S *)
| Rep (p : N -> bool) (lo : nat) (hi : option nat) (* p{lo,hi}, greedy *)
| Cat (r1 r2 : regex)
| Alt (r1 r2 : regex)
| Grp (i : nat) (r : regex)                     (* capturing group number i *)
| Bol                                           (* ^ *)
| Eol.                      (* $: the end, or before a last newline *)

Definition star p := Rep p 0 None.
Definition plus p := Rep p 1 None.
Definition opt c := Rep (N.eqb c) 0 (Some 1).

(** The groups of a match, the last one closed first.  [group g i] is
    [m.group(i)]; every group of this program's patterns takes part in
    every match. *)
Definition groups := list (nat * pystr).

Fixpoint group (g : groups) (i : nat) : pystr :=
  match g with
  | [] => []
  | (j, s) :: g' => if Nat.eqb i j then s else group g' i
  end.

Definition more (hi : option nat) : bool :=
  match hi with Some O => false | _ => true end.

Definition less (hi : option nat) : option nat :=
  match hi with Some n => Some (pred n) | None => None end.

Section Matcher.
Variable A : Type.

(** Greedy repetition of a class: take as many characters as allowed,
    then give them back one at a time until the rest of the pattern
    matches. *)
Fixpoint rep (p : N -> bool) (lo : nat) (hi : option nat)
         (pos : nat) (s : pystr) (k : nat -> pystr -> option A) : option A :=
  let stop := match lo with O => k pos s | S _ => None end in
  match s with
  | c :: s' =>
      if p c && more hi then
        match rep p (pred lo) (less hi) (S pos) s' k with
        | Some x => Some x
        | None => stop
        end
      else stop
  | [] => stop
  end.

(** [rmatch r pos s g k]: match [r] at offset [pos], where [s] is the
    subject from [pos] on; [k] is the rest of the pattern. *)
Fixpoint rmatch (r : regex) (pos : nat) (s : pystr) (g : groups)
         (k : nat -> pystr -> groups -> option A) : option A :=
  match r with
  | Lit c => match s with
             | c' :: s' => if (c =? c')%N then k (S pos) s' g else None
             | [] => None
             end
  | Cls p => match s with
             | c' :: s' => if p c' then k (S pos) s' g else None
             | [] => None
             end
  | Rep p lo hi => rep p lo hi pos s (fun pos' s' => k pos' s' g)
  | Cat r1 r2 => rmatch r1 pos s g (fun pos' s' g' => rmatch r2 pos' s' g' k)
  | Alt r1 r2 => match rmatch r1 pos s g k with
                 | Some x => Some x
                 | None => rmatch r2 pos s g k
                 end
  | Grp i r1 =>
      rmatch r1 pos s g
             (fun pos' s' g' => k pos' s' ((i, firstn (pos' - pos) s) :: g'))
  | Bol => match pos with O => k pos s g | S _ => None end
  | Eol => match s with
           | [] => k pos s g
           | [c] => if (c =? 10)%N then k pos s g else None
           | _ => None
           end
  end.
End Matcher.

(** A match object: the matched text (group 0) and the groups. *)
Definition match_at (r : regex) (pos : nat) (s : pystr) : option (pystr * groups) :=
  rmatch r pos s [] (fun pos' _ g => Some (firstn (pos' - pos) s, g)).

(** [re.search(r, s)], from offset [pos] on. *)
Fixpoint search_from (r : regex) (pos : nat) (s : pystr) : option (pystr * groups) :=
  match match_at r pos s with
  | Some m => Some m
  | None => match s with
            | [] => None
            | _ :: s' => search_from r (S pos) s'
            end
  end.

Definition search (r : regex) (s : pystr) : option (pystr * groups) :=
  search_from r 0 s.

(** [re.sub(r, repl, s, count)] with a function [repl] of the match object;
    [left = None] is [count=0] (no limit).  [skip] counts the characters of
    the current match still to drop.  No pattern of this program matches the
    empty string. *)
Fixpoint sub_go (r : regex) (repl : pystr * groups -> pystr)
         (left : option nat) (pos skip : nat) (s : pystr) : pystr :=
  match skip with
  | S n => match s with
           | [] => []
           | _ :: s' => sub_go r repl left (S pos) n s'
           end
  | O =>
      match (if more left then match_at r pos s else None) with
      | Some m =>
          repl m ++
          match s with
          | [] => []
          | c :: s' =>
              match List.length (fst m) with
              | O => c :: sub_go r repl (less left) (S pos) 0 s'
              | S n => sub_go r repl (less left) (S pos) n s'
              end
          end
      | None =>
          match s with
          | [] => []
          | c :: s' => c :: sub_go r repl left (S pos) 0 s'
          end
      end
  end.

Definition sub (r : regex) (repl : pystr * groups -> pystr) (s : pystr)
           (count : nat) : pystr :=
  sub_go r repl (match count with O => None | S _ => Some count end) 0 0 s.

End Re.

Import Re.
Infix ">>" := Cat (at level 61, right associativity).

(** ** The preprocessor *)

Definition not_char (c : N) : N -> bool := fun x => negb (x =? c)%N.
Definition not_space : N -> bool := fun x => negb (isspace x).

(** [r'<[^>]+>'] *)
Definition tag_re : regex := Lit (ch "<") >> plus (not_char (ch ">")) >> Lit (ch ">").
(** [r'^<\s+'] *)
Definition open_ws_re : regex := Bol >> Lit (ch "<") >> plus isspace.
(** [r'^</\s+'] *)
Definition close_ws_re : regex := Bol >> Lit (ch "<") >> Lit (ch "/") >> plus isspace.
(** [r'\s+>$'] *)
Definition end_ws_re : regex := plus isspace >> Lit (ch ">") >> Eol.
(** [r'<(/?)(\S+)\s+'] *)
Definition name_ws_re : regex :=
  Lit (ch "<") >> Grp 1 (opt (ch "/")) >> Grp 2 (plus not_space) >> plus isspace.

Definition fix_tag (m : pystr * groups) : pystr :=
  let tag := fst m in
  let tag := sub open_ws_re (fun _ => py "<") tag 0 in
  let tag := sub close_ws_re (fun _ => py "</") tag 0 in
  let tag := sub end_ws_re (fun _ => py ">") tag 0 in
  let tag := sub name_ws_re
                 (fun m => py "<" ++ group (snd m) 1 ++ group (snd m) 2 ++ py " ")
                 tag 1 in
  tag.

Definition _normalize_tag_whitespace (s : pystr) : pystr :=
  sub tag_re fix_tag s 0.

(** [r"=\s*'[^']*'"] *)
Definition single_quote_re : regex :=
  Lit (ch "=") >> star isspace >> Lit (ch "'") >> star (not_char (ch "'")) >> Lit (ch "'").

(** [[A-Za-z0-9_\-\.]] *)
Definition attr_name_char (c : N) : bool :=
  ((65 <=? c) && (c <=? 90) || (97 <=? c) && (c <=? 122)
   || (48 <=? c) && (c <=? 57)
   || (c =? 95) || (c =? 45) || (c =? 46))%N.

Definition placeholder : pystr := py "__COLON__".

(** [r'([A-Za-z0-9_\-\.]+):([A-Za-z0-9_\-\.]+)\s*='] *)
Definition attr_colon_pattern : regex :=
  Grp 1 (plus attr_name_char) >> Lit (ch ":") >> Grp 2 (plus attr_name_char)
  >> star isspace >> Lit (ch "=").

(** [attr_colon_pattern.sub(r'\1' + placeholder + r'\2=', normalized)] *)
Definition escape_colons (normalized : pystr) : pystr :=
  sub attr_colon_pattern
      (fun m => group (snd m) 1 ++ placeholder ++ group (snd m) 2 ++ py "=")
      normalized 0.

(** [f"<root>{replaced}</root>"] *)
Definition wrap (replaced : pystr) : pystr := py "<root>" ++ replaced ++ py "</root>".

Definition preprocess (ssml : pystr) : pystr :=
  wrap (escape_colons (_normalize_tag_whitespace ssml)).

(** ** The element tree of [xml.etree.ElementTree] *)

Definition dict := list (pystr * pystr).

(** [d[k] = v]: a key already present keeps its place. *)
Fixpoint dict_set (d : dict) (k v : pystr) : dict :=
  match d with
  | [] => [(k, v)]
  | (k', v') :: d' =>
      if pystr_eqb k k' then (k', v) :: d' else (k', v') :: dict_set d' k v
  end.

Fixpoint dict_get (d : dict) (k : pystr) : option pystr :=
  match d with
  | [] => None
  | (k', v) :: d' => if pystr_eqb k k' then Some v else dict_get d' k
  end.

Definition dict_keys (d : dict) : list pystr := map fst d.

(** An [Element]: [text] and [tail] are [None] or a [str]; [attrib] is in
    document order, as the dict is filled. *)
Inductive Element : Type :=
| mkElement (tag : pystr) (attrib : dict) (text tail : option pystr)
            (children : list Element).

Definition tag (e : Element) := let 'mkElement t _ _ _ _ := e in t.
Definition attrib (e : Element) := let 'mkElement _ a _ _ _ := e in a.
Definition text (e : Element) := let 'mkElement _ _ t _ _ := e in t.
Definition tail (e : Element) := let 'mkElement _ _ _ t _ := e in t.
Definition children (e : Element) := let 'mkElement _ _ _ _ c := e in c.

(** ** An executable model of [ET.fromstring]

    The XML grammar that expat accepts inside a document element, as
    [xml.etree.ElementTree] configures it (namespace processing on, comments
    and processing instructions dropped): elements, attributes, character
    data, CDATA sections, character references and the five predefined
    entities.  Names are ASCII; a byte order mark, an XML declaration and
    a DOCTYPE are not modelled (they can only come first in a document, and
    every text [parseSSML] parses starts with [<root>]).  [None] is
    [ET.ParseError]; a text that holds a surrogate code point, which
    [ET.fromstring] refuses with [UnicodeEncodeError] before it parses, is
    read here like any other, and [fromstring_raising] below tells it apart.
    The loops take fuel, one more than the length of the text they read;
    [ETFacts.tokens_fuel] and its companions show that it is enough. *)

Module ET.

Definition xml_space (c : N) : bool :=
  ((c =? 32) || (c =? 9) || (c =? 10) || (c =? 13))%N.

Definition xml_char (c : N) : bool :=
  ((c =? 9) || (c =? 10) || (c =? 13) || (32 <=? c) && (c <=? 55295)
   || (57344 <=? c) && (c <=? 65533) || (65536 <=? c) && (c <=? 1114111))%N.

Definition name_start (c : N) : bool :=
  ((65 <=? c) && (c <=? 90) || (97 <=? c) && (c <=? 122) || (c =? 95))%N.

Definition name_char (c : N) : bool :=
  (name_start c || (48 <=? c) && (c <=? 57) || (c =? 45) || (c =? 46))%N.

Fixpoint span (p : N -> bool) (s : pystr) : pystr * pystr :=
  match s with
  | c :: s' => if p c then let (a, b) := span p s' in (c :: a, b) else ([], s)
  | [] => ([], [])
  end.

(** The text before the first occurrence of [stop], and what follows it. *)
Fixpoint until (stop : pystr) (s : pystr) : option (pystr * pystr) :=
  if startswith stop s then Some ([], skipn (List.length stop) s)
  else match s with
       | [] => None
       | c :: s' => match until stop s' with
                    | Some (a, b) => Some (c :: a, b)
                    | None => None
                    end
       end.

(** A qualified name: an optional prefix and a local part. *)
Definition qname := (option pystr * pystr)%type.

Definition qname_eqb (a b : qname) : bool :=
  match fst a, fst b with
  | None, None => pystr_eqb (snd a) (snd b)
  | Some p, Some q => pystr_eqb p q && pystr_eqb (snd a) (snd b)
  | _, _ => false
  end.

Definition ncname (s : pystr) : option (pystr * pystr) :=
  match s with
  | c :: _ => if name_start c then Some (span name_char s) else None
  | [] => None
  end.

Definition scan_qname (s : pystr) : option (qname * pystr) :=
  match ncname s with
  | Some (n1, r1) =>
      match r1 with
      | c :: r2 =>
          if (c =? ch ":")%N then
            match ncname r2 with
            | Some (n2, r3) => Some ((Some n1, n2), r3)
            | None => None
            end
          else Some ((None, n1), r1)
      | [] => Some ((None, n1), r1)
      end
  | None => None
  end.

Definition digit_val (c : N) : option N :=
  (if (48 <=? c) && (c <=? 57) then Some (c - 48) else None)%N.

Definition hex_val (c : N) : option N :=
  (if (48 <=? c) && (c <=? 57) then Some (c - 48)
   else if (97 <=? c) && (c <=? 102) then Some (c - 87)
   else if (65 <=? c) && (c <=? 70) then Some (c - 55)
   else None)%N.

(** The number spelt by leading digits of base [b], and the rest. *)
Fixpoint number (val : N -> option N) (b : N) (acc : option N) (s : pystr)
  : option N * pystr :=
  match s with
  | c :: s' =>
      match val c with
      | Some d => number val b (Some (match acc with Some a => a * b + d
                                                  | None => d end)%N) s'
      | None => (acc, s)
      end
  | [] => (acc, s)
  end.

Definition semicolon (x : N) (r : pystr) : option (N * pystr) :=
  match r with
  | c :: r' => if (c =? ch ";")%N && xml_char x then Some (x, r') else None
  | [] => None
  end.

Definition predefined : list (pystr * N) :=
  [(py "lt", ch "<"); (py "gt", ch ">"); (py "amp", ch "&");
   (py "quot", dquote); (py "apos", ch "'")].

Fixpoint lookup {B} (k : pystr) (l : list (pystr * B)) : option B :=
  match l with
  | [] => None
  | (k', v) :: l' => if pystr_eqb k k' then Some v else lookup k l'
  end.

(** A reference, after its [&]: the character it stands for. *)
Definition reference (s : pystr) : option (N * pystr) :=
  match s with
  | c :: s1 =>
      if (c =? ch "#")%N then
        match s1 with
        | x :: s2 =>
            if (x =? ch "x")%N then
              match number hex_val 16 None s2 with
              | (Some n, r) => semicolon n r
              | (None, _) => None
              end
            else
              match number digit_val 10 None s1 with
              | (Some n, r) => semicolon n r
              | (None, _) => None
              end
        | [] => None
        end
      else
        match ncname s with
        | Some (n, r) =>
            match lookup n predefined with
            | Some x => semicolon x r
            | None => None
            end
        | None => None
        end
  | [] => None
  end.

(** An attribute value between its quotes: references decoded, white space
    turned into spaces, no [<]. *)
Fixpoint attvalue (fuel : nat) (s : pystr) : option pystr :=
  match fuel with
  | O => None
  | S fuel' =>
      match s with
      | [] => Some []
      | c :: s' =>
          if (c =? ch "<")%N then None
          else if (c =? ch "&")%N then
            match reference s' with
            | Some (x, r) => option_map (cons x) (attvalue fuel' r)
            | None => None
            end
          else if (c =? 13)%N then
            option_map (cons 32%N)
                       (attvalue fuel' (match s' with
                                        | 10%N :: s'' => s''
                                        | _ => s'
                                        end))
          else if xml_space c then option_map (cons 32%N) (attvalue fuel' s')
          else if xml_char c then option_map (cons c) (attvalue fuel' s')
          else None
      end
  end.

(** The attributes of a start tag and its end: [>] or [/>]. *)
Fixpoint attributes (fuel : nat) (s : pystr) (acc : list (qname * pystr))
  : option (list (qname * pystr) * bool * pystr) :=
  match fuel with
  | O => None
  | S fuel' =>
      let (ws, r) := span xml_space s in
      match r with
      | [] => None
      | c :: r' =>
          if (c =? ch ">")%N then Some (rev acc, false, r')
          else if (c =? ch "/")%N then
            match r' with
            | d :: r'' => if (d =? ch ">")%N then Some (rev acc, true, r'') else None
            | [] => None
            end
          else
            match ws, scan_qname r with
            | _ :: _, Some (n, r1) =>
                match snd (span xml_space r1) with
                | e :: r2 =>
                    if (e =? ch "=")%N then
                      match snd (span xml_space r2) with
                      | q :: r3 =>
                          if (q =? dquote)%N || (q =? ch "'")%N then
                            match until [q] r3 with
                            | Some (raw, r4) =>
                                match attvalue (S (List.length raw)) raw with
                                | Some v => attributes fuel' r4 ((n, v) :: acc)
                                | None => None
                                end
                            | None => None
                            end
                          else None
                      | [] => None
                      end
                    else None
                | [] => None
                end
            | _, _ => None
            end
      end
  end.

(** What the tokenizer reports: a start tag, an end tag, one character of
    data ([literal] when it stood for itself in the text), and the start of
    a CDATA section. *)
Inductive event : Type :=
| EStart (name : qname) (attrs : list (qname * pystr))
| EEnd (name : qname)
| EData (c : N) (literal : bool)
| ECData.

Definition is_xml (n : pystr) : bool :=
  match n with
  | [x; m; l] => ((x =? 120) || (x =? 88)) && ((m =? 109) || (m =? 77))
                 && ((l =? 108) || (l =? 76))
  | _ => false
  end%N.

(** Markup, after its [<]: the events it stands for and the rest. *)
Definition markup (s : pystr) : option (list event * pystr) :=
  if startswith (py "!--") s then
    match until (py "--") (skipn 3 s) with
    | Some (body, r) =>
        match r with
        | c :: r' => if (c =? ch ">")%N && forallb xml_char body
                     then Some ([], r') else None
        | [] => None
        end
    | None => None
    end
  else if startswith (py "![CDATA[") s then
    match until (py "]]>") (skipn 8 s) with
    | Some (body, r) =>
        if forallb xml_char body
        then Some (ECData
                   :: map (fun c => EData c false)
                          (replace (replace body [13; 10] [10]) [13] [10])%N, r)
        else None
    | None => None
    end
  else
    match s with
    | [] => None
    | c :: s' =>
        if (c =? ch "?")%N then
          match ncname s' with
          | Some (target, r) =>
              if is_xml target then None
              else match until (py "?>") r with
                   | Some (body, r') =>
                       match body with
                       | [] => Some ([], r')
                       | b :: _ => if xml_space b && forallb xml_char body
                                   then Some ([], r') else None
                       end
                   | None => None
                   end
          | None => None
          end
        else if (c =? ch "/")%N then
          match scan_qname s' with
          | Some (n, r) =>
              match snd (span xml_space r) with
              | e :: r' => if (e =? ch ">")%N then Some ([EEnd n], r') else None
              | [] => None
              end
          | None => None
          end
        else
          match scan_qname s with
          | Some (n, r) =>
              match attributes (S (List.length r)) r [] with
              | Some (attrs, empty, r') =>
                  Some (EStart n attrs :: (if empty then [EEnd n] else []), r')
              | None => None
              end
          | None => None
          end
    end.

Fixpoint tokens (fuel : nat) (s : pystr) : option (list event) :=
  match fuel with
  | O => None
  | S fuel' =>
      match s with
      | [] => Some []
      | c :: s' =>
          if (c =? ch "<")%N then
            match markup s' with
            | Some (evs, r) => option_map (app evs) (tokens fuel' r)
            | None => None
            end
          else if (c =? ch "&")%N then
            match reference s' with
            | Some (x, r) => option_map (cons (EData x false)) (tokens fuel' r)
            | None => None
            end
          else if startswith (py "]]>") s then None
          else if (c =? 13)%N then
            option_map (cons (EData 10%N true))
                       (tokens fuel' (match s' with
                                      | 10%N :: s'' => s''
                                      | _ => s'
                                      end))
          else if xml_char c then option_map (cons (EData c true)) (tokens fuel' s')
          else None
      end
  end.

(** *** Namespaces and the tree builder *)

Definition xml_uri : pystr := py "http://www.w3.org/XML/1998/namespace".
Definition xmlns_uri : pystr := py "http://www.w3.org/2000/xmlns/".

(** Prefix to namespace name; the default namespace is under the empty
    prefix. *)
Definition nsenv := list (pystr * pystr).

Definition is_decl (n : qname) : bool :=
  match n with
  | (None, l) => pystr_eqb l (py "xmlns")
  | (Some p, _) => pystr_eqb p (py "xmlns")
  end.

(** The bindings a start tag declares, on top of [env]. *)
Fixpoint declare (attrs : list (qname * pystr)) (env : nsenv) : option nsenv :=
  match attrs with
  | [] => Some env
  | (n, v) :: rest =>
      if is_decl n then
        let reserved := pystr_eqb v xml_uri || pystr_eqb v xmlns_uri in
        match n with
        | (None, _) =>
            if reserved then None else declare rest (([], v) :: env)
        | (Some _, p) =>
            if pystr_eqb p (py "xmlns") then None
            else if pystr_eqb v [] then None
            else if pystr_eqb p (py "xml") then
              if pystr_eqb v xml_uri then declare rest env else None
            else if reserved then None
            else declare rest ((p, v) :: env)
        end
      else declare rest env
  end.

Definition braces (uri l : pystr) : pystr := py "{" ++ uri ++ py "}" ++ l.

Definition expand (env : nsenv) (is_attr : bool) (n : qname) : option pystr :=
  match n with
  | (None, l) =>
      if is_attr then Some l
      else match lookup [] env with
           | Some [] | None => Some l
           | Some uri => Some (braces uri l)
           end
  | (Some p, l) =>
      match lookup p env with
      | Some uri => Some (braces uri l)
      | None => None
      end
  end.

Fixpoint has_dup {B} (eqb : B -> B -> bool) (l : list B) : bool :=
  match l with
  | [] => false
  | x :: l' => existsb (eqb x) l' || has_dup eqb l'
  end.

(** The attribute dict of a start tag: declarations are not attributes. *)
Fixpoint expand_attrs (env : nsenv) (attrs : list (qname * pystr)) : option dict :=
  match attrs with
  | [] => Some []
  | (n, v) :: rest =>
      if is_decl n then expand_attrs env rest
      else match expand env true n, expand_attrs env rest with
           | Some k, Some d => Some ((k, v) :: d)
           | _, _ => None
           end
  end.

(** An element that is still open: [f_kids] holds its children so far, the
    last one first. *)
Record frame : Type := mkFrame {
  f_name : qname;
  f_tag : pystr;
  f_attrib : dict;
  f_text : option pystr;
  f_kids : list Element;
  f_ns : nsenv
}.

(** [TreeBuilder]: the open elements, innermost first, the character data
    not yet attached, whether it is a tail, and the closed root. *)
Record builder : Type := mkBuilder {
  stack : list frame;
  data : pystr;
  in_tail : bool;
  root : option Element
}.

Definition set_tail (t : pystr) (e : Element) : Element :=
  mkElement (tag e) (attrib e) (text e) (Some t) (children e).

(** [TreeBuilder._flush] *)
Definition flush (b : builder) : builder :=
  match data b, stack b with
  | _ :: _, f :: fs =>
      let f' :=
        if in_tail b then
          match f_kids f with
          | last :: kids =>
              mkFrame (f_name f) (f_tag f) (f_attrib f) (f_text f)
                      (set_tail (data b) last :: kids) (f_ns f)
          | [] => f
          end
        else mkFrame (f_name f) (f_tag f) (f_attrib f) (Some (data b))
                     (f_kids f) (f_ns f) in
      mkBuilder (f' :: fs) [] (in_tail b) (root b)
  | _, _ => mkBuilder (stack b) [] (in_tail b) (root b)
  end.

Definition initial_ns : nsenv := [(py "xml", xml_uri)].

Definition step (b : builder) (ev : event) : option builder :=
  match ev with
  | EStart n attrs =>
      match stack b, root b with
      | [], Some _ => None
      | _, _ =>
          let b := flush b in
          let outer := match stack b with f :: _ => f_ns f | [] => initial_ns end in
          if has_dup qname_eqb (map fst attrs) then None
          else
            match declare attrs outer with
            | Some env =>
                match expand env false n, expand_attrs env attrs with
                | Some t, Some d =>
                    if has_dup pystr_eqb (dict_keys d) then None
                    else Some (mkBuilder (mkFrame n t d None [] env :: stack b)
                                         [] false (root b))
                | _, _ => None
                end
            | None => None
            end
      end
  | EEnd n =>
      let b := flush b in
      match stack b with
      | f :: fs =>
          if qname_eqb (f_name f) n then
            let e := mkElement (f_tag f) (f_attrib f) (f_text f) None
                               (rev (f_kids f)) in
            match fs with
            | parent :: rest =>
                Some (mkBuilder
                        (mkFrame (f_name parent) (f_tag parent) (f_attrib parent)
                                 (f_text parent) (e :: f_kids parent)
                                 (f_ns parent) :: rest)
                        [] true (root b))
            | [] => Some (mkBuilder [] [] true (Some e))
            end
          else None
      | [] => None
      end
  | EData c literal =>
      match stack b with
      | [] => if literal && xml_space c then Some b else None
      | _ :: _ => Some (mkBuilder (stack b) (data b ++ [c]) (in_tail b) (root b))
      end
  | ECData =>
      match stack b with
      | [] => None
      | _ :: _ => Some b
      end
  end.

Fixpoint run (b : builder) (evs : list event) : option builder :=
  match evs with
  | [] => Some b
  | ev :: evs' => match step b ev with
                  | Some b' => run b' evs'
                  | None => None
                  end
  end.

(** [ET.fromstring(text)] *)
Definition fromstring (s : pystr) : option Element :=
  match tokens (S (List.length s)) s with
  | Some evs =>
      match run (mkBuilder [] [] false None) evs with
      | Some b => match stack b with
                  | [] => root b
                  | _ :: _ => None
                  end
      | None => None
      end
  | None => None
  end.

End ET.

(** ** [html.unescape]

    [html5] is the table [html.entities.html5] of named character
    references.  The interpreter's limit on the length of a decimal numeral
    passed to [int] is not modelled. *)

Module Html.

Definition digit (c : N) : bool := ((48 <=? c) && (c <=? 57))%N.
Definition hexdigit (c : N) : bool :=
  (digit c || (97 <=? c) && (c <=? 102) || (65 <=? c) && (c <=? 70))%N.

(** [[^\t\n\f <&#;]] *)
Definition name_part (c : N) : bool :=
  negb ((c =? 9) || (c =? 10) || (c =? 12) || (c =? 32) || (c =? ch "<")
        || (c =? ch "&") || (c =? ch "#") || (c =? ch ";"))%N.

(** [r'&(#[0-9]+;?|#[xX][0-9a-fA-F]+;?|[^\t\n\f <&#;]{1,32};?)'] *)
Definition _charref : regex :=
  Lit (ch "&") >>
  Grp 1 (Alt (Lit (ch "#") >> plus digit >> opt (ch ";"))
        (Alt (Lit (ch "#") >> Cls (fun c => (c =? ch "x") || (c =? ch "X"))%N
              >> plus hexdigit >> opt (ch ";"))
             (Rep name_part 1 (Some 32) >> opt (ch ";")))).

Definition _invalid_charrefs : list (N * N) :=
  [(0x00, 0xfffd); (0x0d, 0x0d); (0x80, 0x20ac); (0x81, 0x81); (0x82, 0x201a);
   (0x83, 0x0192); (0x84, 0x201e); (0x85, 0x2026); (0x86, 0x2020);
   (0x87, 0x2021); (0x88, 0x02c6); (0x89, 0x2030); (0x8a, 0x0160);
   (0x8b, 0x2039); (0x8c, 0x0152); (0x8d, 0x8d); (0x8e, 0x017d); (0x8f, 0x8f);
   (0x90, 0x90); (0x91, 0x2018); (0x92, 0x2019); (0x93, 0x201c);
   (0x94, 0x201d); (0x95, 0x2022); (0x96, 0x2013); (0x97, 0x2014);
   (0x98, 0x02dc); (0x99, 0x2122); (0x9a, 0x0161); (0x9b, 0x203a);
   (0x9c, 0x0153); (0x9d, 0x9d); (0x9e, 0x017e); (0x9f, 0x0178)]%N.

Definition _invalid_codepoints (n : N) : bool :=
  ((0x1 <=? n) && (n <=? 0x8) || (0xe <=? n) && (n <=? 0x1f)
   || (0x7f <=? n) && (n <=? 0x9f) || (0xfdd0 <=? n) && (n <=? 0xfdef)
   || (n =? 0xb)
   || (n <=? 0x10ffff) && (0xfffe <=? N.land n 0xffff))%N.

Fixpoint assoc (n : N) (l : list (N * N)) : option N :=
  match l with
  | [] => None
  | (k, v) :: l' => if (n =? k)%N then Some v else assoc n l'
  end.

(** [s.rstrip(';')] *)
Definition rstrip_semicolon (s : pystr) : pystr :=
  rev (snd (ET.span (N.eqb (ch ";")) (rev s))).

(** [int(s, base)] on a string of digits. *)
Definition int (val : N -> option N) (base : N) (s : pystr) : N :=
  match fst (ET.number val base None s) with
  | Some n => n
  | None => 0%N
  end.

Section Unescape.
Variable html5 : pystr -> option pystr.

(** [for x in range(len(s)-1, 1, -1): ...  else: return '&' + s] *)
Fixpoint longest_name (s : pystr) (x : nat) : pystr :=
  match x with
  | S (S _ as x') =>
      match html5 (firstn x s) with
      | Some v => v ++ skipn x s
      | None => longest_name s x'
      end
  | _ => ch "&" :: s
  end.

Definition _replace_charref (m : pystr * groups) : pystr :=
  let s := group (snd m) 1 in
  match s with
  | c0 :: s1 =>
      if (c0 =? ch "#")%N then
        let num :=
          match s1 with
          | c1 :: s2 =>
              if ((c1 =? ch "x") || (c1 =? ch "X"))%N
              then int ET.hex_val 16 (rstrip_semicolon s2)
              else int ET.digit_val 10 (rstrip_semicolon s1)
          | [] => 0%N
          end in
        match assoc num _invalid_charrefs with
        | Some c => [c]
        | None =>
            if ((0xD800 <=? num) && (num <=? 0xDFFF) || (0x10FFFF <? num))%N
            then [0xFFFD%N]
            else if _invalid_codepoints num then []
            else [num]
        end
      else
        match html5 s with
        | Some v => v
        | None => longest_name s (List.length s - 1)
        end
  | [] => []
  end.

Definition unescape (s : pystr) : pystr :=
  if negb (contains_char (ch "&") s) then s
  else sub _charref _replace_charref s 0.
End Unescape.

End Html.

(** ** The document tree *)

Inductive SSMLNode : Type :=
| SSMLText (text : pystr)
| SSMLTag (name : pystr) (attributes : dict) (children : list SSMLNode).

(** ** [parseSSML] *)

(** What [parseSSML] raises: an [Exception] made with a reason string, or
    the [ET.ParseError] of the XML parser with what it carries ([E]).  In
    Python [ParseError] is a subclass of [Exception]; the two constructors
    tell the class of the object raised.  The library calls are taken here to
    raise nothing else; what they raise besides, and what [parseSSML] does
    with it, is in [Raising] below. *)
Inductive exn (E : Type) : Type :=
| Exception (msg : pystr)
| ParseError (err : E).

Inductive result (E A : Type) : Type :=
| Return (a : A)
| Raise (e : exn E).

Arguments Exception {E} msg.
Arguments ParseError {E} err.
Arguments Return {E A} a.
Arguments Raise {E A} e.

(** [t and t.strip() != ''] for a [text] or [tail]. *)
Definition has_text (t : option pystr) : bool :=
  match t with
  | None => false
  | Some s => negb (pystr_eqb s []) && negb (pystr_eqb (strip s) [])
  end.

Definition node_name (n : SSMLNode) : pystr :=
  match n with
  | SSMLTag name _ _ => name
  | SSMLText _ => []
  end.

Definition node_attributes (n : SSMLNode) : dict :=
  match n with
  | SSMLTag _ attributes _ => attributes
  | SSMLText _ => []
  end.

Definition node_children (n : SSMLNode) : list SSMLNode :=
  match n with
  | SSMLTag _ _ children => children
  | SSMLText _ => []
  end.

Definition is_tag (n : SSMLNode) : bool :=
  match n with
  | SSMLTag _ _ _ => true
  | SSMLText _ => false
  end.

Section Parse.
(** The two library calls of [parseSSML]: [ET.fromstring], which returns
    an element or raises [ET.ParseError], and [html.unescape]. *)
Variable E : Type.
Variable ET_fromstring : pystr -> Element + E.
Variable html_unescape : pystr -> pystr.

Definition text_node (t : option pystr) : list SSMLNode :=
  match t with
  | Some s => if has_text t then [SSMLText (html_unescape s)] else []
  | None => []
  end.

Fixpoint build (elem : Element) : SSMLNode :=
  match elem with
  | mkElement tag attrib text _ kids =>
      let attrs :=
        fold_left (fun attrs kv =>
                     dict_set attrs (replace (fst kv) placeholder (py ":")) (snd kv))
                  attrib [] in
      SSMLTag tag attrs
              (text_node text ++
               flat_map (fun child => build child :: text_node (tail child)) kids)
  end.

Definition parseSSML (ssml : pystr) : result E SSMLNode :=
  if contains_char (ch "'") ssml
     && (match search single_quote_re ssml with Some _ => true | None => false end)
  then Raise (Exception (py "single-quoted attributes are not allowed"))
  else
    let normalized := _normalize_tag_whitespace ssml in
    let replaced := escape_colons normalized in
    let wrapped := wrap replaced in
    match ET_fromstring wrapped with
    | inr err => Raise (ParseError err)
    | inl root_elem =>
        if has_text (text root_elem)
        then Raise (Exception (py "Invalid top-level text"))
        else
          match children root_elem with
          | [first_child] =>
              if has_text (tail first_child)
              then Raise (Exception (py "Invalid top-level text"))
              else
                let parsed := build first_child in
                if negb (pystr_eqb (node_name parsed) (py "speak"))
                then Raise (Exception (py "Top-level tag must be <speak>"))
                else Return parsed
          | _ => Raise (Exception
                          (py "Multiple top-level tags or missing speak tag"))
          end
    end.
End Parse.

(** ** [ssmlNodeToText] *)

Definition attr_part (kv : pystr * pystr) : pystr :=
  fst kv ++ py "=" ++ quoted (snd kv).

Fixpoint ssmlNodeToText (node : SSMLNode) : pystr :=
  match node with
  | SSMLText text => text
  | SSMLTag name attributes children =>
      let attrs :=
        match attributes with
        | [] => []
        | _ :: _ => py " " ++ join (py " ") (map attr_part attributes)
        end in
      let inner := List.concat (map ssmlNodeToText children) in
      py "<" ++ name ++ attrs ++ py ">" ++ inner ++ py "</" ++ name ++ py ">"
  end.

(** ** The program over the model of the libraries *)

Definition fromstring_model (s : pystr) : Element + unit :=
  match ET.fromstring s with
  | Some e => inl e
  | None => inr tt
  end.

Definition parse (html5 : pystr -> option pystr) (ssml : pystr)
  : result unit SSMLNode :=
  parseSSML fromstring_model (Html.unescape html5) ssml.

(** The entries of [html.entities.html5] for the predefined XML entities. *)
Definition html5_excerpt (name : pystr) : option pystr :=
  ET.lookup name
    [(py "amp;", py "&"); (py "amp", py "&"); (py "lt;", py "<");
     (py "lt", py "<"); (py "gt;", py ">"); (py "gt", py ">");
     (py "quot;", [dquote]); (py "quot", [dquote]); (py "apos;", py "'")].

(** ** [parseSSML] with everything its library calls may raise

    [ET.fromstring] raises [ET.ParseError], which [parseSSML] catches and
    raises again, or another exception, which [parseSSML] does not catch
    ([UnicodeEncodeError] when the text holds a surrogate code point);
    [html.unescape] may raise too ([ValueError] when a decimal reference has
    more digits than [int] converts).  Here both calls return a value or
    what they raise, and [build] stops at the first exception, in the order
    of the source: the text of an element, then each child and its tail. *)

Module Raising.

(** What [parseSSML] raises: an [Exception] made with a reason string, the
    [ET.ParseError] of the XML parser, or an exception [x] of a library
    call that nothing catches. *)
Inductive exn (E X : Type) : Type :=
| Exception (msg : pystr)
| ParseError (err : E)
| Uncaught (x : X).

Inductive result (E X A : Type) : Type :=
| Return (a : A)
| Raise (e : exn E X).

Arguments Exception {E X} msg.
Arguments ParseError {E X} err.
Arguments Uncaught {E X} x.
Arguments Return {E X A} a.
Arguments Raise {E X A} e.

Section Parse.
(** [ET.fromstring] returns an element, or raises [ET.ParseError] (left) or
    something else (right); [html.unescape] returns a string or raises. *)
Variable E : Type.
Variable X : Type.
Variable ET_fromstring : pystr -> Element + (E + X).
Variable html_unescape : pystr -> pystr + X.

Definition text_node (t : option pystr) : list SSMLNode + X :=
  match t with
  | Some s =>
      if has_text t then
        match html_unescape s with
        | inl u => inl [SSMLText u]
        | inr x => inr x
        end
      else inl []
  | None => inl []
  end.

Fixpoint build (elem : Element) : SSMLNode + X :=
  match elem with
  | mkElement tag attrib text _ kids =>
      let attrs :=
        fold_left (fun attrs kv =>
                     dict_set attrs (replace (fst kv) placeholder (py ":")) (snd kv))
                  attrib [] in
      match text_node text with
      | inr x => inr x
      | inl first =>
          match (fix rest (l : list Element) (acc : list SSMLNode)
                   : list SSMLNode + X :=
                   match l with
                   | [] => inl acc
                   | child :: l' =>
                       match build child with
                       | inr x => inr x
                       | inl c =>
                           match text_node (tail child) with
                           | inr x => inr x
                           | inl tl => rest l' (acc ++ c :: tl)
                           end
                       end
                   end) kids first with
          | inr x => inr x
          | inl children => inl (SSMLTag tag attrs children)
          end
      end
  end.

(** [for child in list(elem): ...], after the children [acc]. *)
Fixpoint build_children (l : list Element) (acc : list SSMLNode)
  : list SSMLNode + X :=
  match l with
  | [] => inl acc
  | child :: l' =>
      match build child with
      | inr x => inr x
      | inl c =>
          match text_node (tail child) with
          | inr x => inr x
          | inl tl => build_children l' (acc ++ c :: tl)
          end
      end
  end.

Definition parseSSML (ssml : pystr) : result E X SSMLNode :=
  if contains_char (ch "'") ssml
     && (match search single_quote_re ssml with Some _ => true | None => false end)
  then Raise (Exception (py "single-quoted attributes are not allowed"))
  else
    let normalized := _normalize_tag_whitespace ssml in
    let replaced := escape_colons normalized in
    let wrapped := wrap replaced in
    match ET_fromstring wrapped with
    | inr (inl err) => Raise (ParseError err)
    | inr (inr x) => Raise (Uncaught x)
    | inl root_elem =>
        if has_text (text root_elem)
        then Raise (Exception (py "Invalid top-level text"))
        else
          match children root_elem with
          | [first_child] =>
              if has_text (tail first_child)
              then Raise (Exception (py "Invalid top-level text"))
              else
                match build first_child with
                | inr x => Raise (Uncaught x)
                | inl parsed =>
                    if negb (pystr_eqb (node_name parsed) (py "speak"))
                    then Raise (Exception (py "Top-level tag must be <speak>"))
                    else Return parsed
                end
          | _ => Raise (Exception
                          (py "Multiple top-level tags or missing speak tag"))
          end
    end.
End Parse.

End Raising.

(** What [ET.fromstring] raises besides [ET.ParseError]: the text is encoded
    to UTF-8 before it is parsed, and a surrogate code point has no
    encoding. *)
Inductive library_error : Type := UnicodeEncodeError.

Definition surrogate (c : N) : bool := ((0xD800 <=? c) && (c <=? 0xDFFF))%N.

Definition fromstring_raising (s : pystr) : Element + (unit + library_error) :=
  if existsb surrogate s then inr (inr UnicodeEncodeError)
  else match ET.fromstring s with
       | Some e => inl e
       | None => inr (inl tt)
       end.

(** [parseSSML] over the model of the libraries and what they raise; the
    digit limit of [int] stays with the parameter [html_unescape] of
    [Raising.parseSSML]. *)
Definition parse_raising (html5 : pystr -> option pystr) (ssml : pystr)
  : Raising.result unit library_error SSMLNode :=
  Raising.parseSSML fromstring_raising
                    (fun s => inl (Html.unescape html5 s)) ssml.

(** * The vocabulary of the statements *)

(** ** What a pattern matches

    [lang r pos m rest]: at offset [pos] of a subject, [r] matches the text
    [m] when [rest] follows it. *)

Definition within (hi : option nat) (n : nat) : Prop :=
  match hi with Some h => n <= h | None => True end.

Inductive lang : regex -> nat -> pystr -> pystr -> Prop :=
| LLit c pos rest : lang (Lit c) pos [c] rest
| LCls (p : N -> bool) c pos rest : p c = true -> lang (Cls p) pos [c] rest
| LRep (p : N -> bool) lo hi pos m rest :
    forallb p m = true -> lo <= List.length m -> within hi (List.length m) ->
    lang (Rep p lo hi) pos m rest
| LCat r1 r2 pos m1 m2 rest :
    lang r1 pos m1 (m2 ++ rest) -> lang r2 (pos + List.length m1) m2 rest ->
    lang (Cat r1 r2) pos (m1 ++ m2) rest
| LAltL r1 r2 pos m rest : lang r1 pos m rest -> lang (Alt r1 r2) pos m rest
| LAltR r1 r2 pos m rest : lang r2 pos m rest -> lang (Alt r1 r2) pos m rest
| LGrp i r pos m rest : lang r pos m rest -> lang (Grp i r) pos m rest
| LBol rest : lang Bol 0 [] rest
| LEol pos rest : rest = [] \/ rest = [10%N] -> lang Eol pos [] rest.

(** A text or tail is kept when it has a character that is not white
    space. *)
Definition nonblank (t : option pystr) : Prop :=
  exists s c, t = Some s /\ In c s /\ isspace c = false.

(** A text or tail that is absent or all white space. *)
Definition blank (t : option pystr) : Prop :=
  t = None \/ exists s, t = Some s /\ forallb isspace s = true.

(** The text holds [=], white space, and a span between two single
    quotes. *)
Definition single_quoted_value (s : pystr) : Prop :=
  exists pre ws body post,
    s = pre ++ py "=" ++ ws ++ py "'" ++ body ++ py "'" ++ post /\
    forallb isspace ws = true /\ ~ In (ch "'") body.

(** The test [parseSSML] starts with. *)
Definition single_quote_rule (ssml : pystr) : bool :=
  contains_char (ch "'") ssml
  && match search single_quote_re ssml with Some _ => true | None => false end.

(** The reason strings of [parseSSML]. *)
Definition msg_single_quote : pystr := py "single-quoted attributes are not allowed".
Definition msg_top_text : pystr := py "Invalid top-level text".
Definition msg_top_count : pystr := py "Multiple top-level tags or missing speak tag".
Definition msg_not_speak : pystr := py "Top-level tag must be <speak>".

(** Every way [parseSSML] can end. *)
Inductive outcome (E : Type) (ET_fromstring : pystr -> Element + E)
          (html_unescape : pystr -> pystr) (ssml : pystr)
  : result E SSMLNode -> Prop :=
| OSingleQuote :
    single_quote_rule ssml = true ->
    outcome ET_fromstring html_unescape ssml (Raise (Exception msg_single_quote))
| OParseError err :
    single_quote_rule ssml = false ->
    ET_fromstring (preprocess ssml) = inr err ->
    outcome ET_fromstring html_unescape ssml (Raise (ParseError err))
| OTextBefore root_elem :
    single_quote_rule ssml = false ->
    ET_fromstring (preprocess ssml) = inl root_elem ->
    has_text (text root_elem) = true ->
    outcome ET_fromstring html_unescape ssml (Raise (Exception msg_top_text))
| OCount root_elem :
    single_quote_rule ssml = false ->
    ET_fromstring (preprocess ssml) = inl root_elem ->
    has_text (text root_elem) = false ->
    List.length (children root_elem) <> 1 ->
    outcome ET_fromstring html_unescape ssml (Raise (Exception msg_top_count))
| OTextAfter root_elem first_child :
    single_quote_rule ssml = false ->
    ET_fromstring (preprocess ssml) = inl root_elem ->
    has_text (text root_elem) = false ->
    children root_elem = [first_child] ->
    has_text (tail first_child) = true ->
    outcome ET_fromstring html_unescape ssml (Raise (Exception msg_top_text))
| ONotSpeak root_elem first_child :
    single_quote_rule ssml = false ->
    ET_fromstring (preprocess ssml) = inl root_elem ->
    has_text (text root_elem) = false ->
    children root_elem = [first_child] ->
    has_text (tail first_child) = false ->
    tag first_child <> py "speak" ->
    outcome ET_fromstring html_unescape ssml (Raise (Exception msg_not_speak))
| OReturn root_elem first_child :
    single_quote_rule ssml = false ->
    ET_fromstring (preprocess ssml) = inl root_elem ->
    has_text (text root_elem) = false ->
    children root_elem = [first_child] ->
    has_text (tail first_child) = false ->
    tag first_child = py "speak" ->
    outcome ET_fromstring html_unescape ssml (Return (build html_unescape first_child)).

(** The dict [d0] after [d[f(k)] = v] for every [(k, v)] of [l] in turn. *)
Definition renamed (f : pystr -> pystr) (l d0 : dict) : dict :=
  fold_left (fun attrs kv => dict_set attrs (f (fst kv)) (snd kv)) l d0.

(** [a == b] for two nodes: [SSMLText.__eq__] and [SSMLTag.__eq__]; two
    dicts are equal when they bind the same keys to the same values. *)
Definition dict_eqb (a b : dict) : bool :=
  Nat.eqb (List.length a) (List.length b)
  && forallb (fun kv => match dict_get b (fst kv) with
                        | Some v => pystr_eqb (snd kv) v
                        | None => false
                        end) a.

Fixpoint ssml_eqb (a b : SSMLNode) : bool :=
  match a, b with
  | SSMLText x, SSMLText y => pystr_eqb x y
  | SSMLTag n1 a1 c1, SSMLTag n2 a2 c2 =>
      pystr_eqb n1 n2 && dict_eqb a1 a2
      && (fix all2 (l1 l2 : list SSMLNode) : bool :=
            match l1, l2 with
            | [], [] => true
            | x :: l1', y :: l2' => ssml_eqb x y && all2 l1' l2'
            | _, _ => false
            end) c1 c2
  | _, _ => false
  end.

(** The serializer in the words of the specification: a text node is its
    string; a tag node is [<name], then for each attribute in the order of
    the mapping a space, the key, [=] and the value between double quotes,
    then [>], the serialized children in order, and [</name>]. *)
Fixpoint serialize_spec (node : SSMLNode) : pystr :=
  match node with
  | SSMLText s => s
  | SSMLTag name attrs kids =>
      py "<" ++ name
      ++ flat_map (fun kv => py " " ++ fst kv ++ py "=" ++ [dquote] ++ snd kv ++ [dquote])
                  attrs
      ++ py ">"
      ++ flat_map serialize_spec kids
      ++ py "</" ++ name ++ py ">"
  end.

(** A run of [p] characters ends before [rest]. *)
Definition stops (p : N -> bool) (rest : pystr) : Prop :=
  match rest with [] => True | c :: _ => p c = false end.

(** ** Trees, keys and plain text *)

(** Every attribute mapping of the tree binds each key once. *)
Inductive well_keyed : SSMLNode -> Prop :=
| WKText s : well_keyed (SSMLText s)
| WKTag name attrs kids :
    NoDup (dict_keys attrs) -> Forall well_keyed kids ->
    well_keyed (SSMLTag name attrs kids).

(** [k.replace(placeholder, ":")] *)
Definition restore (k : pystr) : pystr := replace k placeholder (py ":").

(** [l1 == l2] for two lists, with [eqb] for [==] on the items. *)
Fixpoint list_eqb {B} (eqb : B -> B -> bool) (l1 l2 : list B) : bool :=
  match l1, l2 with
  | [], [] => true
  | x :: l1', y :: l2' => eqb x y && list_eqb eqb l1' l2'
  | _, _ => false
  end.

(** Two trees that differ at most in the order of the attributes of their
    tags. *)
Inductive same_tree : SSMLNode -> SSMLNode -> Prop :=
| STText s : same_tree (SSMLText s) (SSMLText s)
| STTag name a1 a2 k1 k2 :
    Permutation a1 a2 -> Forall2 same_tree k1 k2 ->
    same_tree (SSMLTag name a1 k1) (SSMLTag name a2 k2).

(** The pattern has no [^]. *)
Fixpoint bol_free (r : regex) : bool :=
  match r with
  | Cat r1 r2 | Alt r1 r2 => bol_free r1 && bol_free r2
  | Grp _ r1 => bol_free r1
  | Bol => false
  | _ => true
  end.

(** A character that stands for itself in every step of [parseSSML]: an XML
    character other than [<], [&], ['], [:], a closing bracket and a
    carriage return. *)
Definition plain (c : N) : bool :=
  ET.xml_char c
  && negb ((c =? ch "<") || (c =? ch "&") || (c =? ch "'") || (c =? ch ":")
           || (c =? ch "]") || (c =? 13))%N.

(** The [text] or [tail] that character data gives: [None] when there is
    none. *)
Definition chardata (t : pystr) : option pystr :=
  match t with [] => None | _ :: _ => Some t end.

(** A character that no pattern of the parser looks for, and that is no
    markup: not [<], [>], [:], ['] or [&]. *)
Definition inert (c : N) : bool :=
  negb ((c =? ch "<") || (c =? ch ">") || (c =? ch ":") || (c =? ch "'")
        || (c =? ch "&"))%N.

(** Inert characters without white space. *)
Definition word (s : pystr) : bool :=
  forallb (fun c => inert c && not_space c) s.

(** [p in s] *)
Fixpoint occurs (p s : pystr) : bool :=
  startswith p s || match s with [] => false | _ :: s' => occurs p s' end.

(** A name on one side of the colon of a key: one or more characters of
    [[A-Za-z0-9_\-\.]], without the letter [C]. *)
Definition colon_name (n : pystr) : bool :=
  forallb attr_name_char n && negb (pystr_eqb n [])
  && negb (contains_char (ch "C") n).

(** A key cut at its first colon. *)
Definition key_parts (k : pystr) : option (pystr * pystr) :=
  match ET.span (not_char (ch ":")) k with
  | (n1, _ :: n2) => Some (n1, n2)
  | (_, []) => None
  end.

(** A key is a word without the placeholder, or two names around one
    colon. *)
Definition key_ok (k : pystr) : bool :=
  match key_parts k with
  | Some (n1, n2) => colon_name n1 && colon_name n2
  | None => word k && negb (occurs placeholder k)
  end.

(** The key as the colon substitution leaves it. *)
Definition escaped_key (k : pystr) : pystr :=
  match key_parts k with
  | Some (n1, n2) => n1 ++ placeholder ++ n2
  | None => k
  end.

Definition escaped_attrs (attrs : dict) : dict :=
  map (fun kv => (escaped_key (fst kv), snd kv)) attrs.

(** The tree with its keys as the colon substitution leaves them. *)
Fixpoint escaped (t : SSMLNode) : SSMLNode :=
  match t with
  | SSMLText s => SSMLText s
  | SSMLTag name attrs kids =>
      SSMLTag name (escaped_attrs attrs) (map escaped kids)
  end.

(** The attributes as the serializer writes them: a space, the key, [=] and
    the value between double quotes, for each. *)
Definition attrs_text (attrs : dict) : pystr :=
  flat_map (fun kv => py " " ++ fst kv ++ py "=" ++ [dquote] ++ snd kv ++ [dquote])
           attrs.

(** The string of a leading text node. *)
Definition first_text (l : list SSMLNode) : option pystr :=
  match l with SSMLText s :: _ => Some s | _ => None end.

(** No two text nodes follow each other. *)
Fixpoint separated (l : list SSMLNode) : bool :=
  match l with
  | [] => true
  | k :: l' =>
      negb (negb (is_tag k) && match first_text l' with Some _ => true | None => false end)
      && separated l'
  end.

(** A tree that the serializer writes so that its text can be read back: its
    names are non-empty words that do not start with [/]; its keys are
    words without the placeholder or two names around a colon, each bound
    once; its values and texts are inert; its texts are not blank; and no
    two text nodes follow each other. *)
Fixpoint printable (t : SSMLNode) : bool :=
  match t with
  | SSMLText s => forallb inert s && has_text (Some s)
  | SSMLTag name attrs kids =>
      word name && negb (pystr_eqb name []) && negb (startswith (py "/") name)
      && forallb (fun kv => key_ok (fst kv) && forallb inert (snd kv)) attrs
      && negb (ET.has_dup pystr_eqb (dict_keys attrs))
      && forallb printable kids
      && separated kids
  end.

(** The element that [build] turns into the tag [t], with the tail [tl]:
    a leading text node is the [text], each tag node is a child, and the
    text node after it is its [tail]. *)
Fixpoint elem_of (t : SSMLNode) (tl : option pystr) : Element :=
  match t with
  | SSMLText _ => mkElement [] [] None tl []
  | SSMLTag name attrs kids =>
      mkElement name attrs (first_text kids) tl
        ((fix elems (l : list SSMLNode) : list Element :=
            match l with
            | [] => []
            | SSMLText _ :: l' => elems l'
            | (SSMLTag _ _ _ as k) :: l' => elem_of k (first_text l') :: elems l'
            end) kids)
  end.

Fixpoint elems_of (l : list SSMLNode) : list Element :=
  match l with
  | [] => []
  | SSMLText _ :: l' => elems_of l'
  | (SSMLTag _ _ _ as k) :: l' => elem_of k (first_text l') :: elems_of l'
  end.

(** Nothing, or a text that starts with [<]. *)
Definition starts_lt (r : pystr) : Prop :=
  match r with [] => True | c :: _ => c = ch "<" end.

(** A result of [parseSSML] among the results of [Raising.parseSSML]. *)
Definition with_uncaught (E X A : Type) (r : result E A) : Raising.result E X A :=
  match r with
  | Return a => Raising.Return a
  | Raise (Exception msg) => Raising.Raise (Raising.Exception msg)
  | Raise (ParseError err) => Raising.Raise (Raising.ParseError err)
  end.

(** A library call that raises [ET.ParseError] only, and one that never
    raises. *)
Definition only_ParseError (E X : Type) (f : pystr -> Element + E) (s : pystr)
  : Element + (E + X) :=
  match f s with
  | inl e => inl e
  | inr err => inr (inl err)
  end.

Definition never_raises (X : Type) (f : pystr -> pystr) (s : pystr) : pystr + X :=
  inl (f s).

Ltac inv H := inversion H; subst; clear H.

(** Replace the literals [py "..."] and [ch "."] of the goal by their
    values. *)
Ltac pylit :=
  repeat match goal with
         | |- context [py ?s] =>
             let v := eval vm_compute in (py s) in change (py s) with v
         | |- context [ch ?a] =>
             let v := eval vm_compute in (ch a) in change (ch a) with v
         end.

(** * Properties *)

(** ** The matcher finds the matches there are *)

Section MatcherFacts.
Variable A : Type.

Lemma rep_sound (p : N -> bool) :
  forall s lo hi pos (k : nat -> pystr -> option A) x,
    rep p lo hi pos s k = Some x ->
    exists m rest,
      s = m ++ rest /\ forallb p m = true /\ lo <= List.length m /\
      within hi (List.length m) /\ k (pos + List.length m) rest = Some x.
Proof.
  assert (stop_case : forall s lo hi pos (k : nat -> pystr -> option A) x,
             match lo with O => k pos s | S _ => None end = Some x ->
             exists m rest,
               s = m ++ rest /\ forallb p m = true /\ lo <= List.length m /\
               within hi (List.length m) /\ k (pos + List.length m) rest = Some x).
  { intros s lo hi pos k x H. destruct lo; [|discriminate].
    exists [], s. simpl. rewrite Nat.add_0_r.
    repeat split; auto. destruct hi; simpl; lia. }
  induction s as [|c s' IH]; intros lo hi pos k x H; simpl in H.
  - now apply stop_case.
  - destruct (p c) eqn:Hp; simpl in H; [|now apply stop_case].
    destruct (more hi) eqn:Hm; [|now apply stop_case].
    destruct (rep p (pred lo) (less hi) (S pos) s' k) as [y|] eqn:Hr;
      [|now apply stop_case].
    injection H as ->.
    destruct (IH _ _ _ _ _ Hr) as (m & rest & -> & Hall & Hlo & Hhi & Hk).
    exists (c :: m), rest. simpl. rewrite Hp, Hall.
    rewrite Nat.add_succ_r. repeat split; auto; try lia.
    destruct hi as [[|h]|]; simpl in *; try discriminate; try lia.
Qed.

Lemma rep_complete (p : N -> bool) :
  forall m rest lo hi pos (k : nat -> pystr -> option A),
    forallb p m = true -> lo <= List.length m -> within hi (List.length m) ->
    k (pos + List.length m) rest <> None ->
    rep p lo hi pos (m ++ rest) k <> None.
Proof.
  induction m as [|c m' IH]; intros rest lo hi pos k Hall Hlo Hhi Hk.
  - simpl in *. rewrite Nat.add_0_r in Hk.
    assert (lo = 0) as -> by lia.
    destruct rest as [|c s']; simpl; auto.
    destruct (p c && more hi); auto.
    destruct (rep p 0 (less hi) (S pos) s' k); auto. discriminate.
  - simpl in *. apply andb_true_iff in Hall as [Hp Hall]. rewrite Hp.
    assert (more hi = true) as ->
        by (destruct hi as [[|h]|]; simpl in *; auto; lia).
    simpl.
    assert (rep p (pred lo) (less hi) (S pos) (m' ++ rest) k <> None) as Hr.
    { apply IH; auto; try lia.
      - destruct hi as [h|]; simpl in *; auto; lia.
      - now rewrite Nat.add_succ_r in Hk. }
    destruct (rep p (pred lo) (less hi) (S pos) (m' ++ rest) k);
      [discriminate | contradiction].
Qed.

Lemma rmatch_sound :
  forall r pos s g (k : nat -> pystr -> groups -> option A) x,
    rmatch r pos s g k = Some x ->
    exists m rest g',
      s = m ++ rest /\ lang r pos m rest /\
      k (pos + List.length m) rest g' = Some x.
Proof.
  induction r as [c|p|p lo hi|r1 IH1 r2 IH2|r1 IH1 r2 IH2|i r IH| |];
    intros pos s g k x H; simpl in H.
  - destruct s as [|c' s']; [discriminate|].
    destruct (N.eqb_spec c c') as [->|]; [|discriminate].
    exists [c'], s', g. simpl. rewrite Nat.add_1_r.
    repeat split; auto. constructor.
  - destruct s as [|c' s']; [discriminate|].
    destruct (p c') eqn:Hp; [|discriminate].
    exists [c'], s', g. simpl. rewrite Nat.add_1_r.
    repeat split; auto. now constructor.
  - apply rep_sound in H as (m & rest & -> & Hall & Hlo & Hhi & Hk).
    exists m, rest, g. repeat split; auto. now constructor.
  - apply IH1 in H as (m1 & rest1 & g1 & -> & L1 & H).
    apply IH2 in H as (m2 & rest & g2 & -> & L2 & H).
    exists (m1 ++ m2), rest, g2.
    rewrite <- app_assoc, length_app, Nat.add_assoc.
    repeat split; auto. now constructor.
  - destruct (rmatch r1 pos s g k) as [y|] eqn:H1.
    + injection H as ->.
      apply IH1 in H1 as (m & rest & g' & -> & L & H).
      exists m, rest, g'. repeat split; auto. now apply LAltL.
    + apply IH2 in H as (m & rest & g' & -> & L & H).
      exists m, rest, g'. repeat split; auto. now apply LAltR.
  - apply IH in H as (m & rest & g' & -> & L & H).
    eexists m, rest, _. repeat split; eauto. now constructor.
  - destruct pos; [|discriminate].
    exists [], s, g. repeat split; auto. constructor.
  - exists [], s, g. simpl. rewrite Nat.add_0_r.
    destruct s as [|c [|d s']]; try discriminate.
    + repeat split; auto. constructor. now left.
    + destruct (N.eqb_spec c 10) as [->|]; [|discriminate].
      repeat split; auto. constructor. now right.
Qed.

Lemma rmatch_complete :
  forall r pos m rest g (k : nat -> pystr -> groups -> option A),
    lang r pos m rest ->
    (forall g', k (pos + List.length m) rest g' <> None) ->
    rmatch r pos (m ++ rest) g k <> None.
Proof.
  intros r pos m rest g k L. revert g k.
  induction L; intros g k Hk; simpl in *.
  - rewrite N.eqb_refl. rewrite Nat.add_1_r in Hk. apply Hk.
  - rewrite H. rewrite Nat.add_1_r in Hk. apply Hk.
  - apply rep_complete; auto.
  - rewrite <- app_assoc. apply IHL1. intros g'. apply IHL2.
    intros g''. rewrite <- Nat.add_assoc, <- length_app. apply Hk.
  - specialize (IHL g k Hk).
    destruct (rmatch r1 pos (m ++ rest) g k); [discriminate|contradiction].
  - specialize (IHL g k Hk).
    destruct (rmatch r1 pos (m ++ rest) g k); [discriminate|assumption].
  - apply IHL. intros g'. apply Hk.
  - apply Hk.
  - rewrite Nat.add_0_r in Hk.
    destruct H as [->| ->]; simpl; apply Hk.
Qed.
End MatcherFacts.

Lemma match_at_sound r pos s m :
  match_at r pos s = Some m ->
  exists rest, s = fst m ++ rest /\ lang r pos (fst m) rest.
Proof.
  unfold match_at. intros H.
  apply rmatch_sound in H as (t & rest & g' & -> & L & H).
  injection H as <-. simpl.
  replace (pos + List.length t - pos) with (List.length t + 0) by lia.
  rewrite firstn_app_2. simpl. rewrite app_nil_r. eauto.
Qed.

Lemma match_at_complete r pos m rest :
  lang r pos m rest -> match_at r pos (m ++ rest) <> None.
Proof.
  intros L. unfold match_at. apply rmatch_complete; auto. discriminate.
Qed.

Lemma search_from_sound r : forall s pos x,
  search_from r pos s = Some x ->
  exists pre m rest, s = pre ++ m ++ rest /\ lang r (pos + List.length pre) m rest.
Proof.
  induction s as [|c s' IH]; intros pos x H; simpl in H.
  - destruct (match_at r pos []) eqn:Hm; [|discriminate].
    apply match_at_sound in Hm as (rest & E & L).
    exists [], (fst p), rest. simpl. now rewrite Nat.add_0_r.
  - destruct (match_at r pos (c :: s')) eqn:Hm.
    + apply match_at_sound in Hm as (rest & E & L).
      exists [], (fst p), rest. simpl. now rewrite Nat.add_0_r.
    + apply IH in H as (pre & m & rest & -> & L).
      exists (c :: pre), m, rest. simpl. now rewrite Nat.add_succ_r.
Qed.

Lemma search_from_complete r : forall pre pos m rest,
  lang r (pos + List.length pre) m rest ->
  search_from r pos (pre ++ m ++ rest) <> None.
Proof.
  induction pre as [|c pre IH]; intros pos m rest L; simpl in *.
  - rewrite Nat.add_0_r in L. apply match_at_complete in L.
    destruct (m ++ rest); simpl;
      (destruct (match_at r pos _); [discriminate|contradiction]).
  - destruct (match_at r pos (c :: pre ++ m ++ rest)); [discriminate|].
    apply IH. now rewrite Nat.add_succ_r in L.
Qed.

(** ** Strings *)

Lemma pystr_eqb_eq a b : pystr_eqb a b = true <-> a = b.
Proof.
  unfold pystr_eqb. destruct (list_eq_dec N.eq_dec a b); split; auto; discriminate.
Qed.

Lemma pystr_eqb_refl a : pystr_eqb a a = true.
Proof. now apply pystr_eqb_eq. Qed.

Lemma pystr_eqb_neq a b : pystr_eqb a b = false <-> a <> b.
Proof.
  unfold pystr_eqb. destruct (list_eq_dec N.eq_dec a b); split; auto;
    try discriminate; contradiction.
Qed.

Lemma lstrip_nil s : lstrip s = [] <-> forallb isspace s = true.
Proof.
  induction s as [|c s IH]; simpl; [tauto|].
  destruct (isspace c); simpl; [assumption|]. split; discriminate.
Qed.

(** What [lstrip] leaves is empty or starts with a character that is not
    white space. *)
Lemma lstrip_head s :
  lstrip s = [] \/ exists c r, lstrip s = c :: r /\ isspace c = false.
Proof.
  induction s as [|c s IH]; simpl; auto.
  destruct (isspace c) eqn:Hc; auto. right. eauto.
Qed.

Lemma forallb_rev (p : N -> bool) s : forallb p (rev s) = forallb p s.
Proof.
  destruct (forallb p s) eqn:H.
  - apply forallb_forall. intros x Hx. apply in_rev in Hx.
    rewrite forallb_forall in H. auto.
  - destruct (forallb p (rev s)) eqn:H'; auto.
    rewrite forallb_forall in H'.
    assert (forallb p s = true) as Hs.
    { apply forallb_forall. intros x Hx. apply H'. now apply in_rev in Hx. }
    congruence.
Qed.

Lemma strip_nil s : strip s = [] <-> forallb isspace s = true.
Proof.
  unfold strip. rewrite <- lstrip_nil. split; intros H.
  - apply (f_equal (@rev N)) in H. rewrite rev_involutive in H. simpl in H.
    apply lstrip_nil in H. rewrite forallb_rev in H.
    destruct (lstrip_head s) as [E|(c & r & E & Hc)]; auto.
    rewrite E in H. simpl in H. now rewrite Hc in H.
  - now rewrite H.
Qed.

Lemma has_text_nonblank t : has_text t = true <-> nonblank t.
Proof.
  unfold has_text, nonblank. destruct t as [s|].
  - rewrite andb_true_iff, !negb_true_iff, !pystr_eqb_neq. split.
    + intros [_ H]. exists s.
      destruct (forallb isspace s) eqn:Hall.
      * now apply strip_nil in Hall.
      * assert (existsb (fun c => negb (isspace c)) s = true) as Hex.
        { clear H. induction s as [|c s IH]; simpl in *; [discriminate|].
          destruct (isspace c); simpl in *; auto. }
        apply existsb_exists in Hex as (c & Hin & Hc).
        exists c. apply negb_true_iff in Hc. auto.
    + intros (s' & c & E & Hin & Hc). injection E as <-.
      assert (strip s <> []) as Hs.
      { intros Hs. apply strip_nil in Hs. rewrite forallb_forall in Hs.
        specialize (Hs c Hin). congruence. }
      split; auto. intros ->. now apply Hs.
  - split; [discriminate|]. now intros (s & c & E & _).
Qed.

Lemma has_text_blank t :
  (t = None \/ exists s, t = Some s /\ forallb isspace s = true) ->
  has_text t = false.
Proof.
  intros H. destruct (has_text t) eqn:E; auto.
  apply has_text_nonblank in E as (s & c & -> & Hin & Hc).
  destruct H as [H|(s' & H & Hall)]; [discriminate|].
  injection H as <-. rewrite forallb_forall in Hall.
  specialize (Hall c Hin). congruence.
Qed.

(** ** The single-quote rule *)

Lemma not_char_forallb c body :
  forallb (not_char c) body = true <-> ~ In c body.
Proof.
  rewrite forallb_forall. unfold not_char. split.
  - intros H Hin. specialize (H c Hin). now rewrite N.eqb_refl in H.
  - intros H x Hx. apply negb_true_iff. apply N.eqb_neq. intros ->. auto.
Qed.

Lemma single_quote_lang pos m rest :
  lang single_quote_re pos m rest <->
  exists ws body,
    m = py "=" ++ ws ++ py "'" ++ body ++ py "'" /\
    forallb isspace ws = true /\ ~ In (ch "'") body.
Proof.
  unfold single_quote_re, star. split.
  - intros H.
    repeat match goal with
           | L : lang (Cat _ _) _ _ _ |- _ => inv L
           | L : lang (Lit _) _ _ _ |- _ => inv L
           | L : lang (Rep _ _ _) _ _ _ |- _ => inv L
           end.
    eexists _, _. rewrite <- not_char_forallb. eauto.
  - intros (ws & body & -> & Hws & Hbody).
    apply not_char_forallb in Hbody.
    change (py "=") with [ch "="]. change (py "'") with [ch "'"].
    repeat (apply LCat || apply LLit || (apply LRep; simpl; auto; lia)).
Qed.

Lemma single_quote_rule_spec ssml :
  single_quote_rule ssml = true <-> single_quoted_value ssml.
Proof.
  unfold single_quote_rule, single_quoted_value, search. split.
  - intros H. apply andb_true_iff in H as [_ H].
    destruct (search_from single_quote_re 0 ssml) eqn:Hs; [|discriminate].
    apply search_from_sound in Hs as (pre & m & post & -> & L).
    apply single_quote_lang in L as (ws & body & -> & Hws & Hbody).
    exists pre, ws, body, post. rewrite <- !app_assoc. auto.
  - intros (pre & ws & body & post & -> & Hws & Hbody).
    apply andb_true_iff. split.
    + apply existsb_exists. exists (ch "'"). split; [|apply N.eqb_refl].
      apply in_or_app. right. apply in_or_app. right.
      apply in_or_app. right. now left.
    + assert (lang single_quote_re (0 + List.length pre)
                   (py "=" ++ ws ++ py "'" ++ body ++ py "'") post) as L
          by (apply single_quote_lang; eauto).
      apply search_from_complete in L.
      rewrite <- !app_assoc in L.
      destruct (search_from single_quote_re 0 _); [reflexivity|contradiction].
Qed.

(** ** The fuel of the XML model

    Every loop of the model takes at least one character by turn, so the
    fuel it is given, one more than the length of its text, is never used
    up: more fuel gives the same result. *)

Module ETFacts.
Import ET.

Lemma span_length p s : List.length (snd (span p s)) <= List.length s.
Proof.
  induction s as [|c s IH]; simpl; auto.
  destruct (p c); simpl; auto. destruct (span p s). simpl in *. lia.
Qed.

Lemma span_snd_eq p s a b : span p s = (a, b) -> List.length b <= List.length s.
Proof. intros H. pose proof (span_length p s) as L. now rewrite H in L. Qed.

Lemma until_length stop : forall s a b,
  until stop s = Some (a, b) -> List.length b <= List.length s.
Proof.
  induction s as [|c s IH]; intros a b H; simpl in H.
  - destruct (startswith stop []); [|discriminate].
    injection H as <- <-. rewrite skipn_nil. simpl. lia.
  - destruct (startswith stop (c :: s)).
    + injection H as <- <-. rewrite length_skipn. lia.
    + destruct (until stop s) as [[a' b']|] eqn:Hu; [|discriminate].
      injection H as <- <-. specialize (IH _ _ eq_refl). simpl. lia.
Qed.

Lemma ncname_length s n r :
  ncname s = Some (n, r) -> List.length r < List.length s.
Proof.
  unfold ncname. destruct s as [|c s]; [discriminate|].
  destruct (name_start c) eqn:Hc; [|discriminate].
  intros H. injection H as H. simpl in H.
  assert (name_char c = true) as Hn by (unfold name_char; now rewrite Hc).
  rewrite Hn in H. destruct (span name_char s) as [a b] eqn:Hs.
  injection H as <- <-. apply span_snd_eq in Hs. simpl. lia.
Qed.

Lemma scan_qname_length s n r :
  scan_qname s = Some (n, r) -> List.length r < List.length s.
Proof.
  unfold scan_qname. destruct (ncname s) as [[n1 r1]|] eqn:H1; [|discriminate].
  apply ncname_length in H1.
  destruct r1 as [|c r2].
  - intros H. injection H as <- <-. assumption.
  - destruct (c =? ch ":")%N.
    + destruct (ncname r2) as [[n2 r3]|] eqn:H2; [|discriminate].
      apply ncname_length in H2. intros H. injection H as <- <-.
      simpl in *. lia.
    + intros H. injection H as <- <-. assumption.
Qed.

Lemma number_length val b : forall s acc,
  List.length (snd (number val b acc s)) <= List.length s.
Proof.
  induction s as [|c s IH]; intros acc; simpl; auto.
  destruct (val c) as [d|]; simpl; [|lia].
  etransitivity; [apply IH|lia].
Qed.

Lemma semicolon_length x r y r' :
  semicolon x r = Some (y, r') -> List.length r' < List.length r.
Proof.
  unfold semicolon. destruct r as [|c r]; [discriminate|].
  destruct ((c =? ch ";")%N && xml_char x); [|discriminate].
  intros H. injection H as <- <-. simpl. lia.
Qed.

Lemma reference_length s x r :
  reference s = Some (x, r) -> List.length r < List.length s.
Proof.
  unfold reference. destruct s as [|c s1]; [discriminate|].
  destruct (c =? ch "#")%N.
  - destruct s1 as [|d s2]; [discriminate|].
    destruct (d =? ch "x")%N.
    + pose proof (number_length hex_val 16 s2 None) as L.
      destruct (number hex_val 16 None s2) as [[n|] r0]; [|discriminate].
      intros H. apply semicolon_length in H. simpl in *. lia.
    + pose proof (number_length digit_val 10 (d :: s2) None) as L.
      destruct (number digit_val 10 None (d :: s2)) as [[n|] r0]; [|discriminate].
      intros H. apply semicolon_length in H. simpl in *. lia.
  - destruct (ncname (c :: s1)) as [[n r0]|] eqn:Hn; [|discriminate].
    apply ncname_length in Hn.
    destruct (lookup n predefined); [|discriminate].
    intros H. apply semicolon_length in H. lia.
Qed.

(** More fuel than characters is enough for [attvalue]. *)
Lemma attvalue_fuel : forall n m s,
  List.length s < n -> List.length s < m -> attvalue n s = attvalue m s.
Proof.
  induction n as [|n IH]; intros m s Hn Hm; [lia|].
  destruct m as [|m]; [lia|]. cbn [attvalue].
  destruct s as [|c s']; auto. simpl in Hn, Hm.
  destruct (c =? ch "<")%N; auto.
  destruct (c =? ch "&")%N.
  { destruct (reference s') as [[x r]|] eqn:Hr; auto.
    apply reference_length in Hr. rewrite (IH m r); auto; lia. }
  destruct (c =? 13)%N.
  { destruct s' as [|d s'']; [rewrite (IH m []); auto; simpl in *; lia|].
    destruct (N.eqb_spec d 10) as [->|Hd].
    - rewrite (IH m s''); auto; simpl in *; lia.
    - assert (forall (B : Type) (x y : B),
                 match d with 10%N => x | _ => y end = y) as E.
      { intros B x y. destruct d as [|p]; auto.
        do 4 (destruct p; auto). contradiction. }
      rewrite E. rewrite (IH m (d :: s'')); auto; simpl in *; lia. }
  destruct (xml_space c); [rewrite (IH m s'); auto; lia|].
  destruct (xml_char c); auto. rewrite (IH m s'); auto; lia.
Qed.

Lemma attributes_length : forall n s acc l b r,
  attributes n s acc = Some (l, b, r) -> List.length r < List.length s.
Proof.
  induction n as [|n IH]; intros s acc l b r H; [discriminate|].
  cbn [attributes] in H. destruct (span xml_space s) as [ws r0] eqn:Hs.
  apply span_snd_eq in Hs.
  destruct r0 as [|c r']; [discriminate|].
  destruct (c =? ch ">")%N.
  { injection H as <- <- <-. simpl in *. lia. }
  destruct (c =? ch "/")%N.
  { destruct r' as [|d r'']; [discriminate|].
    destruct (d =? ch ">")%N; [|discriminate].
    injection H as <- <- <-. simpl in *. lia. }
  destruct ws; [discriminate|].
  destruct (scan_qname (c :: r')) as [[nm r1]|] eqn:Hq; [|discriminate].
  apply scan_qname_length in Hq.
  pose proof (span_length xml_space r1) as L1.
  destruct (snd (span xml_space r1)) as [|e r2]; [discriminate|].
  destruct (e =? ch "=")%N; [|discriminate].
  pose proof (span_length xml_space r2) as L2.
  destruct (snd (span xml_space r2)) as [|q r3]; [discriminate|].
  destruct ((q =? dquote)%N || (q =? ch "'")%N); [|discriminate].
  destruct (until [q] r3) as [[raw r4]|] eqn:Hu; [|discriminate].
  apply until_length in Hu.
  destruct (attvalue (S (List.length raw)) raw); [|discriminate].
  apply IH in H. simpl in *. lia.
Qed.

(** More fuel than characters is enough for [attributes]. *)
Lemma attributes_fuel : forall n m s acc,
  List.length s < n -> List.length s < m -> attributes n s acc = attributes m s acc.
Proof.
  induction n as [|n IH]; intros m s acc Hn Hm; [lia|].
  destruct m as [|m]; [lia|]. cbn [attributes].
  destruct (span xml_space s) as [ws r0] eqn:Hs.
  apply span_snd_eq in Hs.
  destruct r0 as [|c r']; auto.
  destruct (c =? ch ">")%N; auto.
  destruct (c =? ch "/")%N; auto.
  destruct ws; auto.
  destruct (scan_qname (c :: r')) as [[nm r1]|] eqn:Hq; auto.
  apply scan_qname_length in Hq.
  pose proof (span_length xml_space r1) as L1.
  destruct (snd (span xml_space r1)) as [|e r2]; auto.
  destruct (e =? ch "=")%N; auto.
  pose proof (span_length xml_space r2) as L2.
  destruct (snd (span xml_space r2)) as [|q r3]; auto.
  destruct ((q =? dquote)%N || (q =? ch "'")%N); auto.
  destruct (until [q] r3) as [[raw r4]|] eqn:Hu; auto.
  apply until_length in Hu.
  destruct (attvalue (S (List.length raw)) raw); auto.
  apply IH; simpl in *; lia.
Qed.

Lemma markup_length s evs r :
  markup s = Some (evs, r) -> List.length r <= List.length s.
Proof.
  unfold markup.
  destruct (startswith (py "!--") s).
  { destruct (until (py "--") (skipn 3 s)) as [[body r0]|] eqn:Hu; [|discriminate].
    apply until_length in Hu. rewrite length_skipn in Hu.
    destruct r0 as [|c r']; [discriminate|].
    destruct ((c =? ch ">")%N && forallb xml_char body); [|discriminate].
    intros H. injection H as <- <-. simpl in *. lia. }
  destruct (startswith (py "![CDATA[") s).
  { destruct (until (py "]]>") (skipn 8 s)) as [[body r0]|] eqn:Hu; [|discriminate].
    apply until_length in Hu. rewrite length_skipn in Hu.
    destruct (forallb xml_char body); [|discriminate].
    intros H. injection H as <- <-. lia. }
  destruct s as [|c s']; [discriminate|].
  destruct (c =? ch "?")%N.
  { destruct (ncname s') as [[target r0]|] eqn:Hn; [|discriminate].
    apply ncname_length in Hn.
    destruct (is_xml target); [discriminate|].
    destruct (until (py "?>") r0) as [[body r']|] eqn:Hu; [|discriminate].
    apply until_length in Hu.
    destruct body as [|b body'].
    - intros H. injection H as <- <-. simpl. lia.
    - destruct (xml_space b && forallb xml_char (b :: body')); [|discriminate].
      intros H. injection H as <- <-. simpl. lia. }
  destruct (c =? ch "/")%N.
  { destruct (scan_qname s') as [[n r0]|] eqn:Hq; [|discriminate].
    apply scan_qname_length in Hq.
    pose proof (span_length xml_space r0) as L.
    destruct (snd (span xml_space r0)) as [|e r']; [discriminate|].
    destruct (e =? ch ">")%N; [|discriminate].
    intros H. injection H as <- <-. simpl in *. lia. }
  destruct (scan_qname (c :: s')) as [[n r0]|] eqn:Hq; [|discriminate].
  apply scan_qname_length in Hq.
  destruct (attributes (S (List.length r0)) r0 []) as [[[attrs empty] r']|] eqn:Ha;
    [|discriminate].
  apply attributes_length in Ha.
  intros H. injection H as <- <-. lia.
Qed.

(** More fuel than characters is enough for [tokens]: the fuel
    [fromstring] gives never runs out. *)
Lemma tokens_fuel : forall n m s,
  List.length s < n -> List.length s < m -> tokens n s = tokens m s.
Proof.
  induction n as [|n IH]; intros m s Hn Hm; [lia|].
  destruct m as [|m]; [lia|]. cbn [tokens].
  destruct s as [|c s']; auto. simpl in Hn, Hm.
  destruct (c =? ch "<")%N.
  { destruct (markup s') as [[evs r]|] eqn:Hr; auto.
    apply markup_length in Hr. rewrite (IH m r); auto; lia. }
  destruct (c =? ch "&")%N.
  { destruct (reference s') as [[x r]|] eqn:Hr; auto.
    apply reference_length in Hr. rewrite (IH m r); auto; lia. }
  destruct (startswith (py "]]>") (c :: s')); auto.
  destruct (c =? 13)%N.
  { destruct s' as [|d s'']; [rewrite (IH m []); auto; simpl in *; lia|].
    destruct (N.eqb_spec d 10) as [->|Hd].
    - rewrite (IH m s''); auto; simpl in *; lia.
    - assert (forall (B : Type) (x y : B),
                 match d with 10%N => x | _ => y end = y) as E.
      { intros B x y. destruct d as [|p]; auto.
        do 4 (destruct p; auto). contradiction. }
      rewrite E. rewrite (IH m (d :: s'')); auto; simpl in *; lia. }
  destruct (xml_char c); auto. rewrite (IH m s'); auto; lia.
Qed.

End ETFacts.

(** ** Substitution, and white space inside a tag *)

Lemma sub_go_eq r repl left pos skip s :
  sub_go r repl left pos skip s =
  match skip with
  | S n => match s with
           | [] => []
           | _ :: s' => sub_go r repl left (S pos) n s'
           end
  | O =>
      match (if more left then match_at r pos s else None) with
      | Some m =>
          repl m ++
          match s with
          | [] => []
          | c :: s' =>
              match List.length (fst m) with
              | O => c :: sub_go r repl (less left) (S pos) 0 s'
              | S n => sub_go r repl (less left) (S pos) n s'
              end
          end
      | None =>
          match s with
          | [] => []
          | c :: s' => c :: sub_go r repl left (S pos) 0 s'
          end
      end
  end.
Proof. destruct s, skip; reflexivity. Qed.

Lemma sub_go_skip r repl left : forall m rest pos,
  sub_go r repl left pos (List.length m) (m ++ rest)
  = sub_go r repl left (pos + List.length m) 0 rest.
Proof.
  induction m as [|c m IH]; intros rest pos; simpl List.length.
  - now rewrite Nat.add_0_r.
  - rewrite sub_go_eq. simpl. rewrite IH. now rewrite Nat.add_succ_r.
Qed.

Lemma sub_go_hit r repl left pos m g rest :
  match_at r pos (m ++ rest) = Some (m, g) -> m <> [] -> more left = true ->
  sub_go r repl left pos 0 (m ++ rest)
  = repl (m, g) ++ sub_go r repl (less left) (pos + List.length m) 0 rest.
Proof.
  intros Hm Hne Hl. rewrite sub_go_eq, Hl, Hm.
  destruct m as [|c m]; [contradiction|]. simpl.
  now rewrite sub_go_skip, Nat.add_succ_r.
Qed.

Lemma sub_go_miss r repl left pos c s :
  match_at r pos (c :: s) = None ->
  sub_go r repl left pos 0 (c :: s) = c :: sub_go r repl left (S pos) 0 s.
Proof. intros Hm. rewrite sub_go_eq, Hm. now destruct (more left). Qed.

Lemma sub_go_end r repl left pos :
  match_at r pos [] = None -> sub_go r repl left pos 0 [] = [].
Proof. intros Hm. rewrite sub_go_eq, Hm. now destruct (more left). Qed.

Lemma sub_go_bol r repl left : forall s pos,
  sub_go (Bol >> r) repl left (S pos) 0 s = s.
Proof.
  induction s as [|c s IH]; intros pos.
  - now apply sub_go_end.
  - rewrite sub_go_miss by reflexivity. now rewrite IH.
Qed.

Lemma firstn_exact (m rest : pystr) n :
  n = List.length m -> firstn n (m ++ rest) = m.
Proof.
  intros ->. rewrite <- (Nat.add_0_r (List.length m)), firstn_app_2.
  simpl. apply app_nil_r.
Qed.

Lemma rep_greedy A (p : N -> bool) : forall m rest lo pos (k : nat -> pystr -> option A) x,
  forallb p m = true -> stops p rest -> lo <= List.length m ->
  k (pos + List.length m) rest = Some x ->
  rep p lo None pos (m ++ rest) k = Some x.
Proof.
  induction m as [|c m IH]; intros rest lo pos k x Hall Hstop Hlo Hk; simpl in *.
  - rewrite Nat.add_0_r in Hk. assert (lo = 0) as -> by lia.
    destruct rest as [|c s]; simpl; auto.
    simpl in Hstop. now rewrite Hstop.
  - apply andb_true_iff in Hall as [Hp Hall]. rewrite Hp. simpl.
    rewrite (IH rest (pred lo) (S pos) k x); auto; try lia.
    now rewrite Nat.add_succ_r in Hk.
Qed.

Lemma rep_stops A (p : N -> bool) rest lo hi pos (k : nat -> pystr -> option A) :
  stops p rest -> 1 <= lo -> rep p lo hi pos rest k = None.
Proof.
  intros Hs Hlo. destruct lo; [lia|].
  destruct rest as [|c s]; simpl; auto. simpl in Hs. now rewrite Hs.
Qed.

Lemma isspace_not c d : isspace d = false -> isspace c = true -> (c =? d)%N = false.
Proof.
  intros Hd Hc. apply N.eqb_neq. intros ->. congruence.
Qed.

Lemma spaces_not_char ws d :
  isspace d = false -> forallb isspace ws = true -> forallb (not_char d) ws = true.
Proof.
  intros Hd H. rewrite forallb_forall in *. intros x Hx.
  unfold not_char. now rewrite (@isspace_not x d Hd (H x Hx)).
Qed.

(** [re.sub(r'^<\s+', '<', tag)] *)
Lemma sub_open_ws ws rest :
  forallb isspace ws = true -> stops isspace rest ->
  sub open_ws_re (fun _ => py "<") (py "<" ++ ws ++ rest) 0 = py "<" ++ rest.
Proof.
  intros Hws Hrest. unfold sub, open_ws_re. pylit.
  destruct ws as [|w ws].
  - simpl app. rewrite sub_go_miss.
    + now rewrite sub_go_bol.
    + unfold match_at. cbn [rmatch plus]. cbn [N.eqb Pos.eqb].
      now apply rep_stops.
  - change ([60%N] ++ (w :: ws) ++ rest) with ((60%N :: w :: ws) ++ rest).
    rewrite (@sub_go_hit _ _ _ _ _ [] rest); [| |discriminate|reflexivity].
    + cbn [Nat.add List.length]. now rewrite sub_go_bol.
    + unfold match_at. cbn [rmatch plus app]. cbn [N.eqb Pos.eqb].
      change (w :: ws ++ rest) with ((w :: ws) ++ rest).
      erewrite rep_greedy; [reflexivity|assumption|assumption|simpl; lia|].
      cbn beta. do 2 f_equal.
      apply (firstn_exact (60%N :: w :: ws) rest). simpl. lia.
Qed.

(** [re.sub(r'^</\s+', '</', tag)] *)
Lemma sub_close_ws ws rest :
  forallb isspace ws = true -> stops isspace rest ->
  sub close_ws_re (fun _ => py "</") (py "</" ++ ws ++ rest) 0 = py "</" ++ rest.
Proof.
  intros Hws Hrest. unfold sub, close_ws_re. pylit.
  destruct ws as [|w ws].
  - simpl app. rewrite sub_go_miss.
    + now rewrite sub_go_bol.
    + unfold match_at. cbn [rmatch plus]. cbn [N.eqb Pos.eqb].
      now apply rep_stops.
  - change ([60%N; 47%N] ++ (w :: ws) ++ rest) with ((60%N :: 47%N :: w :: ws) ++ rest).
    rewrite (@sub_go_hit _ _ _ _ _ [] rest); [| |discriminate|reflexivity].
    + cbn [Nat.add List.length]. now rewrite sub_go_bol.
    + unfold match_at. cbn [rmatch plus app]. cbn [N.eqb Pos.eqb].
      change (w :: ws ++ rest) with ((w :: ws) ++ rest).
      erewrite rep_greedy; [reflexivity|assumption|assumption|simpl; lia|].
      cbn beta. do 2 f_equal.
      apply (firstn_exact (60%N :: 47%N :: w :: ws) rest). simpl. lia.
Qed.

(** A pattern anchored at the start that does not match there changes
    nothing. *)
Lemma sub_bol_miss r repl s :
  match_at (Bol >> r) 0 s = None -> sub (Bol >> r) repl s 0 = s.
Proof.
  intros H. unfold sub. destruct s as [|c s].
  - now apply sub_go_end.
  - rewrite sub_go_miss by assumption. now rewrite sub_go_bol.
Qed.

(** [re.sub(r'\s+>$', '>', tag)] *)
Lemma sub_end_ws ws : forall pre pos,
  forallb not_space pre = true -> forallb isspace ws = true ->
  sub_go end_ws_re (fun _ => py ">") None pos 0 (pre ++ ws ++ py ">")
  = pre ++ py ">".
Proof.
  intros pre pos Hpre Hws. revert pos. pylit.
  induction pre as [|c pre IH]; intros pos.
  - simpl app. destruct ws as [|w ws].
    + simpl app. rewrite sub_go_miss by reflexivity.
      now rewrite sub_go_end by reflexivity.
    + rewrite <- (app_nil_r ((w :: ws) ++ [62%N])).
      rewrite (@sub_go_hit _ _ _ _ _ [] []); [| |discriminate|reflexivity].
      * now rewrite sub_go_end by reflexivity.
      * unfold match_at, end_ws_re. pylit. cbn [rmatch plus]. rewrite app_nil_r.
        erewrite rep_greedy; [reflexivity|eassumption|exact eq_refl|simpl; lia|].
        cbn [rmatch N.eqb Pos.eqb]. do 2 f_equal.
        rewrite <- (app_nil_r ((w :: ws) ++ [62%N])) at 1.
        apply firstn_exact. rewrite length_app. cbn [List.length]. lia.
  - simpl in Hpre. apply andb_true_iff in Hpre as [Hc Hpre].
    simpl app. rewrite sub_go_miss.
    + now rewrite IH.
    + unfold match_at, end_ws_re. pylit. cbn [rmatch plus].
      apply rep_stops; [|lia]. unfold not_space in Hc.
      now apply negb_true_iff in Hc.
Qed.

(** [fix_tag] on the opening tag and on the closing tag of [speak], with
    white space after [<] or [</] and before [>]. *)
Lemma fix_tag_open ws1 ws2 g :
  forallb isspace ws1 = true -> forallb isspace ws2 = true ->
  fix_tag (py "<" ++ ws1 ++ py "speak" ++ ws2 ++ py ">", g) = py "<speak>".
Proof.
  intros H1 H2. unfold fix_tag. cbn [fst].
  rewrite sub_open_ws by (auto; reflexivity).
  unfold close_ws_re. rewrite sub_bol_miss by reflexivity.
  unfold sub at 2.
  change (py "<" ++ py "speak" ++ ws2 ++ py ">") with (py "<speak" ++ ws2 ++ py ">").
  rewrite sub_end_ws by (auto; reflexivity).
  vm_compute. reflexivity.
Qed.

Lemma fix_tag_close ws3 ws4 g :
  forallb isspace ws3 = true -> forallb isspace ws4 = true ->
  fix_tag (py "</" ++ ws3 ++ py "speak" ++ ws4 ++ py ">", g) = py "</speak>".
Proof.
  intros H1 H2. unfold fix_tag. cbn [fst].
  unfold open_ws_re. rewrite sub_bol_miss by reflexivity.
  rewrite sub_close_ws by (auto; reflexivity).
  unfold sub at 2.
  change (py "</" ++ py "speak" ++ ws4 ++ py ">") with (py "</speak" ++ ws4 ++ py ">").
  rewrite sub_end_ws by (auto; reflexivity).
  vm_compute. reflexivity.
Qed.

(** [r'<[^>]+>'] matches a whole tag. *)
Lemma match_tag m rest pos :
  forallb (not_char (ch ">")) m = true -> m <> [] ->
  match_at tag_re pos (py "<" ++ m ++ py ">" ++ rest)
  = Some (py "<" ++ m ++ py ">", []).
Proof.
  intros Hm Hne. unfold match_at, tag_re. pylit. cbn [rmatch plus app].
  cbn [N.eqb Pos.eqb].
  erewrite rep_greedy; [reflexivity|eassumption|exact eq_refl| |].
  - destruct m; [contradiction|simpl; lia].
  - cbn [rmatch N.eqb Pos.eqb]. do 2 f_equal.
    change (60%N :: m ++ 62%N :: rest) with ((60%N :: m) ++ 62%N :: rest).
    replace ((60%N :: m) ++ 62%N :: rest) with (((60%N :: m) ++ [62%N]) ++ rest)
      by now rewrite <- app_assoc.
    apply firstn_exact. cbn [List.length]. rewrite length_app.
    cbn [List.length]. lia.
Qed.

Lemma sub_tag (repl : pystr * groups -> pystr) m rest pos :
  forallb (not_char (ch ">")) m = true -> m <> [] ->
  sub_go tag_re repl None pos 0 (py "<" ++ m ++ py ">" ++ rest)
  = repl (py "<" ++ m ++ py ">", [])
    ++ sub_go tag_re repl None (pos + S (S (List.length m))) 0 rest.
Proof.
  intros Hm Hne.
  replace (py "<" ++ m ++ py ">" ++ rest) with ((py "<" ++ m ++ py ">") ++ rest)
    by now rewrite <- !app_assoc.
  rewrite (@sub_go_hit _ _ _ _ _ [] rest).
  - do 3 f_equal. rewrite !length_app. simpl. lia.
  - rewrite <- match_tag with (rest := rest) (pos := pos) by assumption.
    now rewrite <- !app_assoc.
  - discriminate.
  - reflexivity.
Qed.

Lemma normalize_padded_speak ws1 ws2 ws3 ws4 :
  forallb isspace ws1 = true -> forallb isspace ws2 = true ->
  forallb isspace ws3 = true -> forallb isspace ws4 = true ->
  _normalize_tag_whitespace
    (py "<" ++ ws1 ++ py "speak" ++ ws2 ++ py "></" ++ ws3 ++ py "speak"
     ++ ws4 ++ py ">")
  = py "<speak></speak>".
Proof.
  intros H1 H2 H3 H4.
  assert (Hgt : forall ws, forallb isspace ws = true ->
                           forallb (not_char (ch ">")) ws = true)
    by (intros ws; now apply spaces_not_char).
  unfold _normalize_tag_whitespace, sub.
  replace (py "<" ++ ws1 ++ py "speak" ++ ws2 ++ py "></" ++ ws3 ++ py "speak"
           ++ ws4 ++ py ">")
    with (py "<" ++ (ws1 ++ py "speak" ++ ws2) ++ py ">"
          ++ (py "<" ++ (py "/" ++ ws3 ++ py "speak" ++ ws4) ++ py ">" ++ []))
    by (rewrite <- !app_assoc; reflexivity).
  rewrite sub_tag.
  2:{ rewrite !forallb_app, (Hgt ws1 H1), (Hgt ws2 H2). reflexivity. }
  2:{ intros H. apply (f_equal (@List.length N)) in H.
      rewrite !length_app in H. simpl in H. lia. }
  rewrite sub_tag.
  2:{ rewrite !forallb_app, (Hgt ws3 H3), (Hgt ws4 H4). reflexivity. }
  2:{ discriminate. }
  rewrite sub_go_end by reflexivity.
  rewrite <- !app_assoc, fix_tag_open by assumption.
  replace (py "<" ++ py "/" ++ ws3 ++ py "speak" ++ ws4 ++ py ">")
    with (py "</" ++ ws3 ++ py "speak" ++ ws4 ++ py ">") by reflexivity.
  rewrite fix_tag_close by assumption. reflexivity.
Qed.

Lemma contains_char_app c a b :
  contains_char c (a ++ b) = contains_char c a || contains_char c b.
Proof. apply existsb_app. Qed.

Lemma spaces_without c ws :
  isspace c = false -> forallb isspace ws = true -> contains_char c ws = false.
Proof.
  intros Hc H. unfold contains_char.
  destruct (existsb (N.eqb c) ws) eqn:Hex; auto.
  apply existsb_exists in Hex as (x & Hx & Heq).
  apply N.eqb_eq in Heq. subst x.
  rewrite forallb_forall in H. rewrite (H c Hx) in Hc. discriminate.
Qed.

(** ** [parseSSML] over any XML parser and any [unescape] *)

Section ParseFacts.
Variable E : Type.
Variable ET_fromstring : pystr -> Element + E.
Variable html_unescape : pystr -> pystr.

Lemma build_is_tag elem :
  build html_unescape elem =
  SSMLTag (tag elem)
          (fold_left (fun attrs kv =>
                        dict_set attrs (replace (fst kv) placeholder (py ":")) (snd kv))
                     (attrib elem) [])
          (text_node html_unescape (text elem) ++
           flat_map (fun child => build html_unescape child
                                  :: text_node html_unescape (tail child))
                    (children elem)).
Proof. destruct elem; reflexivity. Qed.

Lemma text_node_blank t : has_text t = false -> text_node html_unescape t = [].
Proof. intros H. destruct t; [|reflexivity]. unfold text_node. now rewrite H. Qed.

Lemma parseSSML_outcome ssml :
  outcome ET_fromstring html_unescape ssml
          (parseSSML ET_fromstring html_unescape ssml).
Proof.
  unfold parseSSML. fold (single_quote_rule ssml).
  fold (preprocess ssml).
  destruct (single_quote_rule ssml) eqn:Hq; [now apply OSingleQuote|].
  destruct (ET_fromstring (preprocess ssml)) as [root_elem|err] eqn:Hp;
    [|now apply OParseError].
  destruct (has_text (text root_elem)) eqn:Ht;
    [now eapply OTextBefore; eauto|].
  destruct (children root_elem) as [|first_child [|]] eqn:Hc;
    try (eapply OCount; eauto; rewrite Hc; simpl; lia).
  destruct (has_text (tail first_child)) eqn:Hl;
    [now eapply OTextAfter; eauto|].
  rewrite build_is_tag. simpl.
  destruct (pystr_eqb (tag first_child) (py "speak")) eqn:Hn; simpl.
  - rewrite <- build_is_tag. apply pystr_eqb_eq in Hn.
    eapply OReturn; eauto.
  - apply pystr_eqb_neq in Hn. eapply ONotSpeak; eauto.
Qed.

(** C1: an input whose wrapped text parses to a synthetic root with no
    child, with two or more children, with non-blank text before the first
    child, or with one child followed by non-blank text, makes [parseSSML]
    raise an exception; no tree is returned. *)
Theorem parse_rejects_bad_top_level ssml root_elem :
  ET_fromstring (preprocess ssml) = inl root_elem ->
  children root_elem = [] \/
  2 <= List.length (children root_elem) \/
  nonblank (text root_elem) \/
  (exists c, children root_elem = [c] /\ nonblank (tail c)) ->
  exists msg,
    parseSSML ET_fromstring html_unescape ssml = Raise (Exception msg).
Proof.
  intros Hp Hbad.
  pose proof (parseSSML_outcome ssml) as O.
  inversion O as [Hq Hr|err Hq Hp' Hr|r Hq Hp' Ht Hr|r Hq Hp' Ht Hn Hr
                  |r c Hq Hp' Ht Hc Hl Hr|r c Hq Hp' Ht Hc Hl Hn Hr
                  |r c Hq Hp' Ht Hc Hl Hn Hr];
    try (eexists; reflexivity); rewrite Hp in Hp'; try discriminate.
  injection Hp' as <-. exfalso.
  destruct Hbad as [H|[H|[H|(c' & H & H')]]].
  - congruence.
  - rewrite Hc in H. simpl in H. lia.
  - apply has_text_nonblank in H. congruence.
  - rewrite Hc in H. injection H as <-.
    apply has_text_nonblank in H'. congruence.
Qed.

(** C2: when the only top-level element is not named exactly [speak],
    [parseSSML] raises; and a tree it returns is a tag node named [speak]. *)
Theorem parse_root_is_speak ssml :
  (forall root_elem c,
      ET_fromstring (preprocess ssml) = inl root_elem ->
      children root_elem = [c] ->
      tag c <> py "speak" ->
      exists msg,
        parseSSML ET_fromstring html_unescape ssml = Raise (Exception msg))
  /\
  (forall t,
      parseSSML ET_fromstring html_unescape ssml = Return t ->
      exists attrs kids, t = SSMLTag (py "speak") attrs kids).
Proof.
  pose proof (parseSSML_outcome ssml) as O. split.
  - intros root_elem c Hp Hc Hn.
    inversion O as [Hq Hr|err Hq Hp' Hr|r Hq Hp' Ht Hr|r Hq Hp' Ht Hk Hr
                    |r c' Hq Hp' Ht Hc' Hl Hr|r c' Hq Hp' Ht Hc' Hl Hn' Hr
                    |r c' Hq Hp' Ht Hc' Hl Hn' Hr];
      try (eexists; reflexivity); rewrite Hp in Hp'; try discriminate.
    injection Hp' as <-. rewrite Hc in Hc'. injection Hc' as <-. contradiction.
  - intros t Ht.
    inversion O as [Hq Hr|err Hq Hp' Hr|r Hq Hp' Ht' Hr|r Hq Hp' Ht' Hk Hr
                    |r c' Hq Hp' Ht' Hc' Hl Hr|r c' Hq Hp' Ht' Hc' Hl Hn' Hr
                    |r c' Hq Hp' Ht' Hc' Hl Hn' Hr];
      rewrite Ht in Hr; try discriminate.
    injection Hr as <-. rewrite build_is_tag, Hn'. eauto.
Qed.

(** C3: [parseSSML] raises "single-quoted attributes are not allowed"
    exactly when the raw text holds [=], optional white space and a span
    between single quotes; a text without a single quote never meets this
    rule, whatever its double-quoted values. *)
Theorem parse_single_quote_rule ssml :
  (single_quoted_value ssml ->
   parseSSML ET_fromstring html_unescape ssml
   = Raise (Exception (py "single-quoted attributes are not allowed")))
  /\
  (parseSSML ET_fromstring html_unescape ssml
   = Raise (Exception (py "single-quoted attributes are not allowed")) ->
   single_quoted_value ssml)
  /\
  (~ In (ch "'") ssml ->
   parseSSML ET_fromstring html_unescape ssml
   <> Raise (Exception (py "single-quoted attributes are not allowed"))).
Proof.
  assert (Hconv : parseSSML ET_fromstring html_unescape ssml
                  = Raise (Exception (py "single-quoted attributes are not allowed")) ->
                  single_quoted_value ssml).
  { intros H. apply single_quote_rule_spec.
    pose proof (parseSSML_outcome ssml) as O.
    inversion O as [Hq Hr|err Hq Hp' Hr|r Hq Hp' Ht' Hr|r Hq Hp' Ht' Hk Hr
                    |r c' Hq Hp' Ht' Hc' Hl Hr|r c' Hq Hp' Ht' Hc' Hl Hn' Hr
                    |r c' Hq Hp' Ht' Hc' Hl Hn' Hr];
      auto; rewrite H in Hr; try discriminate;
      injection Hr as Hr; vm_compute in Hr; discriminate. }
  split; [|split; auto].
  - intros H. apply single_quote_rule_spec in H.
    unfold parseSSML. fold (single_quote_rule ssml). now rewrite H.
  - intros Hno H. apply Hconv in H as (pre & ws & body & post & -> & _).
    apply Hno. apply in_or_app. right. apply in_or_app. right.
    apply in_or_app. right. now left.
Qed.

(** *** The builder *)

(** An element whose text and whose children's tails are blank is built
    into a tag whose children are the built child elements alone. *)
Lemma build_drops_blanks elem :
  blank (text elem) ->
  (forall c, In c (children elem) -> blank (tail c)) ->
  node_children (build html_unescape elem)
  = map (build html_unescape) (children elem).
Proof.
  intros Ht Hk. rewrite build_is_tag. simpl.
  rewrite text_node_blank by now apply has_text_blank. simpl.
  induction (children elem) as [|c kids IH]; simpl; auto.
  rewrite text_node_blank by (apply has_text_blank, Hk; now left).
  simpl. f_equal. apply IH. intros c' Hc'. apply Hk. now right.
Qed.

Lemma dict_get_set_same d k v : dict_get (dict_set d k v) k = Some v.
Proof.
  induction d as [|[k' v'] d IH]; simpl.
  - now rewrite pystr_eqb_refl.
  - destruct (pystr_eqb k k') eqn:Hk; simpl; rewrite Hk; auto.
Qed.

Lemma dict_get_set_other d k v k' :
  k' <> k -> dict_get (dict_set d k v) k' = dict_get d k'.
Proof.
  intros Hne. induction d as [|[k0 v0] d IH]; simpl.
  - apply pystr_eqb_neq in Hne. now rewrite Hne.
  - destruct (pystr_eqb k k0) eqn:Hk; simpl.
    + apply pystr_eqb_eq in Hk. subst k0.
      apply pystr_eqb_neq in Hne. now rewrite Hne.
    + destruct (pystr_eqb k' k0); auto.
Qed.

Section Renaming.
Variable f : pystr -> pystr.

Lemma renamed_other key : forall l d0,
  (forall k v, In (k, v) l -> f k <> key) ->
  dict_get (renamed f l d0) key = dict_get d0 key.
Proof.
  induction l as [|[k v] l IH]; intros d0 H; simpl; auto.
  unfold renamed in *. simpl. rewrite IH.
  - apply dict_get_set_other. intros ->. eapply H; [now left|reflexivity].
  - intros k' v' Hin. apply (H k' v'). now right.
Qed.

Lemma renamed_get key v : forall l d0,
  (exists k, In (k, v) l /\ f k = key) ->
  (forall k' v', In (k', v') l -> f k' = key -> v' = v) ->
  dict_get (renamed f l d0) key = Some v.
Proof.
  induction l as [|[k1 v1] l IH]; intros d0 (k & Hin & Hk) Hsame.
  - destruct Hin.
  - unfold renamed in *. simpl.
    destruct (existsb (fun kv => pystr_eqb (f (fst kv)) key) l) eqn:Hex.
    + apply existsb_exists in Hex as ([k2 v2] & Hin2 & Hk2).
      simpl in Hk2. apply pystr_eqb_eq in Hk2.
      apply IH.
      * exists k2. split; auto.
        rewrite (Hsame k2 v2) in Hin2; auto. now right.
      * intros k' v' Hin' Hk'. apply (Hsame k' v'); auto. now right.
    + fold (renamed f l (dict_set d0 (f k1) v1)).
      rewrite renamed_other.
      * destruct Hin as [Heq|Hin].
        -- injection Heq as -> ->. rewrite Hk. apply dict_get_set_same.
        -- exfalso.
           assert (existsb (fun kv => pystr_eqb (f (fst kv)) key) l = true).
           { apply existsb_exists. exists (k, v). split; auto.
             simpl. now apply pystr_eqb_eq. }
           congruence.
      * intros k' v' Hin' Hk'.
        assert (existsb (fun kv => pystr_eqb (f (fst kv)) key) l = true).
        { apply existsb_exists. exists (k', v'). split; auto.
          simpl. now apply pystr_eqb_eq. }
        congruence.
Qed.
End Renaming.

(** An attribute of an element is an attribute of the built tag, under
    its key with every placeholder turned back into a colon, when no other
    attribute of the element is restored to the same key. *)
Lemma build_restores_key elem k v :
  In (k, v) (attrib elem) ->
  (forall k' v',
      In (k', v') (attrib elem) ->
      replace k' placeholder (py ":") = replace k placeholder (py ":") ->
      v' = v) ->
  dict_get (node_attributes (build html_unescape elem))
           (replace k placeholder (py ":")) = Some v.
Proof.
  intros Hin Hsame. rewrite build_is_tag. simpl.
  apply (renamed_get (fun k => replace k placeholder (py ":"))); eauto.
Qed.

End ParseFacts.

(** ** The program over the model of the libraries *)

(** C1, at the model: no element, two elements, text before, text after. *)
Lemma parse_rejects_bad_top_level_witness :
  (exists msg, parse html5_excerpt [] = Raise (Exception msg)) /\
  (exists msg, parse html5_excerpt (py "<speak></speak><speak></speak>")
               = Raise (Exception msg)) /\
  (exists msg, parse html5_excerpt (py "hi<speak></speak>")
               = Raise (Exception msg)) /\
  (exists msg, parse html5_excerpt (py "<speak></speak> hi")
               = Raise (Exception msg)).
Proof.
  repeat split.
  - apply (@parse_rejects_bad_top_level unit fromstring_model
             (Html.unescape html5_excerpt) []
             (mkElement (py "root") [] None None [])).
    + vm_compute. reflexivity.
    + left. reflexivity.
  - apply (@parse_rejects_bad_top_level unit fromstring_model
             (Html.unescape html5_excerpt) (py "<speak></speak><speak></speak>")
             (mkElement (py "root") [] None None
                        [mkElement (py "speak") [] None None [];
                         mkElement (py "speak") [] None None []])).
    + vm_compute. reflexivity.
    + right. left. simpl. lia.
  - apply (@parse_rejects_bad_top_level unit fromstring_model
             (Html.unescape html5_excerpt) (py "hi<speak></speak>")
             (mkElement (py "root") [] (Some (py "hi")) None
                        [mkElement (py "speak") [] None None []])).
    + vm_compute. reflexivity.
    + right. right. left. exists (py "hi"), (ch "h").
      split; [reflexivity|split; [now left|reflexivity]].
  - apply (@parse_rejects_bad_top_level unit fromstring_model
             (Html.unescape html5_excerpt) (py "<speak></speak> hi")
             (mkElement (py "root") [] None None
                        [mkElement (py "speak") [] None (Some (py " hi")) []])).
    + vm_compute. reflexivity.
    + right. right. right. eexists. split; [reflexivity|].
      exists (py " hi"), (ch "h").
      split; [reflexivity|split; [right; now left|reflexivity]].
Defined.

(** C2, at the model: [<p>] and [<Speak>] are refused, [<speak>] is
    returned. *)
Lemma parse_root_is_speak_witness :
  (exists msg, parse html5_excerpt (py "<p></p>") = Raise (Exception msg)) /\
  (exists msg, parse html5_excerpt (py "<Speak></Speak>") = Raise (Exception msg)) /\
  (exists attrs kids,
      SSMLTag (py "speak") [] [SSMLText (py "hi")] = SSMLTag (py "speak") attrs kids).
Proof.
  repeat split.
  - apply (proj1 (@parse_root_is_speak unit fromstring_model
                    (Html.unescape html5_excerpt) (py "<p></p>"))
                 (mkElement (py "root") [] None None
                            [mkElement (py "p") [] None None []])
                 (mkElement (py "p") [] None None [])).
    + vm_compute. reflexivity.
    + reflexivity.
    + vm_compute. discriminate.
  - apply (proj1 (@parse_root_is_speak unit fromstring_model
                    (Html.unescape html5_excerpt) (py "<Speak></Speak>"))
                 (mkElement (py "root") [] None None
                            [mkElement (py "Speak") [] None None []])
                 (mkElement (py "Speak") [] None None [])).
    + vm_compute. reflexivity.
    + reflexivity.
    + vm_compute. discriminate.
  - apply (proj2 (@parse_root_is_speak unit fromstring_model
                    (Html.unescape html5_excerpt) (py "<speak>hi</speak>"))).
    vm_compute. reflexivity.
Defined.

(** C3, at the model: a single-quoted value is refused, also after white
    space; the same value in double quotes is read. *)
Lemma parse_single_quote_rule_witness :
  parse html5_excerpt (py "<speak><p a = 'v'>hi</p></speak>")
  = Raise (Exception (py "single-quoted attributes are not allowed")) /\
  parse html5_excerpt (py "<speak><p a = " ++ quoted (py "v") ++ py ">hi</p></speak>")
  <> Raise (Exception (py "single-quoted attributes are not allowed")).
Proof.
  split.
  - apply (proj1 (@parse_single_quote_rule unit fromstring_model
                    (Html.unescape html5_excerpt)
                    (py "<speak><p a = 'v'>hi</p></speak>"))).
    exists (py "<speak><p a "), (py " "), (py "v"), (py ">hi</p></speak>").
    repeat split.
    intros [H|[]]. vm_compute in H. discriminate.
  - apply (proj2 (proj2 (@parse_single_quote_rule unit fromstring_model
                           (Html.unescape html5_excerpt)
                           (py "<speak><p a = " ++ quoted (py "v") ++ py ">hi</p></speak>")))).
    intros H. vm_compute in H.
    repeat (destruct H as [H|H]; [discriminate|]). exact H.
Defined.


(** The events of the wrapped text of [<speak>]: the end tag of [root]
    meets the open [speak]. *)
Example unclosed_speak_events :
  ET.tokens 21 (preprocess (py "<speak>"))
  = Some [ET.EStart (None, py "root") []; ET.EStart (None, py "speak") [];
          ET.EEnd (None, py "root")].
Proof. vm_compute. reflexivity. Qed.

(** C5: white space inside the tag delimiters does not change the result:
    with any white space after [<] and [</] and before [>], the [speak]
    document is parsed to the tree of [<speak></speak>]; so are the two
    texts of the specification, whose trees are equal. *)
Theorem tag_padding_insignificant html5 :
  (forall ws1 ws2 ws3 ws4,
      forallb isspace ws1 = true -> forallb isspace ws2 = true ->
      forallb isspace ws3 = true -> forallb isspace ws4 = true ->
      parse html5 (py "<" ++ ws1 ++ py "speak" ++ ws2 ++ py "></" ++ ws3
                   ++ py "speak" ++ ws4 ++ py ">")
      = Return (SSMLTag (py "speak") [] []))
  /\
  (exists t1 t2,
      parse html5 (py "<speak></speak>") = Return t1 /\
      parse html5 (py "<  speak  ></  speak  >") = Return t2 /\
      t1 = t2 /\ ssml_eqb t1 t2 = true).
Proof.
  split.
  - intros ws1 ws2 ws3 ws4 H1 H2 H3 H4. unfold parse, parseSSML.
    assert (contains_char (ch "'")
              (py "<" ++ ws1 ++ py "speak" ++ ws2 ++ py "></" ++ ws3
               ++ py "speak" ++ ws4 ++ py ">") = false) as ->.
    { rewrite !contains_char_app.
      rewrite (@spaces_without (ch "'") ws1 eq_refl H1),
        (@spaces_without (ch "'") ws2 eq_refl H2),
        (@spaces_without (ch "'") ws3 eq_refl H3),
        (@spaces_without (ch "'") ws4 eq_refl H4).
      reflexivity. }
    cbn [andb]. cbv zeta. rewrite normalize_padded_speak by assumption.
    vm_compute. reflexivity.
  - exists (SSMLTag (py "speak") [] []), (SSMLTag (py "speak") [] []).
    repeat split; vm_compute; reflexivity.
Qed.

Lemma tag_padding_insignificant_witness :
  parse html5_excerpt (py "<" ++ py "  " ++ py "speak" ++ py "  " ++ py "></"
                       ++ py "  " ++ py "speak" ++ py "  " ++ py ">")
  = Return (SSMLTag (py "speak") [] []).
Proof.
  apply (proj1 (tag_padding_insignificant html5_excerpt)); reflexivity.
Defined.

(** C6: an attribute written [xml:lang="en-US"] is the key [xml:lang] with
    the value [en-US] in the attributes of its tag, on the top-level
    element and below it: the preprocessor hands it to the XML parser as
    [xml__COLON__lang], and the builder turns the key back. *)
Theorem colon_attribute_preserved :
  (forall (html_unescape : pystr -> pystr) elem v,
      In (py "xml__COLON__lang", v) (attrib elem) ->
      (forall k' v',
          In (k', v') (attrib elem) ->
          replace k' placeholder (py ":") = py "xml:lang" -> v' = v) ->
      dict_get (node_attributes (build html_unescape elem)) (py "xml:lang")
      = Some v)
  /\
  escape_colons (py "<speak xml:lang=" ++ quoted (py "en-US") ++ py "></speak>")
  = py "<speak xml__COLON__lang=" ++ quoted (py "en-US") ++ py "></speak>"
  /\
  (forall html5,
      parse html5 (py "<speak xml:lang=" ++ quoted (py "en-US") ++ py "></speak>")
      = Return (SSMLTag (py "speak") [(py "xml:lang", py "en-US")] []))
  /\
  (forall html5,
      parse html5 (py "<speak><voice name=" ++ quoted (py "a") ++ py " xml:lang = "
                   ++ quoted (py "en-US") ++ py ">hi</voice></speak>")
      = Return (SSMLTag (py "speak") []
                  [SSMLTag (py "voice")
                           [(py "name", py "a"); (py "xml:lang", py "en-US")]
                           [SSMLText (py "hi")]]))
  /\
  dict_get [(py "name", py "a"); (py "xml:lang", py "en-US")] (py "xml:lang")
  = Some (py "en-US").
Proof.
  split; [|repeat split; intros; vm_compute; reflexivity].
  intros un elem v Hin Hsame.
  change (py "xml:lang") with (replace (py "xml__COLON__lang") placeholder (py ":")).
  apply build_restores_key; auto.
Qed.

Lemma colon_attribute_preserved_witness :
  dict_get (node_attributes
              (build (Html.unescape html5_excerpt)
                     (mkElement (py "speak") [(py "xml__COLON__lang", py "en-US")]
                                None None [])))
           (py "xml:lang")
  = Some (py "en-US").
Proof.
  apply (proj1 colon_attribute_preserved).
  - left. reflexivity.
  - intros k' v' [H|[]] _. now injection H.
Defined.

(** C7: blank text and blank tails give no text node: the children of the
    built tag are the built child elements only; and the example text is
    parsed to a [speak] whose one child is the [p]. *)
Theorem whitespace_text_dropped :
  (forall (html_unescape : pystr -> pystr) elem,
      blank (text elem) ->
      (forall c, In c (children elem) -> blank (tail c)) ->
      node_children (build html_unescape elem)
      = map (build html_unescape) (children elem) /\
      forallb is_tag (node_children (build html_unescape elem)) = true)
  /\
  (forall html5,
      parse html5 (py "<speak>   <p>hi</p>   </speak>")
      = Return (SSMLTag (py "speak") []
                        [SSMLTag (py "p") [] [SSMLText (py "hi")]])).
Proof.
  split.
  - intros un elem Ht Hk.
    rewrite (build_drops_blanks un elem Ht Hk). split; auto.
    apply forallb_forall. intros n Hn.
    apply in_map_iff in Hn as (c & <- & _). now rewrite build_is_tag.
  - intros html5. vm_compute. reflexivity.
Qed.

Lemma whitespace_text_dropped_witness :
  let elem :=
    mkElement (py "speak") [] (Some (py "   ")) None
              [mkElement (py "p") [] (Some (py "hi")) (Some (py "   ")) []] in
  node_children (build (Html.unescape html5_excerpt) elem)
  = map (build (Html.unescape html5_excerpt)) (children elem) /\
  forallb is_tag (node_children (build (Html.unescape html5_excerpt) elem)) = true.
Proof.
  apply (proj1 whitespace_text_dropped).
  - right. eexists. split; reflexivity.
  - intros c [<-|[]]. right. eexists. split; reflexivity.
Defined.

(** C8: [&amp;] is read as [&], and the serializer writes that [&] as it
    is. *)
Theorem character_reference_decoded html5 :
  parse html5 (py "<speak>a &amp; b</speak>")
  = Return (SSMLTag (py "speak") [] [SSMLText (py "a & b")])
  /\
  ssmlNodeToText (SSMLTag (py "speak") [] [SSMLText (py "a & b")])
  = py "<speak>a & b</speak>".
Proof. split; vm_compute; reflexivity. Qed.

(** C10: a reference escaped twice is decoded twice: the XML parser turns
    [&amp;amp;] into [&amp;], and [html.unescape] turns that into [&]. *)
Theorem double_escape_collapses html5 :
  html5 (py "amp;") = Some (py "&") ->
  ET.fromstring (preprocess (py "<speak>&amp;amp;</speak>"))
  = Some (mkElement (py "root") [] None None
                    [mkElement (py "speak") [] (Some (py "&amp;")) None []])
  /\
  Html.unescape html5 (py "&amp;") = py "&"
  /\
  parse html5 (py "<speak>&amp;amp;</speak>")
  = Return (SSMLTag (py "speak") [] [SSMLText (py "&")]).
Proof.
  intros H. vm_compute in H.
  repeat split; vm_compute; try rewrite H; reflexivity.
Qed.

Lemma double_escape_collapses_witness :
  ET.fromstring (preprocess (py "<speak>&amp;amp;</speak>"))
  = Some (mkElement (py "root") [] None None
                    [mkElement (py "speak") [] (Some (py "&amp;")) None []])
  /\
  Html.unescape html5_excerpt (py "&amp;") = py "&"
  /\
  parse html5_excerpt (py "<speak>&amp;amp;</speak>")
  = Return (SSMLTag (py "speak") [] [SSMLText (py "&")]).
Proof. apply (double_escape_collapses html5_excerpt). reflexivity. Defined.

(** ** The serializer *)

Lemma SSMLNode_induction (P : SSMLNode -> Prop) :
  (forall s, P (SSMLText s)) ->
  (forall name attrs kids, Forall P kids -> P (SSMLTag name attrs kids)) ->
  forall node, P node.
Proof.
  intros Htext Htag. fix IH 1. intros [s|name attrs kids].
  - apply Htext.
  - apply Htag. induction kids as [|k kids IHk]; constructor; auto.
Qed.

Lemma attrs_section (attrs : dict) :
  match attrs with
  | [] => []
  | _ :: _ => py " " ++ join (py " ") (map attr_part attrs)
  end
  = flat_map (fun kv => py " " ++ fst kv ++ py "=" ++ [dquote] ++ snd kv ++ [dquote])
             attrs.
Proof.
  destruct attrs as [|kv attrs]; auto.
  revert kv. induction attrs as [|kv' attrs IH]; intros kv.
  - simpl. now rewrite app_nil_r.
  - specialize (IH kv').
    change (join (py " ") (map attr_part (kv :: kv' :: attrs)))
      with (attr_part kv ++ py " " ++ join (py " ") (map attr_part (kv' :: attrs))).
    rewrite IH. unfold attr_part, quoted. simpl. now rewrite <- !app_assoc.
Qed.

(** C9: [ssmlNodeToText] writes a text node as its string, a tag without
    attributes as [<name>], its children and [</name>], and every tree as
    the specification words it; values and text are not escaped. *)
Theorem serializer_renders_tree :
  (forall s, ssmlNodeToText (SSMLText s) = s)
  /\
  (forall name kids,
      ssmlNodeToText (SSMLTag name [] kids)
      = py "<" ++ name ++ py ">" ++ List.concat (map ssmlNodeToText kids)
        ++ py "</" ++ name ++ py ">")
  /\
  (forall node, ssmlNodeToText node = serialize_spec node)
  /\
  ssmlNodeToText
    (SSMLTag (py "p") [(py "b", py "1"); (py "a", py "x" ++ [dquote] ++ py "<&")]
             [SSMLText (py "<&>"); SSMLTag (py "q") [] []])
  = py "<p b=" ++ quoted (py "1") ++ py " a=" ++ quoted (py "x" ++ [dquote] ++ py "<&")
    ++ py "><&><q></q></p>".
Proof.
  repeat split.
  - induction node as [s|name attrs kids IH] using SSMLNode_induction; auto.
    cbn [ssmlNodeToText serialize_spec]. rewrite attrs_section.
    do 4 f_equal. rewrite flat_map_concat_map. f_equal.
    induction IH as [|k kids Hk _ IHk]; simpl; congruence.
Qed.

(** * More of the code

    [SSMLText.__eq__] and [SSMLTag.__eq__], [fix_tag] and
    [_normalize_tag_whitespace] on any text, the colon placeholder on any
    name, what [build] keeps of an element, [parseSSML] on plain text, and
    the way from a tree to its text and back. *)

(** ** Attribute mappings and equality *)

Lemma Element_induction (P : Element -> Prop) :
  (forall tag attrib text tail kids,
      Forall P kids -> P (mkElement tag attrib text tail kids)) ->
  forall e, P e.
Proof.
  intros H. fix IH 1. intros [t a x y kids]. apply H.
  induction kids as [|k kids IHk]; constructor; auto.
Qed.

Lemma dict_keys_set d k v :
  dict_keys (dict_set d k v)
  = if existsb (pystr_eqb k) (dict_keys d) then dict_keys d else dict_keys d ++ [k].
Proof.
  induction d as [|[k' v'] d IH]; simpl; auto.
  destruct (pystr_eqb k k') eqn:Hk; simpl; auto.
  unfold dict_keys in *. rewrite IH.
  now destruct (existsb (pystr_eqb k) (map fst d)).
Qed.

Lemma existsb_pystr_eqb k l : existsb (pystr_eqb k) l = true <-> In k l.
Proof.
  rewrite existsb_exists. split.
  - intros (x & Hx & E). apply pystr_eqb_eq in E. now subst.
  - intros H. exists k. split; auto. apply pystr_eqb_refl.
Qed.

Lemma dict_set_nodup d k v :
  NoDup (dict_keys d) -> NoDup (dict_keys (dict_set d k v)).
Proof.
  intros H. rewrite dict_keys_set.
  destruct (existsb (pystr_eqb k) (dict_keys d)) eqn:E; auto.
  apply NoDup_app; auto.
  - constructor; [intros []|constructor].
  - intros x Hx [<-|[]]. apply existsb_pystr_eqb in Hx. congruence.
Qed.

Lemma renamed_nodup f : forall l d0,
  NoDup (dict_keys d0) -> NoDup (dict_keys (renamed f l d0)).
Proof.
  induction l as [|[k v] l IH]; intros d0 H; simpl; auto.
  apply IH. now apply dict_set_nodup.
Qed.

Lemma dict_set_fresh d k v :
  ~ In k (dict_keys d) -> dict_set d k v = d ++ [(k, v)].
Proof.
  induction d as [|[k' v'] d IH]; intros H; simpl in *; auto.
  destruct (pystr_eqb k k') eqn:E.
  - apply pystr_eqb_eq in E. subst. tauto.
  - rewrite IH; auto.
Qed.

Lemma renamed_fresh f : forall l d0,
  NoDup (dict_keys d0 ++ map (fun kv => f (fst kv)) l) ->
  renamed f l d0 = d0 ++ map (fun kv => (f (fst kv), snd kv)) l.
Proof.
  induction l as [|[k v] l IH]; intros d0 H; simpl.
  - now rewrite app_nil_r.
  - simpl in H. unfold renamed in *. simpl.
    rewrite dict_set_fresh.
    + rewrite IH.
      * now rewrite <- app_assoc.
      * unfold dict_keys. rewrite map_app. simpl. now rewrite <- app_assoc.
    + intros Hin. apply NoDup_remove_2 in H. apply H.
      apply in_or_app. now left.
Qed.

Lemma dict_get_in d k v :
  NoDup (dict_keys d) -> In (k, v) d -> dict_get d k = Some v.
Proof.
  induction d as [|[k' v'] d IH]; intros Hn Hin; [destruct Hin|].
  simpl in *. inversion Hn as [|? ? Hnot Hn']; subst.
  destruct Hin as [E|Hin].
  - injection E as -> ->. now rewrite pystr_eqb_refl.
  - destruct (pystr_eqb k k') eqn:Hk; auto.
    apply pystr_eqb_eq in Hk. subst. exfalso. apply Hnot.
    unfold dict_keys. now apply (in_map fst) in Hin.
Qed.

Lemma dict_get_some d k v : dict_get d k = Some v -> In (k, v) d.
Proof.
  induction d as [|[k' v'] d IH]; simpl; [discriminate|].
  destruct (pystr_eqb k k') eqn:Hk; auto.
  apply pystr_eqb_eq in Hk. intros H. injection H as ->. subst. now left.
Qed.

Lemma dict_eqb_spec a b :
  NoDup (dict_keys a) -> NoDup (dict_keys b) ->
  (dict_eqb a b = true <->
   List.length a = List.length b /\ incl a b).
Proof.
  intros Ha Hb. unfold dict_eqb.
  rewrite andb_true_iff, Nat.eqb_eq, forallb_forall. split.
  - intros [Hl H]. split; auto. intros [k v] Hin. specialize (H _ Hin). simpl in H.
    destruct (dict_get b k) as [v'|] eqn:E; [|discriminate].
    apply pystr_eqb_eq in H. subst. now apply dict_get_some.
  - intros [Hl H]. split; auto. intros [k v] Hin. simpl.
    rewrite (@dict_get_in b k v Hb (H _ Hin)). apply pystr_eqb_refl.
Qed.

Lemma nodup_keys_pairs (d : dict) : NoDup (dict_keys d) -> NoDup d.
Proof. apply NoDup_map_inv. Qed.

Lemma dict_eqb_refl a : NoDup (dict_keys a) -> dict_eqb a a = true.
Proof. intros H. apply dict_eqb_spec; auto. split; auto. apply incl_refl. Qed.

Lemma dict_eqb_sym a b :
  NoDup (dict_keys a) -> NoDup (dict_keys b) ->
  dict_eqb a b = true -> dict_eqb b a = true.
Proof.
  intros Ha Hb H. apply dict_eqb_spec in H as [Hl Hi]; auto.
  apply dict_eqb_spec; auto. split; auto.
  apply NoDup_length_incl; auto; [now apply nodup_keys_pairs|lia].
Qed.

Lemma dict_eqb_perm a b :
  NoDup (dict_keys a) -> Permutation a b -> dict_eqb a b = true.
Proof.
  intros Ha Hp.
  assert (NoDup (dict_keys b)) as Hb.
  { eapply Permutation_NoDup; [|exact Ha]. unfold dict_keys. now apply Permutation_map. }
  apply dict_eqb_spec; auto. split.
  - now apply Permutation_length.
  - intros x Hx. eapply Permutation_in; eauto.
Qed.

Lemma ssml_eqb_tag n1 a1 c1 n2 a2 c2 :
  ssml_eqb (SSMLTag n1 a1 c1) (SSMLTag n2 a2 c2)
  = pystr_eqb n1 n2 && dict_eqb a1 a2 && list_eqb ssml_eqb c1 c2.
Proof.
  simpl. f_equal. revert c2.
  induction c1 as [|x c1 IH]; intros [|y c2]; simpl; auto. now rewrite IH.
Qed.

Lemma ssml_eqb_refl t : well_keyed t -> ssml_eqb t t = true.
Proof.
  induction t as [s|name attrs kids IH] using SSMLNode_induction; intros H.
  - simpl. apply pystr_eqb_refl.
  - inversion H as [|? ? ? Hn Hk]; subst.
    rewrite ssml_eqb_tag, pystr_eqb_refl, dict_eqb_refl by assumption. simpl.
    clear H Hn. revert Hk.
    induction IH as [|k kids Hrefl _ IHk]; intros Hk; simpl; auto.
    inversion Hk as [|? ? Hw Hws]; subst.
    rewrite Hrefl by assumption. simpl. now apply IHk.
Qed.

Lemma pystr_eqb_sym a b : pystr_eqb a b = pystr_eqb b a.
Proof.
  destruct (pystr_eqb a b) eqn:E.
  - apply pystr_eqb_eq in E. subst. symmetry. apply pystr_eqb_refl.
  - destruct (pystr_eqb b a) eqn:E'; auto.
    apply pystr_eqb_eq in E'. subst. now rewrite pystr_eqb_refl in E.
Qed.

Lemma ssml_eqb_sym a : forall b,
  well_keyed a -> well_keyed b -> ssml_eqb a b = true -> ssml_eqb b a = true.
Proof.
  induction a as [s|name attrs kids IH] using SSMLNode_induction;
    intros [s'|name' attrs' kids'] Ha Hb H; try discriminate.
  - simpl in *. now rewrite pystr_eqb_sym.
  - rewrite ssml_eqb_tag in *.
    apply andb_true_iff in H as [H Hk]. apply andb_true_iff in H as [Hn Hd].
    inversion Ha as [|? ? ? Hna Hka]; inversion Hb as [|? ? ? Hnb Hkb]; subst.
    rewrite pystr_eqb_sym, Hn, (@dict_eqb_sym _ _ Hna Hnb Hd). simpl.
    clear Hn Hd Ha Hb Hna Hnb. revert kids' Hka Hkb Hk.
    induction IH as [|k kids Hsym _ IHk]; intros [|k' kids'] Hka Hkb Hk;
      simpl in *; auto; try discriminate.
    apply andb_true_iff in Hk as [H1 H2].
    inversion Hka as [|? ? Hw Hws]; inversion Hkb as [|? ? Hw' Hws']; subst.
    rewrite (Hsym k'), (IHk kids'); auto.
Qed.

(** ** What [build] makes of an element *)

Section BuildFacts.
Variable html_unescape : pystr -> pystr.

Lemma text_node_texts t :
  Forall (fun n => is_tag n = false) (text_node html_unescape t).
Proof.
  unfold text_node. destruct t as [s|]; [destruct (has_text (Some s))|];
    repeat constructor.
Qed.

Lemma build_attrs elem :
  node_attributes (build html_unescape elem) = renamed restore (attrib elem) [].
Proof. now rewrite build_is_tag. Qed.

Lemma build_kids elem :
  node_children (build html_unescape elem)
  = text_node html_unescape (text elem)
    ++ flat_map (fun child => build html_unescape child
                              :: text_node html_unescape (tail child))
                (children elem).
Proof. now rewrite build_is_tag. Qed.

Lemma build_well_keyed elem : well_keyed (build html_unescape elem).
Proof.
  induction elem as [t a x y kids IH] using Element_induction.
  rewrite build_is_tag. constructor.
  - apply renamed_nodup. constructor.
  - apply Forall_app. split.
    + cbn [text]. unfold text_node.
      destruct x as [s|]; [destruct (has_text (Some s))|]; repeat constructor.
    + cbn [children]. induction IH as [|k kids Hk _ IHk]; simpl; auto.
      constructor; auto. apply Forall_app. split; auto.
      unfold text_node.
      destruct (tail k) as [s|]; [destruct (has_text (Some s))|];
        repeat constructor.
Qed.

Lemma filter_texts l :
  Forall (fun n => is_tag n = false) l -> filter is_tag l = [].
Proof.
  induction 1 as [|n l Hn _ IH]; simpl; auto. now rewrite Hn.
Qed.

Lemma build_tagged elem : is_tag (build html_unescape elem) = true.
Proof. now rewrite build_is_tag. Qed.

(** X10: the tag nodes under a built tag are the built child elements, in
    the order of the element: no element is lost, added or moved. *)
Theorem build_keeps_elements elem :
  filter is_tag (node_children (build html_unescape elem))
  = map (build html_unescape) (children elem).
Proof.
  rewrite build_kids, filter_app, (@filter_texts _ (text_node_texts _)). simpl.
  induction (children elem) as [|c kids IH]; auto.
  cbn [flat_map map app filter]. rewrite build_tagged.
  rewrite filter_app, (@filter_texts _ (text_node_texts _)).
  cbn [app]. now rewrite <- IH.
Qed.

Lemma text_node_origin t n :
  In n (text_node html_unescape t) ->
  exists s, t = Some s /\ nonblank t /\ n = SSMLText (html_unescape s).
Proof.
  unfold text_node. destruct t as [s|]; [|intros []].
  destruct (has_text (Some s)) eqn:H; [|intros []].
  intros [<-|[]]. exists s. repeat split. now apply has_text_nonblank.
Qed.

End BuildFacts.

(** ** The matcher at any offset *)

Section Shift.
Variable A : Type.

Lemma rep_ext (p : N -> bool) : forall s lo hi pos (k1 k2 : nat -> pystr -> option A),
  (forall pos' s', k1 pos' s' = k2 pos' s') ->
  rep p lo hi pos s k1 = rep p lo hi pos s k2.
Proof.
  induction s as [|c s IH]; intros lo hi pos k1 k2 H; simpl.
  - now rewrite H.
  - rewrite (IH _ _ _ k1 k2 H), H. reflexivity.
Qed.

Lemma rep_shift (p : N -> bool) d : forall s lo hi pos (k : nat -> pystr -> option A),
  rep p lo hi (pos + d) s k = rep p lo hi pos s (fun pos' => k (pos' + d)).
Proof.
  induction s as [|c s IH]; intros lo hi pos k; simpl; auto.
  change (S (pos + d)) with (S pos + d). now rewrite IH.
Qed.

Lemma rmatch_ext : forall r pos s g (k1 k2 : nat -> pystr -> groups -> option A),
  (forall pos' s' g', k1 pos' s' g' = k2 pos' s' g') ->
  rmatch r pos s g k1 = rmatch r pos s g k2.
Proof.
  induction r as [c|p|p lo hi|r1 IH1 r2 IH2|r1 IH1 r2 IH2|i r IH| |];
    intros pos s g k1 k2 H; simpl.
  - destruct s; auto. destruct (c =? n)%N; auto.
  - destruct s; auto. destruct (p n); auto.
  - apply rep_ext. intros. apply H.
  - apply IH1. intros. now apply IH2.
  - now rewrite (IH1 _ _ _ k1 k2 H), (IH2 _ _ _ k1 k2 H).
  - apply IH. intros. apply H.
  - destruct pos; auto.
  - destruct s as [|c [|d s]]; auto. destruct (c =? 10)%N; auto.
Qed.

Lemma rmatch_shift d : forall r pos s g (k : nat -> pystr -> groups -> option A),
  bol_free r = true ->
  rmatch r (pos + d) s g k = rmatch r pos s g (fun pos' => k (pos' + d)).
Proof.
  induction r as [c|p|p lo hi|r1 IH1 r2 IH2|r1 IH1 r2 IH2|i r IH| |];
    intros pos s g k Hb; simpl in *; auto.
  - apply rep_shift.
  - apply andb_true_iff in Hb as [Hb1 Hb2]. rewrite IH1 by assumption.
    apply rmatch_ext. intros. now apply IH2.
  - apply andb_true_iff in Hb as [Hb1 Hb2]. now rewrite IH1, IH2.
  - rewrite IH by assumption. apply rmatch_ext. intros pos' s' g'.
    cbn beta. replace (pos' + d - (pos + d)) with (pos' - pos) by lia.
    reflexivity.
  - discriminate.
Qed.
End Shift.

Lemma match_at_shift r pos s :
  bol_free r = true -> match_at r pos s = match_at r 0 s.
Proof.
  intros Hb. unfold match_at.
  change pos with (0 + pos) at 1. rewrite rmatch_shift by assumption.
  apply rmatch_ext. intros pos' s' g'.
  cbn. replace (pos' + pos - pos) with (pos' - 0) by lia.
  reflexivity.
Qed.

Lemma sub_go_shift r repl : bol_free r = true ->
  forall s left pos pos' skip,
    sub_go r repl left pos skip s = sub_go r repl left pos' skip s.
Proof.
  intros Hb. induction s as [|c s IH]; intros left pos pos' skip.
  - rewrite !(sub_go_eq _ _ _ _ _ []).
    now rewrite (@match_at_shift r pos [] Hb), (@match_at_shift r pos' [] Hb).
  - rewrite !(sub_go_eq _ _ _ _ _ (c :: s)).
    rewrite (@match_at_shift r pos (c :: s) Hb), (@match_at_shift r pos' (c :: s) Hb).
    destruct skip; [|apply IH].
    destruct (if more left then match_at r 0 (c :: s) else None) as [m|].
    + f_equal. destruct (List.length (fst m)); [f_equal|]; apply IH.
    + f_equal. apply IH.
Qed.

(** No match starts in [pre]: it is copied. *)
Lemma sub_go_misses r repl left rest : forall pre pos,
  (forall p1 p2 pos', pre = p1 ++ p2 -> p2 <> [] ->
                      match_at r pos' (p2 ++ rest) = None) ->
  sub_go r repl left pos 0 (pre ++ rest)
  = pre ++ sub_go r repl left (pos + List.length pre) 0 rest.
Proof.
  induction pre as [|c pre IH]; intros pos H.
  - simpl. now rewrite Nat.add_0_r.
  - simpl app. rewrite sub_go_miss.
    + rewrite IH.
      * simpl. now rewrite Nat.add_succ_r.
      * intros p1 p2 pos' E Hne. apply (H (c :: p1) p2); auto. now rewrite E.
    + apply (H [] (c :: pre)); auto. discriminate.
Qed.

(** When the count is used up, the rest is copied. *)
Lemma sub_go_done r repl : forall s pos,
  sub_go r repl (Some 0) pos 0 s = s.
Proof.
  induction s as [|c s IH]; intros pos; rewrite sub_go_eq; simpl; auto.
  now rewrite IH.
Qed.

(** A substitution whose replacements keep the [P] characters of what they
    replace keeps the [P] characters of the text. *)
Lemma sub_go_filter (P : N -> bool) r repl :
  (forall pos s m, match_at r pos s = Some m ->
                   filter P (repl m) = filter P (fst m)) ->
  forall s left pos skip,
    filter P (sub_go r repl left pos skip s) = filter P (skipn skip s).
Proof.
  intros H. induction s as [|c s IH]; intros left pos skip; rewrite sub_go_eq.
  - destruct skip; auto. simpl.
    destruct (if more left then match_at r pos [] else None) as [m|] eqn:E; auto.
    destruct (more left); [|discriminate].
    rewrite app_nil_r, (H _ _ _ E).
    apply match_at_sound in E as (rest & E & _).
    symmetry in E. apply app_eq_nil in E as [-> _]. reflexivity.
  - destruct skip; [|apply IH]. simpl skipn.
    destruct (if more left then match_at r pos (c :: s) else None) as [m|] eqn:E.
    + destruct (more left); [|discriminate].
      rewrite filter_app, (H _ _ _ E).
      apply match_at_sound in E as (rest & E & _).
      destruct (fst m) as [|c' m'] eqn:Em; simpl List.length; cbv iota.
      * simpl. change (filter P (c :: ?x)) with (filter P ([c] ++ x)).
        cbn [filter]. destruct (P c); now rewrite IH.
      * simpl in E. injection E as <- ->.
        rewrite IH, skipn_app, skipn_all, Nat.sub_diag. simpl skipn.
        cbn [app]. change (c :: m' ++ rest) with ((c :: m') ++ rest).
        now rewrite filter_app.
    + cbn [filter]. destruct (P c); now rewrite IH.
Qed.

Lemma sub_filter (P : N -> bool) r repl s count :
  (forall pos s m, match_at r pos s = Some m ->
                   filter P (repl m) = filter P (fst m)) ->
  filter P (sub r repl s count) = filter P s.
Proof. intros H. unfold sub. now rewrite (@sub_go_filter P r repl H). Qed.

(** ** The patterns of [fix_tag] *)

Ltac lang_inv :=
  repeat match goal with
         | L : lang (Cat _ _) _ _ _ |- _ => inv L
         | L : lang (Lit _) _ _ _ |- _ => inv L
         | L : lang (Rep _ _ _) _ _ _ |- _ => inv L
         | L : lang (Grp _ _) _ _ _ |- _ => inv L
         | L : lang Bol _ _ _ |- _ => inv L
         | L : lang Eol _ _ _ |- _ => inv L
         end.

Lemma filter_spaces ws :
  forallb isspace ws = true -> filter not_space ws = [].
Proof.
  induction ws as [|w ws IH]; simpl; auto.
  intros H. apply andb_true_iff in H as [Hw H].
  unfold not_space at 1. rewrite Hw. simpl. auto.
Qed.

Lemma filter_nonspaces s :
  forallb not_space s = true -> filter not_space s = s.
Proof.
  induction s as [|c s IH]; simpl; auto.
  intros H. apply andb_true_iff in H as [Hc H]. rewrite Hc. f_equal. auto.
Qed.

(** What [r'<(/?)(\S+)\s+'] matches, and its groups. *)
Lemma name_ws_match pos s m g :
  match_at name_ws_re pos s = Some (m, g) ->
  exists ws,
    m = py "<" ++ group g 1 ++ group g 2 ++ ws /\
    forallb isspace ws = true /\ ws <> [].
Proof.
  unfold match_at, name_ws_re, opt, plus. cbn [rmatch].
  destruct s as [|c s]; [discriminate|].
  destruct (N.eqb_spec (ch "<") c) as [<-|]; [|discriminate].
  intros H.
  apply rep_sound in H as (m1 & r1 & E1 & _ & _ & _ & H). lazy beta in H.
  apply rep_sound in H as (m2 & r2 & E2 & _ & _ & _ & H). lazy beta in H.
  apply rep_sound in H as (m3 & r3 & E3 & H3 & Hlo & _ & H).
  injection H as Hm Hg. subst m g s r1 r2.
  change (group _ 1) with (firstn (S pos + List.length m1 - S pos)
                                  (m1 ++ m2 ++ m3 ++ r3)).
  change (group _ 2) with (firstn (S pos + List.length m1 + List.length m2
                                   - (S pos + List.length m1)) (m2 ++ m3 ++ r3)).
  exists m3. split; [|split; auto].
  - rewrite (@firstn_exact m2 (m3 ++ r3)) by lia.
    rewrite (@firstn_exact m1 (m2 ++ m3 ++ r3)) by lia.
    rewrite !app_assoc.
    apply (@firstn_exact (py "<" ++ (m1 ++ m2) ++ m3) r3).
    cbn [List.length py map list_ascii_of_string app]. rewrite !length_app.
    destruct pos; lia.
  - intros ->. simpl in Hlo. lia.
Qed.

(** [fix_tag] keeps every character that is not white space. *)
Ltac drop_spaces :=
  rewrite ?filter_app;
  repeat match goal with
         | H : forallb isspace ?w = true |- _ =>
             rewrite (@filter_spaces w H); clear H
         end.

Lemma fix_tag_filter m :
  filter not_space (fix_tag m) = filter not_space (fst m).
Proof.
  unfold fix_tag. rewrite !sub_filter; auto.
  - intros pos s m0 H. apply match_at_sound in H as (rest & _ & L).
    unfold open_ws_re, plus in L. lang_inv. drop_spaces. reflexivity.
  - intros pos s m0 H. apply match_at_sound in H as (rest & _ & L).
    unfold close_ws_re, plus in L. lang_inv. drop_spaces. reflexivity.
  - intros pos s m0 H. apply match_at_sound in H as (rest & _ & L).
    unfold end_ws_re, plus in L. lang_inv. drop_spaces. reflexivity.
  - intros pos s [m0 g] H. apply name_ws_match in H as (ws & -> & Hws & _).
    cbn [fst snd]. drop_spaces. reflexivity.
Qed.

(** X4: [_normalize_tag_whitespace] changes white space only: the
    characters of the text that are not white space are those of the
    result, in the same order. *)
Theorem normalize_keeps_non_space s :
  filter not_space (_normalize_tag_whitespace s) = filter not_space s.
Proof.
  unfold _normalize_tag_whitespace. apply sub_filter.
  intros pos s' m _. apply fix_tag_filter.
Qed.

Lemma tag_re_lang pos m rest :
  lang tag_re pos m rest ->
  exists body, m = py "<" ++ body ++ py ">" /\ body <> [] /\
               forallb (not_char (ch ">")) body = true.
Proof.
  unfold tag_re, plus. intros L. lang_inv.
  match goal with
  | H : forallb _ ?b = true, Hl : 1 <= List.length ?b |- _ =>
      exists b; repeat split; auto; intros ->; simpl in Hl; lia
  end.
Qed.

Lemma tag_re_miss pos s : ~ In (ch "<") s -> match_at tag_re pos s = None.
Proof.
  intros Hno. destruct (match_at tag_re pos s) as [m|] eqn:E; auto.
  apply match_at_sound in E as (rest & E & L).
  apply tag_re_lang in L as (body & Em & _). exfalso. apply Hno.
  rewrite E, Em. now left.
Qed.

Lemma tag_re_bol_free : bol_free tag_re = true.
Proof. reflexivity. Qed.

(** Text before the first [<] is copied. *)
Lemma normalize_prefix pre s :
  ~ In (ch "<") pre ->
  _normalize_tag_whitespace (pre ++ s) = pre ++ _normalize_tag_whitespace s.
Proof.
  intros Hno. unfold _normalize_tag_whitespace, sub.
  rewrite sub_go_misses.
  - f_equal. apply sub_go_shift. reflexivity.
  - intros p1 p2 pos' -> Hne. destruct p2 as [|c p2]; [contradiction|].
    unfold match_at, tag_re. cbn [rmatch app].
    destruct (N.eqb_spec (ch "<") c) as [<-|]; auto.
    exfalso. apply Hno. apply in_or_app. right. now left.
Qed.

Lemma normalize_nil : _normalize_tag_whitespace [] = [].
Proof. reflexivity. Qed.

(** A tag at the start goes through [fix_tag]; what follows is normalized
    on its own. *)
Lemma normalize_tag m rest :
  forallb (not_char (ch ">")) m = true -> m <> [] ->
  _normalize_tag_whitespace (py "<" ++ m ++ py ">" ++ rest)
  = fix_tag (py "<" ++ m ++ py ">", []) ++ _normalize_tag_whitespace rest.
Proof.
  intros Hm Hne. unfold _normalize_tag_whitespace, sub.
  rewrite sub_tag by assumption. f_equal. apply sub_go_shift. reflexivity.
Qed.

Lemma suffix_last (X : pystr) z p1 p2 :
  X ++ [z] = p1 ++ p2 -> p2 <> [] -> exists p2', p2 = p2' ++ [z].
Proof.
  intros E Hne. destruct (exists_last Hne) as (p2' & z' & ->).
  rewrite app_assoc in E. apply app_inj_tail in E as [_ ->]. eauto.
Qed.

Lemma end_ws_lang pos m rest :
  lang end_ws_re pos m rest ->
  exists sp, m = sp ++ py ">" /\ forallb isspace sp = true /\ sp <> [] /\
             (rest = [] \/ rest = [10%N]).
Proof.
  unfold end_ws_re, plus. intros L. lang_inv.
  match goal with
  | H : forallb _ ?b = true, Hl : 1 <= List.length ?b |- _ =>
      exists b; repeat split; auto; intros ->; simpl in Hl; lia
  end.
Qed.

(** [re.sub(r'\s+>$', '>', tag)] on a tag whose last character before the
    white space is not white space. *)
Lemma sub_end_ws_last X z ws :
  isspace z = false -> forallb isspace ws = true ->
  sub end_ws_re (fun _ => py ">") ((X ++ [z]) ++ ws ++ py ">") 0
  = (X ++ [z]) ++ py ">".
Proof.
  intros Hz Hws. unfold sub. rewrite sub_go_misses.
  - f_equal. apply (@sub_end_ws ws [] _ eq_refl Hws).
  - intros p1 p2 pos' E Hne.
    destruct (suffix_last _ _ _ E Hne) as (p2' & ->).
    destruct (match_at end_ws_re pos' ((p2' ++ [z]) ++ ws ++ py ">")) as [m|] eqn:M;
      auto.
    apply match_at_sound in M as (rest & E' & L).
    apply end_ws_lang in L as (sp & Em & Hsp & _ & Hrest).
    rewrite Em in E'. exfalso.
    destruct Hrest as [-> | ->].
    + rewrite app_nil_r, !app_assoc in E'. apply app_inj_tail in E' as [E' _].
      assert (In z sp) as Hin.
      { rewrite <- E'. apply in_or_app. left. apply in_or_app. right. now left. }
      rewrite forallb_forall in Hsp. rewrite (Hsp z Hin) in Hz. discriminate.
    + change (py ">") with [62%N] in E'. rewrite !app_assoc in E'.
      apply app_inj_tail in E' as [_ E']. discriminate.
Qed.

Lemma name_ws_miss pos s :
  forallb not_space s = true -> match_at name_ws_re pos s = None.
Proof.
  intros Hs. destruct (match_at name_ws_re pos s) as [[m g]|] eqn:M; auto.
  pose proof M as M'. apply match_at_sound in M' as (rest & E & _).
  apply name_ws_match in M as (ws & Em & Hws & Hne). exfalso.
  destruct ws as [|w ws]; [contradiction|].
  simpl in Hws. apply andb_true_iff in Hws as [Hw _].
  rewrite forallb_forall in Hs.
  assert (In w s) as Hin.
  { rewrite E. simpl fst. rewrite Em. apply in_or_app. left.
    apply in_or_app. right. apply in_or_app. right. apply in_or_app. right.
    now left. }
  specialize (Hs w Hin). unfold not_space in Hs. rewrite Hw in Hs. discriminate.
Qed.

(** [re.sub(r'<(/?)(\S+)\s+', ..., tag, count=1)] on a tag without white
    space. *)
Lemma sub_name_ws_none repl s count :
  forallb not_space s = true -> sub name_ws_re repl s count = s.
Proof.
  intros Hs. unfold sub. rewrite <- (app_nil_r s) at 1.
  rewrite sub_go_misses.
  - rewrite sub_go_end by reflexivity. apply app_nil_r.
  - intros p1 p2 pos' E _. apply name_ws_miss. rewrite app_nil_r.
    rewrite E, forallb_app in Hs. now apply andb_true_iff in Hs as [_ Hs].
Qed.

Lemma rep_zero A (p : N -> bool) rest hi pos (k : nat -> pystr -> option A) :
  stops p rest -> rep p 0 hi pos rest k = k pos rest.
Proof.
  intros Hs. destruct rest as [|c s]; simpl; auto. simpl in Hs. now rewrite Hs.
Qed.

(** The same on an opening tag with white space after its name. *)
Lemma sub_name_ws_open c nm w ws rest :
  forallb not_space (c :: nm) = true -> c <> ch "/" ->
  forallb isspace (w :: ws) = true -> stops isspace rest ->
  sub name_ws_re
      (fun m => py "<" ++ group (snd m) 1 ++ group (snd m) 2 ++ py " ")
      (py "<" ++ (c :: nm) ++ (w :: ws) ++ rest) 1
  = py "<" ++ (c :: nm) ++ py " " ++ rest.
Proof.
  intros Hnm Hc Hws Hrest. unfold sub.
  replace (py "<" ++ (c :: nm) ++ (w :: ws) ++ rest)
    with ((py "<" ++ (c :: nm) ++ (w :: ws)) ++ rest)
    by now rewrite <- !app_assoc.
  rewrite (@sub_go_hit _ _ _ _ _ [(2, c :: nm); (1, [])] rest).
  - cbn [fst snd group Nat.eqb less pred]. rewrite sub_go_done.
    rewrite <- app_assoc. cbn [app]. now rewrite <- !app_assoc.
  - rewrite <- !app_assoc.
    unfold match_at, name_ws_re, opt, plus. pylit. cbn [rmatch app].
    cbn [N.eqb Pos.eqb].
    rewrite rep_zero
      by (apply N.eqb_neq; intros E; apply Hc; now rewrite <- E).
    change (c :: nm ++ w :: ws ++ rest) with ((c :: nm) ++ (w :: ws) ++ rest).
    erewrite rep_greedy;
      [reflexivity|exact Hnm| |simpl; lia|].
    { simpl. unfold not_space. simpl in Hws.
      apply andb_true_iff in Hws as [-> _]. reflexivity. }
    lazy beta.
    erewrite rep_greedy; [reflexivity|exact Hws|exact Hrest|simpl; lia|].
    lazy beta. f_equal. f_equal.
    + replace (60%N :: (c :: nm) ++ (w :: ws) ++ rest)
        with ((60%N :: c :: nm ++ w :: ws) ++ rest)
        by (simpl; now rewrite <- !app_assoc).
      apply (@firstn_exact (60%N :: c :: nm ++ w :: ws) rest).
      cbn [List.length]. rewrite !length_app. cbn [List.length]. lia.
    + f_equal.
      * f_equal. apply (@firstn_exact (c :: nm) ((w :: ws) ++ rest)). lia.
  - discriminate.
  - reflexivity.
Qed.

Lemma not_space_false c : not_space c = true -> isspace c = false.
Proof. unfold not_space. now destruct (isspace c). Qed.

Lemma nonspace_last (s : pystr) c :
  forallb not_space (c :: s) = true ->
  exists X z, c :: s = X ++ [z] /\ isspace z = false.
Proof.
  intros H. assert (c :: s <> []) as Hne by discriminate.
  destruct (exists_last Hne) as (X & z & E). exists X, z. split; auto.
  rewrite E, forallb_app in H. apply andb_true_iff in H as [_ H].
  simpl in H. apply andb_true_iff in H as [H _]. now apply not_space_false.
Qed.

(** [fix_tag] on an opening tag that is a name: the white space after [<]
    and before [>] goes. *)
Lemma fix_tag_name c nm ws1 ws2 g :
  forallb not_space (c :: nm) = true -> c <> ch "/" ->
  forallb isspace ws1 = true -> forallb isspace ws2 = true ->
  fix_tag (py "<" ++ ws1 ++ (c :: nm) ++ ws2 ++ py ">", g)
  = py "<" ++ (c :: nm) ++ py ">".
Proof.
  intros Hnm Hc H1 H2. unfold fix_tag. cbn [fst].
  assert (isspace c = false) as Hc'.
  { simpl in Hnm. apply andb_true_iff in Hnm as [Hn _]. now apply not_space_false. }
  rewrite sub_open_ws by (auto; exact Hc').
  unfold close_ws_re. rewrite sub_bol_miss.
  2:{ unfold match_at. pylit. cbn [rmatch app]. rewrite N.eqb_refl.
      destruct (N.eqb_spec 47 c) as [E|]; [|reflexivity].
      exfalso. apply Hc. now rewrite <- E. }
  destruct (@nonspace_last nm c Hnm) as (X & z & E & Hz).
  rewrite E.
  replace (py "<" ++ (X ++ [z]) ++ ws2 ++ py ">")
    with (((py "<" ++ X) ++ [z]) ++ ws2 ++ py ">") by now rewrite <- !app_assoc.
  rewrite sub_end_ws_last by assumption.
  rewrite sub_name_ws_none.
  - now rewrite <- !app_assoc.
  - rewrite E in Hnm. rewrite !forallb_app in *.
    apply andb_true_iff in Hnm as [-> ->]. reflexivity.
Qed.

(** [fix_tag] on a closing tag: the white space after [</] and before [>]
    goes. *)
Lemma fix_tag_end_name c nm ws1 ws2 g :
  forallb not_space (c :: nm) = true ->
  forallb isspace ws1 = true -> forallb isspace ws2 = true ->
  fix_tag (py "</" ++ ws1 ++ (c :: nm) ++ ws2 ++ py ">", g)
  = py "</" ++ (c :: nm) ++ py ">".
Proof.
  intros Hnm H1 H2. unfold fix_tag. cbn [fst].
  assert (isspace c = false) as Hc'.
  { simpl in Hnm. apply andb_true_iff in Hnm as [Hn _]. now apply not_space_false. }
  unfold open_ws_re. rewrite sub_bol_miss by reflexivity.
  rewrite sub_close_ws by (auto; exact Hc').
  destruct (@nonspace_last nm c Hnm) as (X & z & E & Hz).
  rewrite E.
  replace (py "</" ++ (X ++ [z]) ++ ws2 ++ py ">")
    with (((py "</" ++ X) ++ [z]) ++ ws2 ++ py ">") by now rewrite <- !app_assoc.
  rewrite sub_end_ws_last by assumption.
  rewrite sub_name_ws_none.
  - now rewrite <- !app_assoc.
  - rewrite E in Hnm. rewrite !forallb_app in *.
    apply andb_true_iff in Hnm as [-> ->]. reflexivity.
Qed.

(** [fix_tag] on an opening tag with attributes: one space is left between
    the name and what follows it. *)
Lemma fix_tag_attributes c nm ws1 w ws2 att z ws3 g :
  forallb not_space (c :: nm) = true -> c <> ch "/" ->
  forallb isspace ws1 = true -> forallb isspace (w :: ws2) = true ->
  stops isspace (att ++ [z]) -> isspace z = false ->
  forallb isspace ws3 = true ->
  fix_tag (py "<" ++ ws1 ++ (c :: nm) ++ (w :: ws2) ++ (att ++ [z]) ++ ws3
           ++ py ">", g)
  = py "<" ++ (c :: nm) ++ py " " ++ (att ++ [z]) ++ py ">".
Proof.
  intros Hnm Hc H1 H2 Hatt Hz H3. unfold fix_tag. cbn [fst].
  assert (isspace c = false) as Hc'.
  { simpl in Hnm. apply andb_true_iff in Hnm as [Hn _]. now apply not_space_false. }
  rewrite sub_open_ws by (auto; exact Hc').
  unfold close_ws_re. rewrite sub_bol_miss.
  2:{ unfold match_at. pylit. cbn [rmatch app]. rewrite N.eqb_refl.
      destruct (N.eqb_spec 47 c) as [E|]; [|reflexivity].
      exfalso. apply Hc. now rewrite <- E. }
  replace (py "<" ++ (c :: nm) ++ (w :: ws2) ++ (att ++ [z]) ++ ws3 ++ py ">")
    with (((py "<" ++ (c :: nm) ++ (w :: ws2) ++ att) ++ [z]) ++ ws3 ++ py ">")
    by now rewrite <- !app_assoc.
  rewrite sub_end_ws_last by assumption.
  replace (((py "<" ++ (c :: nm) ++ (w :: ws2) ++ att) ++ [z]) ++ py ">")
    with (py "<" ++ (c :: nm) ++ (w :: ws2) ++ ((att ++ [z]) ++ py ">"))
    by now rewrite <- !app_assoc.
  assert (stops isspace ((att ++ [z]) ++ py ">")) as Hst
      by (destruct att; simpl in *; auto).
  rewrite sub_name_ws_open by assumption.
  now rewrite <- !app_assoc.
Qed.

(** ** The colon placeholder *)

Lemma colon_lang pos m rest :
  lang attr_colon_pattern pos m rest -> In (ch ":") m.
Proof.
  unfold attr_colon_pattern, plus, star. intros L. lang_inv.
  apply in_or_app. right. now left.
Qed.

Lemma equals_lang pos m rest :
  lang attr_colon_pattern pos m rest -> In (ch "=") m.
Proof.
  unfold attr_colon_pattern, plus, star. intros L. lang_inv.
  rewrite !in_app_iff. simpl. auto 10.
Qed.

(** A text without a character that every match holds has no match: it is
    returned as it is. *)
Lemma escape_without c s :
  (forall pos m rest, lang attr_colon_pattern pos m rest -> In c m) ->
  ~ In c s -> escape_colons s = s.
Proof.
  intros Hc Hno. unfold escape_colons, sub. rewrite <- (app_nil_r s) at 1.
  rewrite sub_go_misses.
  - rewrite sub_go_end by reflexivity. apply app_nil_r.
  - intros p1 p2 pos' E _. rewrite app_nil_r.
    destruct (match_at attr_colon_pattern pos' p2) as [m|] eqn:M; auto.
    apply match_at_sound in M as (rest & E' & L). apply Hc in L.
    exfalso. apply Hno. rewrite E, E'. apply in_or_app. right.
    apply in_or_app. now left.
Qed.

(** Without a colon there is nothing to escape. *)
Lemma escape_no_colon s : ~ In (ch ":") s -> escape_colons s = s.
Proof. apply escape_without. apply colon_lang. Qed.

Lemma space_not_name c : isspace c = true -> attr_name_char c = false.
Proof.
  unfold isspace, attr_name_char. intros H.
  destruct (attr_name_char c) eqn:E; auto. unfold attr_name_char in E.
  repeat rewrite ?orb_true_iff, ?andb_true_iff, ?N.leb_le, ?N.eqb_eq in *.
  lia.
Qed.

(** [name:name=] is found as a whole, with white space before [=]; the
    groups are the two names. *)
Lemma colon_match n1 n2 ws rest pos :
  forallb attr_name_char n1 = true -> n1 <> [] ->
  forallb attr_name_char n2 = true -> n2 <> [] ->
  forallb isspace ws = true ->
  match_at attr_colon_pattern pos (n1 ++ py ":" ++ n2 ++ ws ++ py "=" ++ rest)
  = Some (n1 ++ py ":" ++ n2 ++ ws ++ py "=", [(2, n2); (1, n1)]).
Proof.
  intros H1 Hn1 H2 Hn2 Hws.
  unfold match_at, attr_colon_pattern, plus, star. pylit. cbn [rmatch].
  erewrite rep_greedy; [reflexivity|exact H1|exact eq_refl| |].
  { destruct n1; [contradiction|simpl; lia]. }
  lazy beta. cbn [app]. rewrite N.eqb_refl.
  erewrite rep_greedy; [reflexivity|exact H2| | |].
  { destruct ws as [|w ws]; [reflexivity|]. simpl in *.
    apply andb_true_iff in Hws as [Hw _]. now apply space_not_name. }
  { destruct n2; [contradiction|simpl; lia]. }
  lazy beta.
  erewrite rep_greedy; [reflexivity|exact Hws|exact eq_refl|lia|].
  lazy beta. cbn [app]. rewrite N.eqb_refl. f_equal. f_equal.
  - replace (n1 ++ 58%N :: n2 ++ ws ++ 61%N :: rest)
      with ((n1 ++ [58%N] ++ n2 ++ ws ++ [61%N]) ++ rest)
      by (rewrite <- !app_assoc; reflexivity).
    apply firstn_exact.
    repeat first [rewrite !length_app | progress cbn [List.length]]. lia.
  - f_equal.
    + f_equal. apply (@firstn_exact n2 (ws ++ 61%N :: rest)). lia.
    + f_equal. f_equal. apply (@firstn_exact n1 (58%N :: n2 ++ ws ++ 61%N :: rest)).
      lia.
Qed.

Lemma escape_name n1 n2 ws rest :
  forallb attr_name_char n1 = true -> n1 <> [] ->
  forallb attr_name_char n2 = true -> n2 <> [] ->
  forallb isspace ws = true ->
  escape_colons (n1 ++ py ":" ++ n2 ++ ws ++ py "=" ++ rest)
  = n1 ++ placeholder ++ n2 ++ py "=" ++ escape_colons rest.
Proof.
  intros H1 Hn1 H2 Hn2 Hws. unfold escape_colons, sub.
  replace (n1 ++ py ":" ++ n2 ++ ws ++ py "=" ++ rest)
    with ((n1 ++ py ":" ++ n2 ++ ws ++ py "=") ++ rest)
    by now rewrite <- !app_assoc.
  rewrite (@sub_go_hit _ _ _ _ _ [(2, n2); (1, n1)] rest).
  - cbn [fst snd group Nat.eqb less]. rewrite <- !app_assoc.
    do 4 f_equal. apply sub_go_shift. reflexivity.
  - rewrite <- !app_assoc. now apply colon_match.
  - destruct n1; [contradiction|discriminate].
  - reflexivity.
Qed.

Lemma replace_go_skip old new : forall m rest,
  replace_go old new (List.length m) (m ++ rest) = replace_go old new 0 rest.
Proof.
  induction m as [|c m IH]; intros rest; auto. simpl. apply IH.
Qed.

Lemma replace_go_eq old new skip s :
  replace_go old new skip s =
  match skip with
  | S n => match s with
           | [] => []
           | _ :: s' => replace_go old new n s'
           end
  | O =>
      if startswith old s then
        new ++ match s with
               | [] => []
               | c :: s' =>
                   match List.length old with
                   | O => c :: replace_go old new 0 s'
                   | S n => replace_go old new n s'
                   end
               end
      else match s with
           | [] => []
           | c :: s' => c :: replace_go old new 0 s'
           end
  end.
Proof. destruct s, skip; reflexivity. Qed.

(** A text that begins with a character and has no [C] in third place does
    not begin with the placeholder. *)
Lemma placeholder_third a b c s :
  c <> ch "C" -> startswith placeholder (a :: b :: c :: s) = false.
Proof.
  intros Hc. unfold placeholder. pylit. cbn [startswith].
  replace (67 =? c)%N with false
    by (symmetry; apply N.eqb_neq; intros E; apply Hc; now rewrite <- E).
  now destruct (95 =? a)%N, (95 =? b)%N.
Qed.

Lemma restore_prefix a rest :
  ~ In (ch "C") a ->
  replace (a ++ placeholder ++ rest) placeholder (py ":")
  = a ++ py ":" ++ replace rest placeholder (py ":").
Proof.
  intros Hno. unfold replace.
  induction a as [|c a IH].
  - reflexivity.
  - assert (~ In (ch "C") a) as Hno' by (intros H; apply Hno; now right).
    change ((c :: a) ++ placeholder ++ rest)
      with (c :: (a ++ placeholder ++ rest)) in *.
    rewrite replace_go_eq.
    assert (startswith placeholder (c :: a ++ placeholder ++ rest) = false) as ->.
    { destruct a as [|d [|e a]].
      - apply placeholder_third. discriminate.
      - apply placeholder_third. discriminate.
      - apply placeholder_third. intros ->. apply Hno. right. right. now left. }
    change ((c :: a) ++ py ":" ++ replace_go placeholder (py ":") 0 rest)
      with (c :: (a ++ py ":" ++ replace_go placeholder (py ":") 0 rest)).
    f_equal. now apply IH.
Qed.

Lemma restore_none s : ~ In (ch "C") s -> replace s placeholder (py ":") = s.
Proof.
  intros Hno. unfold replace. induction s as [|c s IH]; auto.
  assert (~ In (ch "C") s) as Hno' by (intros H; apply Hno; now right).
  rewrite replace_go_eq.
  assert (startswith placeholder (c :: s) = false) as ->.
  { destruct s as [|d [|e s]]; try reflexivity.
    - unfold placeholder. pylit. cbn [startswith]. now destruct (95 =? c)%N.
    - unfold placeholder. pylit. cbn [startswith].
      now destruct (95 =? c)%N, (95 =? d)%N.
    - apply placeholder_third. intros ->. apply Hno. right. right. now left. }
  f_equal. now apply IH.
Qed.

Lemma prefix_before c : forall (p a x s : pystr),
  p ++ s = a ++ c :: x -> ~ In c p -> exists k, a = p ++ k.
Proof.
  induction p as [|d p IH]; intros a x s E Hno.
  - now exists a.
  - destruct a as [|e a].
    + simpl in E. injection E as -> _. exfalso. apply Hno. now left.
    + simpl in E. injection E as -> E.
      destruct (IH a x s E) as (k & ->).
      * intros H. apply Hno. now right.
      * now exists k.
Qed.

(** A text without a colon that does not end in a name character is copied:
    no match starts in it. *)
Lemma escape_prefix pre s :
  ~ In (ch ":") pre -> stops attr_name_char (rev pre) ->
  escape_colons (pre ++ s) = pre ++ escape_colons s.
Proof.
  intros Hno Hend. unfold escape_colons, sub.
  rewrite sub_go_misses.
  - f_equal. apply sub_go_shift. reflexivity.
  - intros p1 p2 pos' -> Hne.
    destruct (match_at attr_colon_pattern pos' (p2 ++ s)) as [[m g]|] eqn:M; auto.
    exfalso. apply match_at_sound in M as (rest & E & L).
    unfold attr_colon_pattern, plus, star in L. lang_inv.
    match goal with
    | H : _ = fst (m, g) |- _ => cbn [fst] in H; subst m
    end.
    cbn [fst] in E. rewrite <- app_assoc in E. cbn [app] in E.
    apply prefix_before in E as (k & ->).
    2:{ intros H. apply Hno. apply in_or_app. now right. }
    destruct (exists_last Hne) as (p2' & z & ->).
    rewrite !rev_app_distr in Hend. cbn [rev app] in Hend.
    match goal with
    | H : forallb attr_name_char ((p2' ++ [z]) ++ k) = true |- _ =>
        rewrite !forallb_app in H; cbn [forallb] in H;
        apply andb_true_iff in H as [H _]; apply andb_true_iff in H as [_ H];
        apply andb_true_iff in H as [H _]; congruence
    end.
Qed.

Lemma escape_first_name pre n1 n2 ws rest :
  ~ In (ch ":") pre -> stops attr_name_char (rev pre) ->
  forallb attr_name_char n1 = true -> n1 <> [] ->
  forallb attr_name_char n2 = true -> n2 <> [] ->
  forallb isspace ws = true ->
  escape_colons (pre ++ n1 ++ py ":" ++ n2 ++ ws ++ py "=" ++ rest)
  = pre ++ n1 ++ placeholder ++ n2 ++ py "=" ++ escape_colons rest.
Proof.
  intros Hpre Hend H1 Hn1 H2 Hn2 Hws.
  rewrite escape_prefix by assumption. now rewrite escape_name.
Qed.

(** ** The XML parser on plain text *)

Module ETRun.
Import ET.

Lemma plain_facts c :
  plain c = true ->
  xml_char c = true /\ (c =? ch "<")%N = false /\ (c =? ch "&")%N = false /\
  (c =? ch "'")%N = false /\ (c =? ch ":")%N = false /\
  (c =? ch "]")%N = false /\ (c =? 13)%N = false.
Proof.
  unfold plain. intros H. apply andb_true_iff in H as [Hx H].
  apply negb_true_iff in H. repeat (apply orb_false_iff in H as [H ?]).
  repeat split; auto.
Qed.

(** One plain character is one data event. *)
Lemma tokens_plain c s n :
  plain c = true -> List.length (c :: s) < n ->
  tokens n (c :: s)
  = option_map (cons (EData c true)) (tokens (S (List.length s)) s).
Proof.
  intros Hc Hn. destruct n as [|n]; [lia|].
  destruct (plain_facts c Hc) as (Hx & H1 & H2 & _ & _ & H3 & H4).
  cbn [tokens]. rewrite H1, H2, H4, Hx.
  assert (startswith (py "]]>") (c :: s) = false) as ->.
  { assert ((93 =? c)%N = false) as E by (rewrite N.eqb_sym; exact H3).
    pylit. cbn [startswith]. now rewrite E. }
  rewrite (@ETFacts.tokens_fuel n (S (List.length s)) s); auto.
  simpl in Hn. lia.
Qed.

Lemma tokens_plain_run : forall s rest,
  forallb plain s = true ->
  tokens (S (List.length (s ++ rest))) (s ++ rest)
  = option_map (app (map (fun c => EData c true) s))
               (tokens (S (List.length rest)) rest).
Proof.
  induction s as [|c s IH]; intros rest H.
  - simpl app. now destruct (tokens (S (List.length rest)) rest).
  - simpl in H. apply andb_true_iff in H as [Hc H].
    change ((c :: s) ++ rest) with (c :: (s ++ rest)).
    rewrite tokens_plain by (auto; simpl; lia). rewrite IH by assumption.
    now destruct (tokens (S (List.length rest)) rest).
Qed.

(** Data events inside an open element pile up in the builder. *)
Lemma run_data : forall s b evs,
  stack b <> [] ->
  run b (map (fun c => EData c true) s ++ evs)
  = run (mkBuilder (stack b) (data b ++ s) (in_tail b) (root b)) evs.
Proof.
  induction s as [|c s IH]; intros b evs Hs.
  - simpl. rewrite app_nil_r. now destruct b.
  - cbn [map app run step]. destruct (stack b) as [|f fs] eqn:E; [contradiction|].
    rewrite IH by (simpl; discriminate). simpl. now rewrite <- app_assoc.
Qed.

(** The tags of the wrapped document, one by one. *)
Lemma tokens_tag (tg : pystr) (ev : event) :
  tg <> [] ->
  (forall n r, tokens (S n) (tg ++ r) = option_map (cons ev) (tokens n r)) ->
  forall r, tokens (S (List.length (tg ++ r))) (tg ++ r)
            = option_map (cons ev) (tokens (S (List.length r)) r).
Proof.
  intros Hne H r. rewrite H. destruct tg as [|c tg].
  - contradiction.
  - rewrite (@ETFacts.tokens_fuel (List.length ((c :: tg) ++ r)) (S (List.length r)) r);
      [reflexivity| |lia].
    rewrite length_app. simpl. lia.
Qed.

Lemma tokens_root r :
  tokens (S (List.length (py "<root>" ++ r))) (py "<root>" ++ r)
  = option_map (cons (EStart (None, py "root") []))
               (tokens (S (List.length r)) r).
Proof.
  apply tokens_tag; [discriminate|]. intros n r'. pylit. cbn [app]. cbn [tokens].
  cbn [N.eqb Pos.eqb]. unfold markup at 1. cbn -[tokens].
  now destruct (tokens n r').
Qed.

Lemma tokens_speak r :
  tokens (S (List.length (py "<speak>" ++ r))) (py "<speak>" ++ r)
  = option_map (cons (EStart (None, py "speak") []))
               (tokens (S (List.length r)) r).
Proof.
  apply tokens_tag; [discriminate|]. intros n r'. pylit. cbn [app]. cbn [tokens].
  cbn [N.eqb Pos.eqb]. unfold markup at 1. cbn -[tokens].
  now destruct (tokens n r').
Qed.

Lemma tokens_end_speak r :
  tokens (S (List.length (py "</speak>" ++ r))) (py "</speak>" ++ r)
  = option_map (cons (EEnd (None, py "speak")))
               (tokens (S (List.length r)) r).
Proof.
  apply tokens_tag; [discriminate|]. intros n r'. pylit. cbn [app]. cbn [tokens].
  cbn [N.eqb Pos.eqb]. unfold markup at 1. cbn -[tokens].
  now destruct (tokens n r').
Qed.

(** The events of a [speak] element that holds plain text, with plain text
    around it. *)
Lemma tokens_speak_text t0 t1 t2 :
  forallb plain t0 = true -> forallb plain t1 = true ->
  forallb plain t2 = true ->
  tokens (S (List.length (wrap (t0 ++ py "<speak>" ++ t1 ++ py "</speak>" ++ t2))))
         (wrap (t0 ++ py "<speak>" ++ t1 ++ py "</speak>" ++ t2))
  = Some (EStart (None, py "root") []
          :: map (fun c => EData c true) t0
          ++ EStart (None, py "speak") []
          :: map (fun c => EData c true) t1
          ++ EEnd (None, py "speak")
          :: map (fun c => EData c true) t2
          ++ [EEnd (None, py "root")]).
Proof.
  intros H0 H1 H2. unfold wrap. rewrite <- !app_assoc.
  rewrite tokens_root, tokens_plain_run, tokens_speak, tokens_plain_run,
    tokens_end_speak, tokens_plain_run by assumption.
  reflexivity.
Qed.

Lemma fromstring_speak_text t0 t1 t2 :
  forallb plain t0 = true -> forallb plain t1 = true ->
  forallb plain t2 = true ->
  fromstring (wrap (t0 ++ py "<speak>" ++ t1 ++ py "</speak>" ++ t2))
  = Some (mkElement (py "root") [] (chardata t0) None
            [mkElement (py "speak") [] (chardata t1) (chardata t2) []]).
Proof.
  intros H0 H1 H2. unfold fromstring.
  rewrite tokens_speak_text by assumption.
  cbn [run].
  lazymatch goal with
  | |- context [step ?b (EStart ?n [])] =>
      let v := eval vm_compute in (step b (EStart n [])) in
      change (step b (EStart n [])) with v; cbv iota
  end.
  rewrite run_data by (simpl; discriminate).
  cbn [stack data in_tail root app run].
  destruct t0 as [|c0 t0]; cbn -[run];
    (rewrite run_data by (simpl; discriminate));
    cbn [stack data in_tail root app run];
    (destruct t1 as [|c1 t1]; cbn -[run];
     (rewrite run_data by (simpl; discriminate));
     cbn [stack data in_tail root app run];
     (destruct t2 as [|c2 t2]; reflexivity)).
Qed.
End ETRun.

(** ** [parseSSML] on plain text *)

Lemma plain_without c t :
  plain c = false -> forallb plain t = true -> ~ In c t.
Proof.
  intros Hc H Hin. rewrite forallb_forall in H. rewrite (H c Hin) in Hc.
  discriminate.
Qed.

Lemma contains_char_in c s : contains_char c s = false <-> ~ In c s.
Proof.
  unfold contains_char. split.
  - intros H Hin. assert (existsb (N.eqb c) s = true) as E.
    { apply existsb_exists. exists c. split; auto. apply N.eqb_refl. }
    congruence.
  - intros H. destruct (existsb (N.eqb c) s) eqn:E; auto.
    apply existsb_exists in E as (x & Hx & Heq). apply N.eqb_eq in Heq.
    subst. contradiction.
Qed.

(** A character that is not in three plain texts and not in the [speak]
    tags is not in the document they make. *)
Lemma speak_text_without c t0 t1 t2 :
  plain c = false -> ~ In c (py "<speak></speak>") ->
  forallb plain t0 = true -> forallb plain t1 = true ->
  forallb plain t2 = true ->
  ~ In c (t0 ++ py "<speak>" ++ t1 ++ py "</speak>" ++ t2).
Proof.
  intros Hc Htag H0 H1 H2 Hin.
  repeat (apply in_app_or in Hin as [Hin|Hin]).
  - now apply (@plain_without c t0).
  - apply Htag. apply (@in_or_app _ (py "<speak>") (py "</speak>")). now left.
  - now apply (@plain_without c t1).
  - apply Htag. apply (@in_or_app _ (py "<speak>") (py "</speak>")). now right.
  - now apply (@plain_without c t2).
Qed.

Lemma normalize_speak_text t0 t1 t2 :
  ~ In (ch "<") t0 -> ~ In (ch "<") t1 -> ~ In (ch "<") t2 ->
  _normalize_tag_whitespace (t0 ++ py "<speak>" ++ t1 ++ py "</speak>" ++ t2)
  = t0 ++ py "<speak>" ++ t1 ++ py "</speak>" ++ t2.
Proof.
  intros H0 H1 H2.
  assert (forall r, _normalize_tag_whitespace (py "<speak>" ++ r)
                    = py "<speak>" ++ _normalize_tag_whitespace r) as Hopen.
  { intros r. apply (@normalize_tag (py "speak") r); [reflexivity|discriminate]. }
  assert (forall r, _normalize_tag_whitespace (py "</speak>" ++ r)
                    = py "</speak>" ++ _normalize_tag_whitespace r) as Hclose.
  { intros r. apply (@normalize_tag (py "/speak") r); [reflexivity|discriminate]. }
  rewrite normalize_prefix, Hopen, normalize_prefix, Hclose by auto.
  rewrite <- (app_nil_r t2) at 1. rewrite normalize_prefix by auto.
  rewrite normalize_nil. now rewrite app_nil_r.
Qed.

Lemma preprocess_speak_text t0 t1 t2 :
  forallb plain t0 = true -> forallb plain t1 = true ->
  forallb plain t2 = true ->
  single_quote_rule (t0 ++ py "<speak>" ++ t1 ++ py "</speak>" ++ t2) = false /\
  preprocess (t0 ++ py "<speak>" ++ t1 ++ py "</speak>" ++ t2)
  = wrap (t0 ++ py "<speak>" ++ t1 ++ py "</speak>" ++ t2).
Proof.
  intros H0 H1 H2. split.
  - unfold single_quote_rule.
    replace (contains_char (ch "'") (t0 ++ py "<speak>" ++ t1 ++ py "</speak>" ++ t2))
      with false; [reflexivity|].
    symmetry. apply contains_char_in. apply speak_text_without; auto.
    vm_compute. intuition discriminate.
  - unfold preprocess.
    rewrite normalize_speak_text by now apply plain_without.
    rewrite escape_no_colon; [reflexivity|].
    apply speak_text_without; auto. vm_compute. intuition discriminate.
Qed.

Lemma has_text_chardata t : has_text (chardata t) = has_text (Some t).
Proof. now destruct t. Qed.

Lemma unescape_plain html5 t :
  forallb plain t = true -> Html.unescape html5 t = t.
Proof.
  intros H. unfold Html.unescape.
  replace (contains_char (ch "&") t) with false; [reflexivity|].
  symmetry. apply contains_char_in. now apply plain_without.
Qed.

(** [parse] when the wrapped text is a [speak] element that holds plain
    text, with plain text around it. *)
Lemma parse_wrapped_speak_text html5 ssml t0 t1 t2 :
  single_quote_rule ssml = false ->
  preprocess ssml = wrap (t0 ++ py "<speak>" ++ t1 ++ py "</speak>" ++ t2) ->
  forallb plain t0 = true -> forallb plain t1 = true ->
  forallb plain t2 = true ->
  parse html5 ssml
  = if has_text (Some t0) || has_text (Some t2)
    then Raise (Exception msg_top_text)
    else Return (SSMLTag (py "speak") []
                         (if has_text (Some t1) then [SSMLText t1] else [])).
Proof.
  intros Hq Hp H0 H1 H2.
  unfold parse, parseSSML.
  fold (single_quote_rule ssml). fold (preprocess ssml).
  rewrite Hq, Hp. unfold fromstring_model.
  rewrite ETRun.fromstring_speak_text by assumption.
  cbn [text children tail]. rewrite !has_text_chardata.
  unfold pystr in *.
  destruct (has_text (Some t0)); cbn [orb]; cbv iota; [reflexivity|].
  destruct (has_text (Some t2)); cbv iota; [reflexivity|].
  rewrite build_is_tag.
  cbn [tag attrib text children fold_left flat_map node_name app].
  change (negb (pystr_eqb (py "speak") (py "speak"))) with false. cbv iota.
  rewrite app_nil_r. do 2 f_equal.
  destruct t1 as [|c t1]; [reflexivity|].
  unfold text_node. cbn [chardata].
  rewrite unescape_plain by assumption. reflexivity.
Qed.

(** [parse] on a [speak] element that holds plain text, with plain text
    around it. *)
Lemma parse_speak_text html5 t0 t1 t2 :
  forallb plain t0 = true -> forallb plain t1 = true ->
  forallb plain t2 = true ->
  parse html5 (t0 ++ py "<speak>" ++ t1 ++ py "</speak>" ++ t2)
  = if has_text (Some t0) || has_text (Some t2)
    then Raise (Exception msg_top_text)
    else Return (SSMLTag (py "speak") []
                         (if has_text (Some t1) then [SSMLText t1] else [])).
Proof.
  intros H0 H1 H2.
  destruct (preprocess_speak_text t0 t1 t2 H0 H1 H2) as [Hq Hp].
  now apply parse_wrapped_speak_text.
Qed.

(** ** Tags, one by one *)

(** X1: [fix_tag] on an opening tag that is a name alone: the white space
    after [<] and before [>] goes, whatever it is, and the name is kept. *)
Theorem fix_tag_opening c nm ws1 ws2 g :
  forallb not_space (c :: nm) = true -> c <> ch "/" ->
  forallb isspace ws1 = true -> forallb isspace ws2 = true ->
  fix_tag (py "<" ++ ws1 ++ (c :: nm) ++ ws2 ++ py ">", g)
  = py "<" ++ (c :: nm) ++ py ">".
Proof. apply fix_tag_name. Qed.

Lemma fix_tag_opening_witness :
  fix_tag (py "<" ++ py "  " ++ py "speak" ++ py " " ++ py ">", [])
  = py "<" ++ py "speak" ++ py ">".
Proof.
  apply (@fix_tag_opening (ch "s") (py "peak") (py "  ") (py " ") []);
    [reflexivity|vm_compute; discriminate|reflexivity|reflexivity].
Defined.

(** X2: [fix_tag] on a closing tag: the white space after [</] and before
    [>] goes, whatever it is, and the name is kept. *)
Theorem fix_tag_closing c nm ws1 ws2 g :
  forallb not_space (c :: nm) = true ->
  forallb isspace ws1 = true -> forallb isspace ws2 = true ->
  fix_tag (py "</" ++ ws1 ++ (c :: nm) ++ ws2 ++ py ">", g)
  = py "</" ++ (c :: nm) ++ py ">".
Proof. apply fix_tag_end_name. Qed.

Lemma fix_tag_closing_witness :
  fix_tag (py "</" ++ py " " ++ py "speak" ++ py "  " ++ py ">", [])
  = py "</" ++ py "speak" ++ py ">".
Proof.
  apply (@fix_tag_closing (ch "s") (py "peak") (py " ") (py "  ") []);
    reflexivity.
Defined.

(** X3: [fix_tag] on an opening tag with attributes: the white space after
    [<] and before [>] goes, and the white space after the name becomes one
    space; what stands between the first run of white space after the name
    and the last character before the closing white space is kept as it
    is. *)
Theorem fix_tag_before_attributes c nm ws1 w ws2 att z ws3 g :
  forallb not_space (c :: nm) = true -> c <> ch "/" ->
  forallb isspace ws1 = true -> forallb isspace (w :: ws2) = true ->
  stops isspace (att ++ [z]) -> isspace z = false ->
  forallb isspace ws3 = true ->
  fix_tag (py "<" ++ ws1 ++ (c :: nm) ++ (w :: ws2) ++ (att ++ [z]) ++ ws3
           ++ py ">", g)
  = py "<" ++ (c :: nm) ++ py " " ++ (att ++ [z]) ++ py ">".
Proof. apply fix_tag_attributes. Qed.

Lemma fix_tag_before_attributes_witness :
  fix_tag (py "<" ++ py " " ++ py "break" ++ [9%N; 10%N]
           ++ (py "time=" ++ quoted (py "1 s") ++ py " " ++ [ch "/"])
           ++ py "  " ++ py ">", [])
  = py "<" ++ py "break" ++ py " "
    ++ (py "time=" ++ quoted (py "1 s") ++ py " " ++ [ch "/"]) ++ py ">".
Proof.
  apply (@fix_tag_before_attributes
           (ch "b") (py "reak") (py " ") 9%N [10%N]
           (py "time=" ++ quoted (py "1 s") ++ py " ") (ch "/") (py "  ") []);
    try reflexivity.
  vm_compute; discriminate.
Defined.

(** X5: a text without [<] has no tag: it is returned as it is. *)
Theorem normalize_text_unchanged s :
  ~ In (ch "<") s -> _normalize_tag_whitespace s = s.
Proof.
  intros H. rewrite <- (app_nil_r s) at 1.
  rewrite normalize_prefix by assumption.
  rewrite normalize_nil. apply app_nil_r.
Qed.

Lemma normalize_text_unchanged_witness :
  _normalize_tag_whitespace (py "a  >  b") = py "a  >  b".
Proof.
  apply normalize_text_unchanged. vm_compute. intuition discriminate.
Defined.

(** X6: the text is rewritten tag by tag, from the left: what stands before
    the first [<] is copied; when [<] is followed by one or more characters
    other than [>] and then [>], that span is replaced by what [fix_tag]
    makes of it, and the rest is rewritten on its own. *)
Theorem normalize_tag_by_tag pre m rest :
  ~ In (ch "<") pre -> forallb (not_char (ch ">")) m = true -> m <> [] ->
  _normalize_tag_whitespace (pre ++ py "<" ++ m ++ py ">" ++ rest)
  = pre ++ fix_tag (py "<" ++ m ++ py ">", [])
    ++ _normalize_tag_whitespace rest.
Proof.
  intros Hpre Hm Hne. rewrite normalize_prefix by assumption.
  now rewrite normalize_tag.
Qed.

Lemma normalize_tag_by_tag_witness :
  _normalize_tag_whitespace (py "a " ++ py "<" ++ py " b <c " ++ py ">" ++ py " d")
  = py "a " ++ fix_tag (py "<" ++ py " b <c " ++ py ">", [])
    ++ _normalize_tag_whitespace (py " d").
Proof.
  apply normalize_tag_by_tag;
    [vm_compute; intuition discriminate|reflexivity|discriminate].
Defined.

(** ** Colons in names *)

(** X7: a text without a colon, or without [=], is not changed by the
    placeholder substitution. *)
Theorem escape_colons_unchanged s :
  ~ In (ch ":") s \/ ~ In (ch "=") s -> escape_colons s = s.
Proof.
  intros [H|H].
  - apply (@escape_without (ch ":")); auto. apply colon_lang.
  - apply (@escape_without (ch "=")); auto. apply equals_lang.
Qed.

Lemma escape_colons_unchanged_witness :
  escape_colons (py "<speak a=b>x = y</speak>") = py "<speak a=b>x = y</speak>".
Proof.
  apply escape_colons_unchanged. left. vm_compute. intuition discriminate.
Defined.

(** X8: the first [name:name], white space and [=] of the text, after a
    prefix that has no colon and does not end in a name character, becomes
    [name__COLON__name=]: the white space before [=] goes, and the rest is
    rewritten on its own.  Nothing tells an attribute from text content. *)
Theorem escape_colons_first_name pre n1 n2 ws rest :
  ~ In (ch ":") pre -> stops attr_name_char (rev pre) ->
  forallb attr_name_char n1 = true -> n1 <> [] ->
  forallb attr_name_char n2 = true -> n2 <> [] ->
  forallb isspace ws = true ->
  escape_colons (pre ++ n1 ++ py ":" ++ n2 ++ ws ++ py "=" ++ rest)
  = pre ++ n1 ++ placeholder ++ n2 ++ py "=" ++ escape_colons rest.
Proof.
  apply escape_first_name.
Qed.

Lemma escape_colons_first_name_witness :
  escape_colons (py "<s " ++ py "xml" ++ py ":" ++ py "lang" ++ py "  "
                 ++ py "=" ++ py "x>a:b=</s>")
  = py "<s " ++ py "xml" ++ placeholder ++ py "lang" ++ py "="
    ++ escape_colons (py "x>a:b=</s>").
Proof.
  apply escape_colons_first_name; try reflexivity; try discriminate.
  vm_compute. intuition discriminate.
Defined.

(** X9: the key that the substitution made of [name:name] is turned back
    by the builder, and a key without the placeholder is kept, for names
    without the letter [C]. *)
Theorem restore_escaped_name n1 n2 :
  ~ In (ch "C") n1 -> ~ In (ch "C") n2 ->
  restore (n1 ++ placeholder ++ n2) = n1 ++ py ":" ++ n2 /\ restore n1 = n1.
Proof.
  intros H1 H2. unfold restore. split.
  - rewrite restore_prefix by assumption. now rewrite restore_none.
  - now apply restore_none.
Qed.

Lemma restore_escaped_name_witness :
  restore (py "xml" ++ placeholder ++ py "lang") = py "xml" ++ py ":" ++ py "lang"
  /\ restore (py "xml") = py "xml".
Proof.
  apply restore_escaped_name; vm_compute; intuition discriminate.
Defined.

(** ** What [build] keeps *)

Section BuildKeeps.
Variable html_unescape : pystr -> pystr.

(** X11: the text nodes under a built tag are the non-blank texts of the
    element: a text node holds [s] exactly when [s] is the unescaped [text]
    of the element or [tail] of one of its children, and that text or tail
    has a character that is not white space. *)
Theorem build_text_nodes elem s :
  In (SSMLText s) (node_children (build html_unescape elem))
  <->
  exists t,
    (text elem = Some t \/ exists c, In c (children elem) /\ tail c = Some t)
    /\ nonblank (Some t) /\ s = html_unescape t.
Proof.
  rewrite build_kids, in_app_iff, in_flat_map. split.
  - intros [H|(c & Hc & [H|H])].
    + apply text_node_origin in H as (t & Ht & Hn & E). injection E as ->.
      exists t. rewrite <- Ht. auto.
    + rewrite build_is_tag in H. discriminate.
    + apply text_node_origin in H as (t & Ht & Hn & E). injection E as ->.
      exists t. rewrite <- Ht. split; [right; exists c; auto|auto].
  - intros (t & Hsrc & Hn & ->). apply has_text_nonblank in Hn.
    destruct Hsrc as [Ht|(c & Hc & Ht)].
    + left. rewrite Ht. unfold text_node. rewrite Hn. now left.
    + right. exists c. split; auto. right. rewrite Ht. unfold text_node.
      rewrite Hn. now left.
Qed.

(** X12: when the keys of the element are still distinct once the
    placeholder is turned back, the attributes of the built tag are those
    of the element, in their order, each under its restored key. *)
Theorem build_attributes_in_order elem :
  NoDup (map (fun kv => restore (fst kv)) (attrib elem)) ->
  node_attributes (build html_unescape elem)
  = map (fun kv => (restore (fst kv), snd kv)) (attrib elem).
Proof.
  intros H. rewrite build_attrs. now rewrite renamed_fresh.
Qed.

End BuildKeeps.

Lemma build_text_nodes_witness :
  In (SSMLText (py "a"))
     (node_children
        (build (fun s => s)
               (mkElement (py "speak") [] (Some (py "a")) None []))).
Proof.
  apply (proj2 (@build_text_nodes (fun s => s)
                  (mkElement (py "speak") [] (Some (py "a")) None [])
                  (py "a"))).
  exists (py "a"). split; [left; reflexivity|]. split; [|reflexivity].
  exists (py "a"), (ch "a"). split; [reflexivity|]. split; [now left|reflexivity].
Defined.

Lemma build_attributes_in_order_witness :
  node_attributes
    (build (fun s => s)
           (mkElement (py "speak")
                      [(py "xml__COLON__lang", py "en"); (py "a", py "1")]
                      None None []))
  = [(py "xml:lang", py "en"); (py "a", py "1")].
Proof.
  apply (@build_attributes_in_order (fun s => s)
           (mkElement (py "speak")
                      [(py "xml__COLON__lang", py "en"); (py "a", py "1")]
                      None None [])).
  vm_compute. repeat constructor; simpl; intuition discriminate.
Defined.

(** ** [SSMLText.__eq__] and [SSMLTag.__eq__] *)

(** X13: on trees whose attribute mappings bind each key once, [==] does
    not depend on the side a node stands on. *)
Theorem eq_symmetric a b :
  well_keyed a -> well_keyed b -> ssml_eqb a b = ssml_eqb b a.
Proof.
  intros Ha Hb. destruct (ssml_eqb a b) eqn:E1, (ssml_eqb b a) eqn:E2; auto.
  - apply ssml_eqb_sym in E1; auto. congruence.
  - apply ssml_eqb_sym in E2; auto. congruence.
Qed.

Lemma eq_symmetric_witness :
  ssml_eqb (SSMLTag (py "speak") [(py "a", py "1"); (py "b", py "2")] [SSMLText (py "x")])
           (SSMLTag (py "speak") [(py "b", py "2"); (py "a", py "1")] [SSMLText (py "x")])
  = ssml_eqb (SSMLTag (py "speak") [(py "b", py "2"); (py "a", py "1")] [SSMLText (py "x")])
             (SSMLTag (py "speak") [(py "a", py "1"); (py "b", py "2")] [SSMLText (py "x")]).
Proof.
  apply eq_symmetric; repeat constructor; simpl; intuition discriminate.
Defined.

(** X14: what [==] decides: two text nodes are equal when their strings
    are; two tag nodes are equal when they have the same name, the same
    attributes in any order, and children equal one by one in order; a text
    node never equals a tag node. *)
Theorem eq_decides_same_tree a : forall b,
  well_keyed a -> well_keyed b -> (ssml_eqb a b = true <-> same_tree a b).
Proof.
  induction a as [s|name attrs kids IH] using SSMLNode_induction;
    intros [s'|name' attrs' kids'] Ha Hb.
  - simpl. split.
    + intros H. apply pystr_eqb_eq in H. subst. constructor.
    + intros H. inversion H. apply pystr_eqb_refl.
  - split; [discriminate|intros H; inversion H].
  - split; [discriminate|intros H; inversion H].
  - inversion Ha as [|? ? ? Hna Hka]; inversion Hb as [|? ? ? Hnb Hkb]; subst.
    rewrite ssml_eqb_tag, !andb_true_iff.
    assert (list_eqb ssml_eqb kids kids' = true <-> Forall2 same_tree kids kids')
      as Hkids.
    { clear Ha Hb Hna Hnb. revert kids' Hka Hkb.
      induction IH as [|k kids Hk _ IHk]; intros [|k' kids'] Hka Hkb; simpl.
      - split; auto.
      - split; [discriminate|intros H; inversion H].
      - split; [discriminate|intros H; inversion H].
      - inversion Hka as [|? ? Hw Hws]; inversion Hkb as [|? ? Hw' Hws']; subst.
        rewrite andb_true_iff, (Hk k' Hw Hw'), (IHk kids' Hws Hws'). split.
        + intros [H1 H2]. now constructor.
        + intros H. inversion H. auto. }
    split.
    + intros [[Hn Hd] Hk]. apply pystr_eqb_eq in Hn. subst.
      apply dict_eqb_spec in Hd as [Hl Hi]; auto. constructor.
      * apply NoDup_Permutation_bis; auto; [now apply nodup_keys_pairs|lia].
      * now apply Hkids.
    + intros H. inversion H as [|? ? ? ? ? Hp Hf]; subst.
      rewrite pystr_eqb_refl, dict_eqb_perm by assumption.
      repeat split. now apply Hkids.
Qed.

Lemma eq_decides_same_tree_witness :
  ssml_eqb (SSMLTag (py "speak") [(py "a", py "1"); (py "b", py "2")] [SSMLText (py "x")])
           (SSMLTag (py "speak") [(py "b", py "2"); (py "a", py "1")] [SSMLText (py "x")])
  = true
  <->
  same_tree (SSMLTag (py "speak") [(py "a", py "1"); (py "b", py "2")] [SSMLText (py "x")])
            (SSMLTag (py "speak") [(py "b", py "2"); (py "a", py "1")] [SSMLText (py "x")]).
Proof.
  apply eq_decides_same_tree; repeat constructor; simpl; intuition discriminate.
Defined.

(** ** Plain text, end to end *)

(** X15: around the [speak] element, white space is accepted and left out
    of the tree, and any other text is refused. *)
Theorem top_level_white_space_ignored html5 t0 t1 t2 :
  forallb plain t0 = true -> forallb plain t1 = true ->
  forallb plain t2 = true ->
  (forallb isspace t0 = true -> forallb isspace t2 = true ->
   parse html5 (t0 ++ py "<speak>" ++ t1 ++ py "</speak>" ++ t2)
   = Return (SSMLTag (py "speak") []
                     (if has_text (Some t1) then [SSMLText t1] else [])))
  /\
  (nonblank (Some t0) \/ nonblank (Some t2) ->
   parse html5 (t0 ++ py "<speak>" ++ t1 ++ py "</speak>" ++ t2)
   = Raise (Exception msg_top_text)).
Proof.
  intros H0 H1 H2. rewrite parse_speak_text by assumption. split.
  - intros B0 B2.
    rewrite (@has_text_blank (Some t0)), (@has_text_blank (Some t2));
      [reflexivity| |]; right; eexists; split; eauto.
  - intros [H|H]; apply has_text_nonblank in H; rewrite H;
      rewrite ?orb_true_r; reflexivity.
Qed.

Lemma top_level_white_space_ignored_witness :
  parse html5_excerpt ([10%N; 32%N] ++ py "<speak>" ++ py "hi" ++ py "</speak>" ++ [10%N])
  = Return (SSMLTag (py "speak") []
                    (if has_text (Some (py "hi")) then [SSMLText (py "hi")] else [])).
Proof.
  apply (proj1 (@top_level_white_space_ignored html5_excerpt
                  [10%N; 32%N] (py "hi") [10%N]
                  eq_refl eq_refl eq_refl)); reflexivity.
Defined.

Lemma forallb_concat (p : N -> bool) (ts : list pystr) :
  Forall (fun t => forallb p t = true) ts -> forallb p (List.concat ts) = true.
Proof.
  induction 1 as [|t ts Ht _ IH]; simpl; auto.
  now rewrite forallb_app, Ht, IH.
Qed.

Lemma serialize_texts name (ts : list pystr) :
  ssmlNodeToText (SSMLTag name [] (map SSMLText ts))
  = py "<" ++ name ++ py ">" ++ List.concat ts ++ py "</" ++ name ++ py ">".
Proof.
  cbn [ssmlNodeToText]. rewrite map_map. cbn [ssmlNodeToText app].
  now rewrite map_id.
Qed.

(** X16: parsing what the serializer writes for a [speak] tag that holds
    plain text nodes gives one text node with their strings joined, or no
    child when the joined string is blank; so a single text node that is
    not blank comes back as it was, while the split into several text
    nodes and blank text are lost. *)
Theorem serialized_text_parsed_back html5 :
  (forall ts,
      Forall (fun t => forallb plain t = true) ts ->
      parse html5 (ssmlNodeToText (SSMLTag (py "speak") [] (map SSMLText ts)))
      = Return (SSMLTag (py "speak") []
                        (if has_text (Some (List.concat ts))
                         then [SSMLText (List.concat ts)] else [])))
  /\
  (forall t,
      forallb plain t = true -> nonblank (Some t) ->
      parse html5 (ssmlNodeToText (SSMLTag (py "speak") [] [SSMLText t]))
      = Return (SSMLTag (py "speak") [] [SSMLText t])).
Proof.
  assert (forall ts,
      Forall (fun t => forallb plain t = true) ts ->
      parse html5 (ssmlNodeToText (SSMLTag (py "speak") [] (map SSMLText ts)))
      = Return (SSMLTag (py "speak") []
                        (if has_text (Some (List.concat ts))
                         then [SSMLText (List.concat ts)] else []))) as Hall.
  { intros ts Hts. rewrite serialize_texts.
    change (py "<" ++ py "speak" ++ py ">" ++ List.concat ts
            ++ py "</" ++ py "speak" ++ py ">")
      with ([] ++ py "<speak>" ++ List.concat ts ++ py "</speak>" ++ []).
    rewrite parse_speak_text; auto. now apply forallb_concat. }
  split; auto.
  intros t Hp Hn. apply has_text_nonblank in Hn.
  specialize (Hall [t]). cbn [map List.concat] in Hall.
  rewrite app_nil_r in Hall. rewrite Hall by (repeat constructor; assumption).
  unfold pystr in *. now rewrite Hn.
Qed.

Lemma serialized_text_parsed_back_witness :
  parse html5_excerpt
        (ssmlNodeToText (SSMLTag (py "speak") [] [SSMLText (py "a > b")]))
  = Return (SSMLTag (py "speak") [] [SSMLText (py "a > b")]).
Proof.
  apply (proj2 (serialized_text_parsed_back html5_excerpt)).
  - reflexivity.
  - exists (py "a > b"), (ch "a"). split; [reflexivity|].
    split; [now left|reflexivity].
Defined.

Lemma name_plain c : attr_name_char c = true -> plain c = true.
Proof.
  unfold attr_name_char, plain, ET.xml_char. pylit. intros H.
  repeat rewrite ?orb_true_iff, ?andb_true_iff, ?negb_true_iff, ?orb_false_iff,
    ?N.leb_le, ?N.eqb_eq, ?N.eqb_neq in *.
  lia.
Qed.

Lemma names_plain n : forallb attr_name_char n = true -> forallb plain n = true.
Proof.
  rewrite !forallb_forall. intros H c Hc. apply name_plain. now apply H.
Qed.

(** X17: the placeholder is put into text content as well and is not taken
    out of it: a text [name:name=...] of the [speak] element comes back
    with [__COLON__] for the colon, and without the white space that stood
    before [=]. *)
Theorem colon_in_text_not_restored html5 n1 n2 ws r :
  forallb attr_name_char n1 = true -> n1 <> [] ->
  forallb attr_name_char n2 = true -> n2 <> [] ->
  forallb isspace ws = true -> forallb plain r = true ->
  parse html5 (py "<speak>" ++ n1 ++ py ":" ++ n2 ++ ws ++ py "=" ++ r
               ++ py "</speak>")
  = Return (SSMLTag (py "speak") []
                    [SSMLText (n1 ++ placeholder ++ n2 ++ py "=" ++ r)]).
Proof.
  intros H1 Hn1 H2 Hn2 Hws Hr.
  pose proof (names_plain n1 H1) as P1. pose proof (names_plain n2 H2) as P2.
  assert (forallb plain (n1 ++ placeholder ++ n2 ++ py "=" ++ r) = true) as Hp.
  { rewrite !forallb_app, P1, P2, Hr. reflexivity. }
  assert (forall c, plain c = false -> isspace c = false -> c <> ch ":" ->
                    ~ In c (n1 ++ py ":" ++ n2 ++ ws ++ py "=" ++ r)) as Hno.
  { intros c Hc Hs Hcolon Hin.
    repeat (apply in_app_or in Hin as [Hin|Hin]).
    - now apply (@plain_without c n1).
    - destruct Hin as [E|[]]. now apply Hcolon.
    - now apply (@plain_without c n2).
    - rewrite forallb_forall in Hws. rewrite (Hws c Hin) in Hs. discriminate.
    - destruct Hin as [E|[]]. subst c. discriminate.
    - now apply (@plain_without c r). }
  assert (has_text (Some (n1 ++ placeholder ++ n2 ++ py "=" ++ r)) = true) as Ht.
  { apply has_text_nonblank.
    destruct n1 as [|c n1]; [contradiction|].
    exists ((c :: n1) ++ placeholder ++ n2 ++ py "=" ++ r), c.
    split; [reflexivity|]. split; [now left|].
    simpl in H1. apply andb_true_iff in H1 as [Hc _].
    destruct (isspace c) eqn:E; auto. apply space_not_name in E. congruence. }
  rewrite (@parse_wrapped_speak_text html5 _ []
             (n1 ++ placeholder ++ n2 ++ py "=" ++ r) []); auto.
  - unfold pystr in *. rewrite Ht. reflexivity.
  - unfold single_quote_rule.
    replace (contains_char (ch "'")
               (py "<speak>" ++ n1 ++ py ":" ++ n2 ++ ws ++ py "=" ++ r
                ++ py "</speak>")) with false; [reflexivity|].
    symmetry. apply contains_char_in. intros Hin.
    apply in_app_or in Hin as [Hin|Hin];
      [revert Hin; vm_compute; intuition discriminate|].
    apply (Hno (ch "'")); try reflexivity; try discriminate.
    rewrite !app_assoc in Hin. apply in_app_or in Hin as [Hin|Hin].
    + now rewrite !app_assoc.
    + exfalso. revert Hin. vm_compute. intuition discriminate.
  - unfold preprocess.
    replace (py "<speak>" ++ n1 ++ py ":" ++ n2 ++ ws ++ py "=" ++ r ++ py "</speak>")
      with ([] ++ py "<speak>" ++ (n1 ++ py ":" ++ n2 ++ ws ++ py "=" ++ r)
            ++ py "</speak>" ++ [])
      by (rewrite <- !app_assoc; reflexivity).
    rewrite normalize_speak_text; auto;
      [|apply Hno; try reflexivity; discriminate].
    cbn [app]. rewrite <- !app_assoc.
    change (py "<speak>" ++ n1 ++ py ":" ++ n2 ++ ws ++ py "=" ++ r ++ py "</speak>")
      with (py "<speak>" ++ n1 ++ py ":" ++ n2 ++ ws ++ py "="
            ++ (r ++ py "</speak>")).
    rewrite escape_first_name; auto.
    + rewrite escape_no_colon; [reflexivity|].
      intros Hin. apply in_app_or in Hin as [Hin|Hin].
      * now apply (@plain_without (ch ":") r).
      * revert Hin. vm_compute. intuition discriminate.
    + vm_compute. intuition discriminate.
    + reflexivity.
Qed.

Lemma colon_in_text_not_restored_witness :
  parse html5_excerpt (py "<speak>" ++ py "at" ++ py ":" ++ py "10" ++ py " "
                       ++ py "=" ++ py " ten" ++ py "</speak>")
  = Return (SSMLTag (py "speak") []
                    [SSMLText (py "at" ++ placeholder ++ py "10" ++ py "="
                               ++ py " ten")]).
Proof.
  apply colon_in_text_not_restored; try reflexivity; discriminate.
Defined.

(** X18: the tag pattern stops at the first [>], also inside a
    double-quoted value, so white space before a [>] in a value is taken
    for the padding of a tag and removed: the value [x  >y] is read as
    [x>y]. *)
Theorem space_before_gt_in_value_lost html5 ws :
  forallb isspace ws = true ->
  parse html5 (py "<speak a=" ++ [dquote] ++ py "x" ++ ws ++ py ">y"
               ++ [dquote] ++ py "></speak>")
  = Return (SSMLTag (py "speak") [(py "a", py "x>y")] []).
Proof.
  intros Hws. unfold parse, parseSSML.
  assert (contains_char (ch "'")
            (py "<speak a=" ++ [dquote] ++ py "x" ++ ws ++ py ">y"
             ++ [dquote] ++ py "></speak>") = false) as ->.
  { rewrite !contains_char_app, (@spaces_without (ch "'") ws) by auto.
    reflexivity. }
  cbn [andb].
  assert (_normalize_tag_whitespace
            (py "<speak a=" ++ [dquote] ++ py "x" ++ ws ++ py ">y"
             ++ [dquote] ++ py "></speak>")
          = py "<speak a=" ++ [dquote] ++ py "x>y" ++ [dquote] ++ py "></speak>")
    as ->.
  { change (py "<speak a=" ++ [dquote] ++ py "x" ++ ws ++ py ">y"
            ++ [dquote] ++ py "></speak>")
      with (py "<" ++ (py "speak a=" ++ [dquote] ++ py "x" ++ ws) ++ py ">"
            ++ (py "y" ++ [dquote] ++ py "></speak>")).
    rewrite normalize_tag.
    - change (py "<" ++ (py "speak a=" ++ [dquote] ++ py "x" ++ ws) ++ py ">")
        with (py "<" ++ [] ++ (ch "s" :: py "peak") ++ (ch " " :: [])
              ++ ((py "a=" ++ [dquote]) ++ [ch "x"]) ++ ws ++ py ">").
      rewrite fix_tag_attributes; try reflexivity; auto.
      vm_compute; discriminate.
    - rewrite !forallb_app, (@spaces_not_char ws (ch ">")) by auto.
      reflexivity.
    - discriminate. }
  vm_compute. reflexivity.
Qed.

Lemma space_before_gt_in_value_lost_witness :
  parse html5_excerpt (py "<speak a=" ++ [dquote] ++ py "x" ++ py "  " ++ py ">y"
                       ++ [dquote] ++ py "></speak>")
  = Return (SSMLTag (py "speak") [(py "a", py "x>y")] []).
Proof.
  apply space_before_gt_in_value_lost. reflexivity.
Defined.

(** ** When [parseSSML] returns, and what it raises *)


Section ParseResults.
Variable E : Type.
Variable ET_fromstring : pystr -> Element + E.
Variable html_unescape : pystr -> pystr.



End ParseResults.



(** ** Printable trees *)

Lemma elem_of_tag name attrs kids tl :
  elem_of (SSMLTag name attrs kids) tl
  = mkElement name attrs (first_text kids) tl (elems_of kids).
Proof. reflexivity. Qed.

Lemma span_eq (p : N -> bool) : forall s a b,
  ET.span p s = (a, b) -> s = a ++ b /\ forallb p a = true /\ stops p b.
Proof.
  induction s as [|c s IH]; intros a b H; cbn [ET.span] in H.
  - injection H as <- <-. repeat split.
  - destruct (p c) eqn:Hc.
    + destruct (ET.span p s) as [a' b'] eqn:E. injection H as <- <-.
      destruct (IH a' b' eq_refl) as (-> & Ha & Hb).
      repeat split; auto. cbn [forallb]. now rewrite Hc.
    + injection H as <- <-. repeat split. exact Hc.
Qed.

Lemma forallb_weaken (P Q : N -> bool) s :
  (forall c, P c = true -> Q c = true) ->
  forallb P s = true -> forallb Q s = true.
Proof.
  intros H. rewrite !forallb_forall. auto.
Qed.

Lemma forallb_not_char c s : forallb (not_char c) s = true <-> ~ In c s.
Proof.
  rewrite forallb_forall. unfold not_char. split.
  - intros H Hin. specialize (H c Hin). now rewrite N.eqb_refl in H.
  - intros H x Hx. apply negb_true_iff, N.eqb_neq. intros ->. contradiction.
Qed.

Lemma inert_without c s :
  inert c = false -> forallb inert s = true -> ~ In c s.
Proof.
  intros Hc H Hin. rewrite forallb_forall in H. rewrite (H c Hin) in Hc.
  discriminate.
Qed.

Lemma inert_not_char d :
  inert d = false -> forall c, inert c = true -> not_char d c = true.
Proof.
  intros Hd c Hc. unfold not_char. apply negb_true_iff, N.eqb_neq.
  intros ->. congruence.
Qed.

Lemma word_inert s : word s = true -> forallb inert s = true.
Proof.
  unfold word. rewrite !forallb_forall. intros H c Hc.
  specialize (H c Hc). now apply andb_true_iff in H as [H _].
Qed.

Lemma word_not_space s : word s = true -> forallb not_space s = true.
Proof.
  unfold word. rewrite !forallb_forall. intros H c Hc.
  specialize (H c Hc). now apply andb_true_iff in H as [_ H].
Qed.

Lemma name_word n : forallb attr_name_char n = true -> word n = true.
Proof.
  unfold word. apply forallb_weaken. intros c Hc.
  unfold attr_name_char, inert, not_space, isspace in *. pylit.
  repeat rewrite ?orb_true_iff, ?andb_true_iff, ?negb_true_iff, ?orb_false_iff,
    ?N.leb_le, ?N.eqb_eq, ?N.eqb_neq, ?N.leb_gt, ?andb_false_iff in *.
  lia.
Qed.

Lemma colon_name_facts n :
  colon_name n = true ->
  forallb attr_name_char n = true /\ n <> [] /\ ~ In (ch "C") n.
Proof.
  unfold colon_name. rewrite !andb_true_iff, !negb_true_iff.
  intros [[H1 H2] H3]. repeat split; auto.
  - now apply pystr_eqb_neq.
  - now apply contains_char_in.
Qed.

(** The two kinds of key. *)
Lemma key_cases k :
  key_ok k = true ->
  (~ In (ch ":") k /\ word k = true /\ occurs placeholder k = false /\
   escaped_key k = k)
  \/
  (exists n1 n2,
      k = n1 ++ py ":" ++ n2 /\ colon_name n1 = true /\ colon_name n2 = true /\
      escaped_key k = n1 ++ placeholder ++ n2).
Proof.
  unfold key_ok, escaped_key, key_parts.
  destruct (ET.span (not_char (ch ":")) k) as [a b] eqn:E.
  apply span_eq in E as (-> & Ha & Hb).
  destruct b as [|c b].
  - intros H. apply andb_true_iff in H as [Hw Ho]. apply negb_true_iff in Ho.
    left. repeat split; auto. rewrite app_nil_r. now apply forallb_not_char.
  - intros H. apply andb_true_iff in H as [H1 H2]. right. exists a, b.
    repeat split; auto. cbn [stops] in Hb. unfold not_char in Hb.
    apply negb_false_iff, N.eqb_eq in Hb. now subst c.
Qed.

Lemma key_forallb (P : N -> bool) k :
  key_ok k = true -> P (ch ":") = true ->
  (forall c, inert c = true -> not_space c = true -> P c = true) ->
  forallb P k = true.
Proof.
  intros Hk Hc Hi.
  assert (forall s, word s = true -> forallb P s = true) as Hw.
  { intros s. unfold word. apply forallb_weaken. intros c H.
    apply andb_true_iff in H as [H1 H2]. auto. }
  destruct (key_cases k Hk) as [(_ & H & _)|(n1 & n2 & -> & H1 & H2 & _)].
  - auto.
  - apply colon_name_facts in H1 as (H1 & _). apply colon_name_facts in H2 as (H2 & _).
    rewrite !forallb_app. cbn [forallb py map list_ascii_of_string].
    fold (ch ":"). rewrite Hc, (Hw n1), (Hw n2); auto using name_word.
Qed.

Lemma startswith_nil_false p : p <> [] -> startswith p [] = false.
Proof. destruct p; [contradiction|reflexivity]. Qed.

(** Where [old] does not occur, [replace] changes nothing. *)
Lemma replace_absent old new : old <> [] ->
  forall s, occurs old s = false -> replace s old new = s.
Proof.
  intros Hne. unfold replace. induction s as [|c s IH]; intros H.
  - rewrite replace_go_eq, startswith_nil_false; auto.
  - cbn [occurs] in H. apply orb_false_iff in H as [H1 H2].
    rewrite replace_go_eq, H1. f_equal. now apply IH.
Qed.

(** The builder undoes what the substitution did to a key. *)
Lemma restore_escaped_key k : key_ok k = true -> restore (escaped_key k) = k.
Proof.
  intros Hk. unfold restore.
  destruct (key_cases k Hk) as [(_ & _ & Ho & ->)|(n1 & n2 & -> & H1 & H2 & ->)].
  - apply replace_absent; [discriminate|assumption].
  - apply colon_name_facts in H1 as (_ & _ & H1).
    apply colon_name_facts in H2 as (_ & _ & H2).
    rewrite restore_prefix by assumption. now rewrite restore_none.
Qed.

Lemma printable_tag name attrs kids :
  printable (SSMLTag name attrs kids) = true ->
  word name = true /\ name <> [] /\ startswith (py "/") name = false /\
  (forall k v, In (k, v) attrs -> key_ok k = true /\ forallb inert v = true) /\
  NoDup (dict_keys attrs) /\
  Forall (fun k => printable k = true) kids /\ separated kids = true.
Proof.
  cbn [printable]. rewrite !andb_true_iff, !negb_true_iff.
  intros ((((((Hw & Hne) & Hs) & Ha) & Hd) & Hk) & Hsep).
  repeat split; auto.
  - now apply pystr_eqb_neq.
  - rewrite forallb_forall in Ha. specialize (Ha _ H). cbn [fst snd] in Ha.
    rewrite !andb_true_iff in Ha. tauto.
  - rewrite forallb_forall in Ha. specialize (Ha _ H). cbn [fst snd] in Ha.
    rewrite !andb_true_iff in Ha. tauto.
  - clear - Hd. induction (dict_keys attrs) as [|k l IH]; constructor.
    + simpl in Hd. apply orb_false_iff in Hd as [Hd _].
      intros Hin. apply existsb_pystr_eqb in Hin. congruence.
    + apply IH. simpl in Hd. now apply orb_false_iff in Hd as [_ Hd].
  - clear - Hk. induction kids as [|k kids IH]; constructor;
      cbn [forallb] in Hk; apply andb_true_iff in Hk as [H1 H2]; auto.
Qed.

(** ** [build] on the elements of a printable tree *)

Section BuildInverse.
Variable html5 : pystr -> option pystr.

Lemma text_node_printable s :
  printable (SSMLText s) = true ->
  text_node (Html.unescape html5) (Some s) = [SSMLText s].
Proof.
  cbn [printable]. intros H. apply andb_true_iff in H as [Hi Ht].
  unfold text_node. rewrite Ht. unfold Html.unescape.
  replace (contains_char (ch "&") s) with false; [reflexivity|].
  symmetry. apply contains_char_in. now apply inert_without.
Qed.

Lemma renamed_escaped (attrs : dict) :
  (forall k v, In (k, v) attrs -> key_ok k = true) ->
  NoDup (dict_keys attrs) ->
  renamed restore (escaped_attrs attrs) [] = attrs.
Proof.
  intros Hk Hn. unfold escaped_attrs.
  assert (forall kv, In kv attrs -> restore (escaped_key (fst kv)) = fst kv) as Hr.
  { intros [k v] Hin. apply restore_escaped_key. eapply Hk; eauto. }
  rewrite renamed_fresh.
  - cbn [app]. rewrite map_map. rewrite <- (map_id attrs) at 2.
    apply map_ext_in. intros [k v] Hin. pose proof (Hr _ Hin) as Hkv.
    cbn [fst snd] in *. now rewrite Hkv.
  - cbn [dict_keys app]. rewrite map_map. cbn [fst].
    erewrite map_ext_in; [exact Hn|]. intros kv Hin. now apply Hr.
Qed.

(** The children that [build] makes of the elements of a list of nodes. *)
Lemma build_elems (l : list SSMLNode) :
  Forall (fun k => printable k = true) l ->
  Forall (fun k => printable k = true -> forall tl,
                   is_tag k = true ->
                   build (Html.unescape html5) (elem_of (escaped k) tl) = k) l ->
  separated l = true ->
  text_node (Html.unescape html5) (first_text (map escaped l))
  ++ flat_map (fun child => build (Html.unescape html5) child
                            :: text_node (Html.unescape html5) (tail child))
              (elems_of (map escaped l))
  = l.
Proof.
  intros Hp IH. revert Hp.
  induction IH as [|k l Hk _ IHl]; intros Hp Hsep; auto.
  inversion Hp as [|? ? Hpk Hpl]; subst.
  cbn [separated] in Hsep. apply andb_true_iff in Hsep as [Hadj Hsep].
  specialize (IHl Hpl Hsep).
  destruct k as [s|name attrs kids].
  - cbn [map escaped first_text elems_of].
    rewrite text_node_printable by assumption.
    cbn [app]. f_equal.
    destruct l as [|[s'|n' a' k'] l']; auto. discriminate.
  - cbn [map first_text text_node app].
    change (escaped (SSMLTag name attrs kids))
      with (SSMLTag name (escaped_attrs attrs) (map escaped kids)) in *.
    cbn [elems_of flat_map]. rewrite (Hk Hpk) by reflexivity.
    rewrite elem_of_tag. cbn [tail text_node app]. f_equal. exact IHl.
Qed.

Lemma build_elem_of t :
  printable t = true -> forall tl, is_tag t = true ->
  build (Html.unescape html5) (elem_of (escaped t) tl) = t.
Proof.
  induction t as [s|name attrs kids IH] using SSMLNode_induction;
    intros Hp tl Ht; [discriminate|].
  apply printable_tag in Hp as (_ & _ & _ & Ha & Hd & Hk & Hsep).
  cbn [escaped]. rewrite elem_of_tag, build_is_tag.
  cbn [tag attrib text children]. f_equal.
  - apply renamed_escaped; auto. intros k v Hin. now apply (Ha k v).
  - now apply build_elems.
Qed.

End BuildInverse.

(** ** The serializer's text and [_normalize_tag_whitespace] *)

Lemma serialize_tag name attrs kids :
  ssmlNodeToText (SSMLTag name attrs kids)
  = py "<" ++ (name ++ attrs_text attrs) ++ py ">"
    ++ List.concat (map ssmlNodeToText kids) ++ py "</" ++ name ++ py ">".
Proof.
  cbn [ssmlNodeToText]. rewrite attrs_section. unfold attrs_text.
  now rewrite <- !app_assoc.
Qed.

(** The text of the attributes holds what [P] allows, when [P] allows the
    space, [=], the double quote, the keys and the values. *)
Lemma attrs_text_forallb (P : N -> bool) attrs :
  P (ch " ") = true -> P (ch "=") = true -> P dquote = true ->
  (forall k v, In (k, v) attrs -> forallb P k = true /\ forallb P v = true) ->
  forallb P (attrs_text attrs) = true.
Proof.
  intros Hs He Hq Ha. unfold attrs_text.
  induction attrs as [|[k v] attrs IH]; auto.
  cbn [flat_map fst snd]. destruct (Ha k v (or_introl eq_refl)) as [Hk Hv].
  rewrite !forallb_app. cbn [forallb py map list_ascii_of_string].
  fold (ch " "). fold (ch "="). rewrite Hs, He, Hq, Hk, Hv. cbn [andb].
  apply IH. intros k' v' Hin. apply Ha. now right.
Qed.

(** The serialized tree holds what [P] allows, when [P] allows the
    characters of the markup, the colon and the inert characters. *)
Lemma serialize_forallb (P : N -> bool) :
  P (ch " ") = true -> P (ch "=") = true -> P dquote = true ->
  P (ch "<") = true -> P (ch ">") = true -> P (ch "/") = true ->
  P (ch ":") = true ->
  (forall c, inert c = true -> P c = true) ->
  forall t, printable t = true -> forallb P (ssmlNodeToText t) = true.
Proof.
  intros Hs He Hq Hl Hg Hsl Hc Hi.
  induction t as [s|name attrs kids IH] using SSMLNode_induction; intros Hp.
  - cbn [printable ssmlNodeToText] in *. apply andb_true_iff in Hp as [Hp _].
    now apply (@forallb_weaken inert P).
  - rewrite serialize_tag.
    apply printable_tag in Hp as (Hn & _ & _ & Ha & _ & Hk & _).
    rewrite !forallb_app. cbn [forallb py map list_ascii_of_string].
    fold (ch "<"). fold (ch ">"). fold (ch "/"). rewrite Hl, Hg, Hsl.
    rewrite (@forallb_weaken inert P name Hi (word_inert name Hn)).
    rewrite attrs_text_forallb; auto.
    2:{ intros k v Hin. destruct (Ha k v Hin) as (H1 & H2). split.
        - apply key_forallb; auto.
        - now apply (@forallb_weaken inert P). }
    cbn [andb]. rewrite andb_true_r.
    clear - IH Hk. induction IH as [|k kids Hk' _ IHk]; auto.
    inversion Hk as [|? ? H1 H2]; subst. cbn [map List.concat].
    now rewrite forallb_app, Hk', IHk.
Qed.

Lemma attrs_text_last attrs :
  attrs <> [] -> exists a, attrs_text attrs = a ++ [dquote].
Proof.
  intros Hne. destruct (exists_last Hne) as (front & [k v] & ->).
  unfold attrs_text. rewrite flat_map_app. cbn [flat_map fst snd].
  rewrite app_nil_r.
  exists (flat_map (fun kv => py " " ++ fst kv ++ py "=" ++ [dquote]
                              ++ snd kv ++ [dquote]) front
          ++ py " " ++ k ++ py "=" ++ [dquote] ++ v).
  now rewrite <- !app_assoc.
Qed.

(** [fix_tag] changes nothing in a start tag as the serializer writes it. *)
Lemma fix_tag_serialized name attrs :
  word name = true -> name <> [] -> startswith (py "/") name = false ->
  (forall k v, In (k, v) attrs -> forallb not_space k = true) ->
  fix_tag (py "<" ++ (name ++ attrs_text attrs) ++ py ">", [])
  = py "<" ++ (name ++ attrs_text attrs) ++ py ">".
Proof.
  intros Hw Hne Hs Ha. destruct name as [|c nm]; [contradiction|].
  assert (c <> ch "/") as Hc.
  { intros ->. discriminate. }
  pose proof (word_not_space _ Hw) as Hns.
  destruct attrs as [|[k v] attrs].
  - cbn [attrs_text flat_map]. rewrite app_nil_r.
    apply (@fix_tag_name c nm [] [] []); auto.
  - assert (exists att,
               k ++ py "=" ++ [dquote] ++ v ++ [dquote] ++ attrs_text attrs
               = att ++ [dquote]) as (att & Hatt).
    { destruct attrs as [|kv attrs].
      - exists (k ++ py "=" ++ [dquote] ++ v). cbn [attrs_text flat_map].
        now rewrite app_nil_r, <- !app_assoc.
      - destruct (@attrs_text_last (kv :: attrs)) as (a & ->); [discriminate|].
        exists (k ++ py "=" ++ [dquote] ++ v ++ [dquote] ++ a).
        now rewrite <- !app_assoc. }
    assert (stops isspace (att ++ [dquote])) as Hst.
    { rewrite <- Hatt. destruct k as [|c0 k]; [reflexivity|].
      pose proof (Ha (c0 :: k) v (or_introl eq_refl)) as Hk.
      cbn [forallb] in Hk.
      apply andb_true_iff in Hk as [Hk _]. now apply not_space_false. }
    replace (attrs_text ((k, v) :: attrs))
      with (32%N :: att ++ [dquote])
      by (rewrite <- Hatt; unfold attrs_text; cbn [flat_map fst snd];
          rewrite <- !app_assoc; reflexivity).
    pose proof (@fix_tag_attributes c nm [] 32%N [] att dquote [] []
                  Hns Hc eq_refl eq_refl Hst eq_refl eq_refl) as H.
    repeat first [rewrite <- app_assoc in H | progress cbn [app py map list_ascii_of_string] in H].
    repeat first [rewrite <- app_assoc | progress cbn [app py map list_ascii_of_string]].
    exact H.
Qed.

(** The serializer's text of a printable tree is normalized already, and
    what follows it is normalized on its own. *)
Lemma normalize_serialized t :
  printable t = true ->
  forall rest,
    _normalize_tag_whitespace (ssmlNodeToText t ++ rest)
    = ssmlNodeToText t ++ _normalize_tag_whitespace rest.
Proof.
  induction t as [s|name attrs kids IH] using SSMLNode_induction;
    intros Hp rest.
  - cbn [printable ssmlNodeToText] in *. apply andb_true_iff in Hp as [Hp _].
    apply normalize_prefix. now apply inert_without.
  - rewrite serialize_tag.
    apply printable_tag in Hp as (Hn & Hne & Hs & Ha & _ & Hk & _).
    replace ((py "<" ++ (name ++ attrs_text attrs) ++ py ">"
              ++ List.concat (map ssmlNodeToText kids) ++ py "</" ++ name ++ py ">")
             ++ rest)
      with (py "<" ++ (name ++ attrs_text attrs) ++ py ">"
            ++ (List.concat (map ssmlNodeToText kids)
                ++ py "</" ++ name ++ py ">" ++ rest))
      by (rewrite <- !app_assoc; reflexivity).
    rewrite normalize_tag.
    2:{ rewrite forallb_app.
        rewrite (@forallb_weaken inert (not_char (ch ">")) name
                   (@inert_not_char (ch ">") eq_refl) (word_inert name Hn)).
        apply attrs_text_forallb; auto.
        intros k v Hin. destruct (Ha k v Hin) as [H1 H2]. split.
        - apply key_forallb; auto. intros c Hc _. revert c Hc.
          apply inert_not_char. reflexivity.
        - revert H2. apply forallb_weaken. apply inert_not_char. reflexivity. }
    2:{ destruct name; [contradiction|discriminate]. }
    rewrite fix_tag_serialized; auto.
    2:{ intros k v Hin. destruct (Ha k v Hin) as [H1 _].
        apply key_forallb; auto. }
    rewrite <- !app_assoc. do 3 f_equal.
    assert (forall R,
               _normalize_tag_whitespace
                 (List.concat (map ssmlNodeToText kids) ++ R)
               = List.concat (map ssmlNodeToText kids)
                 ++ _normalize_tag_whitespace R) as Hin.
    { clear - IH Hk. induction IH as [|k kids Hk' _ IHk]; intros R; auto.
      inversion Hk as [|? ? H1 H2]; subst. cbn [map List.concat].
      rewrite <- !app_assoc. now rewrite Hk', IHk. }
    rewrite Hin. f_equal.
    change (py "</" ++ name ++ py ">" ++ rest)
      with (py "<" ++ (ch "/" :: name) ++ py ">" ++ rest).
    rewrite normalize_tag.
    + destruct name as [|c nm]; [contradiction|].
      assert (fix_tag (py "<" ++ (ch "/" :: c :: nm) ++ py ">", [])
              = py "</" ++ (c :: nm) ++ py ">") as H
          by exact (@fix_tag_end_name c nm [] [] [] (word_not_space _ Hn)
                      eq_refl eq_refl).
      rewrite H. now rewrite <- !app_assoc.
    + cbn [forallb]. apply andb_true_iff. split; [reflexivity|].
      apply (@forallb_weaken inert); [|now apply word_inert].
      apply inert_not_char. reflexivity.
    + discriminate.
Qed.

(** ** The serializer's text and the colon substitution *)

Lemma not_in_app (c : N) (a b : pystr) : ~ In c a -> ~ In c b -> ~ In c (a ++ b).
Proof. intros Ha Hb H. apply in_app_or in H as [H|H]; auto. Qed.

(** The attributes, after any text without a colon: each key with a colon
    gets the placeholder. *)
Lemma escape_attrs : forall attrs,
  (forall k v, In (k, v) attrs -> key_ok k = true /\ forallb inert v = true) ->
  forall pre R, ~ In (ch ":") pre ->
    escape_colons (pre ++ attrs_text attrs ++ py ">" ++ R)
    = pre ++ attrs_text (escaped_attrs attrs) ++ py ">" ++ escape_colons R.
Proof.
  induction attrs as [|[k v] attrs IH]; intros Ha pre R Hpre.
  - cbn [attrs_text escaped_attrs map flat_map app].
    change (pre ++ py ">" ++ R) with (pre ++ [ch ">"] ++ R).
    rewrite app_assoc, escape_prefix.
    + now rewrite <- app_assoc.
    + apply not_in_app; auto. intros [H|[]]. discriminate.
    + rewrite rev_app_distr. reflexivity.
  - destruct (Ha k v (or_introl eq_refl)) as [Hk Hv].
    assert (forall k' v', In (k', v') attrs ->
                          key_ok k' = true /\ forallb inert v' = true) as Ha'
        by (intros k' v' Hin; apply Ha; now right).
    assert (~ In (ch ":") ([dquote] ++ v ++ [dquote])) as Hval.
    { apply not_in_app; [intros [H|[]]; discriminate|].
      apply not_in_app; [now apply inert_without|intros [H|[]]; discriminate]. }
    assert (attrs_text (escaped_attrs ((k, v) :: attrs))
            = py " " ++ escaped_key k ++ py "=" ++ ([dquote] ++ v ++ [dquote])
              ++ attrs_text (escaped_attrs attrs)) as ->.
    { unfold attrs_text. cbn [escaped_attrs map flat_map fst snd].
      now rewrite <- !app_assoc. }
    assert (attrs_text ((k, v) :: attrs)
            = py " " ++ k ++ py "=" ++ ([dquote] ++ v ++ [dquote])
              ++ attrs_text attrs) as ->.
    { unfold attrs_text. cbn [flat_map fst snd]. now rewrite <- !app_assoc. }
    destruct (key_cases k Hk)
      as [(Hno & _ & _ & ->)|(n1 & n2 & -> & H1 & H2 & ->)].
    + replace (pre ++ (py " " ++ k ++ py "=" ++ ([dquote] ++ v ++ [dquote])
                       ++ attrs_text attrs) ++ py ">" ++ R)
        with ((pre ++ py " " ++ k ++ py "=" ++ [dquote] ++ v ++ [dquote])
              ++ attrs_text attrs ++ py ">" ++ R)
        by (rewrite <- !app_assoc; reflexivity).
      rewrite IH; auto.
      * now rewrite <- !app_assoc.
      * apply not_in_app; auto.
        apply not_in_app; [intros [H|[]]; discriminate|].
        apply not_in_app; auto.
        apply not_in_app; [intros [H|[]]; discriminate|exact Hval].
    + apply colon_name_facts in H1 as (H1 & Hn1 & _).
      apply colon_name_facts in H2 as (H2 & Hn2 & _).
      replace (pre ++ (py " " ++ (n1 ++ py ":" ++ n2) ++ py "="
                       ++ ([dquote] ++ v ++ [dquote]) ++ attrs_text attrs)
               ++ py ">" ++ R)
        with ((pre ++ py " ") ++ n1 ++ py ":" ++ n2 ++ [] ++ py "="
              ++ (([dquote] ++ v ++ [dquote]) ++ attrs_text attrs ++ py ">" ++ R))
        by (rewrite <- !app_assoc; reflexivity).
      rewrite escape_first_name; auto.
      * rewrite IH; auto. now rewrite <- !app_assoc.
      * apply not_in_app; auto. intros [H|[]]. discriminate.
      * rewrite rev_app_distr. reflexivity.
Qed.

Lemma serialize_starts_lt t R :
  is_tag t = true -> starts_lt (ssmlNodeToText t ++ R).
Proof.
  destruct t as [s|name attrs kids]; [discriminate|]. intros _.
  rewrite serialize_tag. reflexivity.
Qed.

(** The colon substitution on the serializer's text of a printable tree:
    the keys get the placeholder, and what follows the text is rewritten on
    its own. *)
Lemma escape_serialized t :
  printable t = true ->
  forall R, is_tag t = true \/ starts_lt R ->
    escape_colons (ssmlNodeToText t ++ R)
    = ssmlNodeToText (escaped t) ++ escape_colons R.
Proof.
  induction t as [s|name attrs kids IH] using SSMLNode_induction;
    intros Hp R HR.
  - destruct HR as [HR|HR]; [discriminate|].
    cbn [printable ssmlNodeToText escaped] in *.
    apply andb_true_iff in Hp as [Hp _].
    assert (~ In (ch ":") s) as Hs by now apply inert_without.
    destruct R as [|c R].
    + rewrite app_nil_r. rewrite escape_no_colon by assumption.
      change (escape_colons []) with (@nil N). now rewrite app_nil_r.
    + cbn [starts_lt] in HR. subst c.
      change (s ++ ch "<" :: R) with (s ++ [ch "<"] ++ R).
      rewrite app_assoc, escape_prefix.
      * rewrite <- app_assoc. f_equal. symmetry.
        apply (@escape_prefix [ch "<"] R); [intros [H|[]]; discriminate|reflexivity].
      * apply not_in_app; auto. intros [H|[]]. discriminate.
      * rewrite rev_app_distr. reflexivity.
  - cbn [escaped]. rewrite !serialize_tag.
    apply printable_tag in Hp as (Hn & Hne & _ & Ha & _ & Hk & Hsep).
    assert (~ In (ch ":") name) as Hname
        by (apply inert_without; [reflexivity|now apply word_inert]).
    replace ((py "<" ++ (name ++ attrs_text attrs) ++ py ">"
              ++ List.concat (map ssmlNodeToText kids) ++ py "</" ++ name ++ py ">")
             ++ R)
      with ((py "<" ++ name) ++ attrs_text attrs ++ py ">"
            ++ (List.concat (map ssmlNodeToText kids)
                ++ py "</" ++ name ++ py ">" ++ R))
      by (rewrite <- !app_assoc; reflexivity).
    rewrite escape_attrs; auto.
    2:{ apply not_in_app; auto. intros [H|[]]. discriminate. }
    rewrite <- !app_assoc. do 4 f_equal.
    assert (forall R1, starts_lt R1 ->
               escape_colons (List.concat (map ssmlNodeToText kids) ++ R1)
               = List.concat (map ssmlNodeToText (map escaped kids))
                 ++ escape_colons R1) as Hin.
    { clear - IH Hk Hsep. revert Hk Hsep.
      induction IH as [|k kids Hk' _ IHk]; intros Hk Hsep R1 HR1; auto.
      inversion Hk as [|? ? H1 H2]; subst.
      cbn [separated] in Hsep. apply andb_true_iff in Hsep as [Hadj Hsep].
      cbn [map List.concat]. rewrite <- !app_assoc.
      rewrite Hk'; auto.
      - now rewrite IHk.
      - destruct k as [s|n a ks]; [right|now left].
        destruct kids as [|[s'|n' a' ks'] kids']; auto.
        + discriminate.
        + cbn [map List.concat]. rewrite <- app_assoc.
          now apply serialize_starts_lt. }
    rewrite Hin by reflexivity. f_equal.
    replace (py "</" ++ name ++ py ">" ++ R)
      with ((py "</" ++ name ++ py ">") ++ R)
      by (rewrite <- !app_assoc; reflexivity).
    rewrite escape_prefix.
    + now rewrite <- !app_assoc.
    + apply not_in_app; [intros [H|[H|[]]]; discriminate|].
      apply not_in_app; auto. intros [H|[]]. discriminate.
    + rewrite !rev_app_distr. reflexivity.
Qed.

(** What the preprocessor makes of the serializer's text. *)
Lemma preprocess_serialized t :
  printable t = true ->
  single_quote_rule (ssmlNodeToText t) = false /\
  preprocess (ssmlNodeToText t) = wrap (ssmlNodeToText (escaped t)).
Proof.
  intros Hp. split.
  - unfold single_quote_rule.
    replace (contains_char (ch "'") (ssmlNodeToText t)) with false;
      [reflexivity|].
    symmetry. apply contains_char_in, forallb_not_char.
    apply serialize_forallb; auto. apply inert_not_char. reflexivity.
  - unfold preprocess.
    rewrite <- (app_nil_r (ssmlNodeToText t)) at 1.
    rewrite normalize_serialized by assumption.
    rewrite normalize_nil.
    rewrite escape_serialized by (auto; now right).
    change (escape_colons []) with (@nil N). now rewrite app_nil_r.
Qed.

(** ** A printable tree comes back from its text *)

(** X21: what [ssmlNodeToText] writes for a printable tree passes the
    single-quote rule, is left as it is by [_normalize_tag_whitespace], and
    is changed by the colon substitution in its keys only: the result is
    the text of the tree whose keys [name:name] are [name__COLON__name]. *)
Theorem serialized_tree_preprocessed t :
  printable t = true ->
  single_quote_rule (ssmlNodeToText t) = false /\
  _normalize_tag_whitespace (ssmlNodeToText t) = ssmlNodeToText t /\
  escape_colons (ssmlNodeToText t) = ssmlNodeToText (escaped t).
Proof.
  intros Hp. split; [now apply preprocess_serialized|]. split.
  - rewrite <- (app_nil_r (ssmlNodeToText t)) at 1.
    rewrite normalize_serialized by assumption.
    now rewrite normalize_nil, app_nil_r.
  - rewrite <- (app_nil_r (ssmlNodeToText t)) at 1.
    rewrite escape_serialized by (auto; now right).
    change (escape_colons []) with (@nil N). now rewrite app_nil_r.
Qed.

Lemma serialized_tree_preprocessed_witness :
  single_quote_rule
    (ssmlNodeToText
       (SSMLTag (py "speak") [(py "xml:lang", py "en"); (py "a", py "1 2")]
                [SSMLText (py "hi "); SSMLTag (py "b") [] []])) = false /\
  _normalize_tag_whitespace
    (ssmlNodeToText
       (SSMLTag (py "speak") [(py "xml:lang", py "en"); (py "a", py "1 2")]
                [SSMLText (py "hi "); SSMLTag (py "b") [] []]))
  = ssmlNodeToText
      (SSMLTag (py "speak") [(py "xml:lang", py "en"); (py "a", py "1 2")]
               [SSMLText (py "hi "); SSMLTag (py "b") [] []]) /\
  escape_colons
    (ssmlNodeToText
       (SSMLTag (py "speak") [(py "xml:lang", py "en"); (py "a", py "1 2")]
                [SSMLText (py "hi "); SSMLTag (py "b") [] []]))
  = ssmlNodeToText
      (escaped
         (SSMLTag (py "speak") [(py "xml:lang", py "en"); (py "a", py "1 2")]
                  [SSMLText (py "hi "); SSMLTag (py "b") [] []])).
Proof.
  apply serialized_tree_preprocessed. reflexivity.
Defined.

(** X22: [build] reaches every printable tag [t]: from the element whose
    keys are those of [t] with the placeholder for the colon, whose [text]
    is the leading text node of [t], whose children are the tag nodes of
    [t] and whose tails are the text nodes after them, it builds [t]
    itself, whatever the tail of the element. *)
Theorem build_inverts_elem_of html5 t tl :
  printable t = true -> is_tag t = true ->
  build (Html.unescape html5) (elem_of (escaped t) tl) = t.
Proof. intros Hp Ht. now apply build_elem_of. Qed.

Lemma build_inverts_elem_of_witness :
  build (Html.unescape html5_excerpt)
        (elem_of (escaped
                    (SSMLTag (py "speak")
                             [(py "xml:lang", py "en"); (py "a", py "1 2")]
                             [SSMLText (py "hi "); SSMLTag (py "b") [] [];
                              SSMLText (py " there")]))
                 (Some (py "tail")))
  = SSMLTag (py "speak") [(py "xml:lang", py "en"); (py "a", py "1 2")]
            [SSMLText (py "hi "); SSMLTag (py "b") [] [];
             SSMLText (py " there")].
Proof.
  apply build_inverts_elem_of; reflexivity.
Defined.

Section RoundTrip.
Variable E : Type.
Variable ET_fromstring : pystr -> Element + E.
Variable html5 : pystr -> option pystr.

(** X23: a printable [speak] tree comes back from its own text: when the
    XML parser reads the wrapped, preprocessed text of [ssmlNodeToText t]
    as the synthetic root with the one child [elem_of (escaped t) None],
    [parseSSML] returns [t].  The single-quote rule and the top-level checks
    pass, the normalization leaves the text alone, the keys with a colon
    go through the placeholder and back, and [build] puts the text nodes
    where they were. *)
Theorem serialized_tree_parsed_back t :
  printable t = true -> node_name t = py "speak" ->
  ET_fromstring (wrap (ssmlNodeToText (escaped t)))
  = inl (mkElement (py "root") [] None None [elem_of (escaped t) None]) ->
  parseSSML ET_fromstring (Html.unescape html5) (ssmlNodeToText t) = Return t.
Proof.
  intros Hp Hn Hx.
  assert (is_tag t = true) as Ht by (destruct t; [discriminate|reflexivity]).
  destruct (preprocess_serialized t Hp) as [Hq Hpre].
  unfold parseSSML.
  fold (single_quote_rule (ssmlNodeToText t)).
  fold (preprocess (ssmlNodeToText t)).
  rewrite Hq, Hpre, Hx. cbv zeta iota. cbn [text children has_text].
  cbv iota.
  replace (tail (elem_of (escaped t) None)) with (@None pystr)
    by (destruct t; reflexivity).
  cbn [has_text]. cbv iota.
  rewrite build_elem_of by assumption.
  rewrite Hn. change (negb (pystr_eqb (py "speak") (py "speak"))) with false.
  reflexivity.
Qed.

End RoundTrip.

Lemma serialized_tree_parsed_back_witness :
  parseSSML fromstring_model (Html.unescape html5_excerpt)
            (ssmlNodeToText
               (SSMLTag (py "speak")
                        [(py "xml:lang", py "en-US"); (py "b", py "x=y")]
                        [SSMLText (py "hi ");
                         SSMLTag (py "p") [(py "k", [])] [SSMLText (py "x")];
                         SSMLText (py " there"); SSMLTag (py "q") [] []]))
  = Return (SSMLTag (py "speak")
                    [(py "xml:lang", py "en-US"); (py "b", py "x=y")]
                    [SSMLText (py "hi ");
                     SSMLTag (py "p") [(py "k", [])] [SSMLText (py "x")];
                     SSMLText (py " there"); SSMLTag (py "q") [] []]).
Proof.
  apply serialized_tree_parsed_back.
  - reflexivity.
  - reflexivity.
  - vm_compute. reflexivity.
Defined.

(** * What [parseSSML] raises *)

Section RaisingFacts.
Variable E : Type.
Variable X : Type.
Variable ET_fromstring : pystr -> Element + (E + X).
Variable html_unescape : pystr -> pystr + X.

Lemma raising_build_eq tag attrib text tl kids :
  Raising.build html_unescape (mkElement tag attrib text tl kids)
  = match Raising.text_node html_unescape text with
    | inr x => inr x
    | inl first =>
        match Raising.build_children html_unescape kids first with
        | inr x => inr x
        | inl children =>
            inl (SSMLTag tag (renamed restore attrib []) children)
        end
    end.
Proof. reflexivity. Qed.



End RaisingFacts.

(** The two embeddings agree where the libraries raise nothing else. *)
Section Agreement.
Variable E : Type.
Variable X : Type.
Variable ET_fromstring : pystr -> Element + E.
Variable html_unescape : pystr -> pystr.

Lemma text_node_agrees t :
  Raising.text_node (never_raises X html_unescape) t
  = inl (text_node html_unescape t).
Proof.
  unfold Raising.text_node, text_node, never_raises.
  destruct t as [s|]; auto. now destruct (has_text (Some s)).
Qed.

Lemma build_agrees elem :
  Raising.build (never_raises X html_unescape) elem
  = inl (build html_unescape elem).
Proof.
  induction elem as [t a tx tl kids IH] using Element_induction.
  rewrite raising_build_eq, text_node_agrees, build_is_tag.
  cbn [tag attrib text children].
  assert (forall acc,
             Raising.build_children (never_raises X html_unescape) kids acc
             = inl (acc ++ flat_map (fun child =>
                                       build html_unescape child
                                       :: text_node html_unescape (tail child))
                                    kids)) as ->; [|reflexivity].
  induction IH as [|c kids Hc _ IHk]; intros acc.
  - cbn. now rewrite app_nil_r.
  - cbn [Raising.build_children flat_map].
    rewrite Hc, text_node_agrees, IHk. now rewrite <- !app_assoc.
Qed.

Lemma parseSSML_agrees ssml :
  Raising.parseSSML (only_ParseError X ET_fromstring)
                    (never_raises X html_unescape) ssml
  = with_uncaught X (parseSSML ET_fromstring html_unescape ssml).
Proof.
  unfold Raising.parseSSML, parseSSML, only_ParseError.
  destruct (contains_char (ch "'") ssml
            && match search single_quote_re ssml with
               | Some _ => true
               | None => false
               end); [reflexivity|].
  cbv zeta.
  destruct (ET_fromstring (wrap (escape_colons (_normalize_tag_whitespace ssml))))
    as [root_elem|err]; [|reflexivity].
  destruct (has_text (text root_elem)); [reflexivity|].
  destruct (children root_elem) as [|c [|c' kids]]; try reflexivity.
  destruct (has_text (tail c)); [reflexivity|].
  rewrite build_agrees.
  now destruct (negb (pystr_eqb (node_name (build html_unescape c)) (py "speak"))).
Qed.

End Agreement.

Section FailureKinds.
Variable E : Type.
Variable X : Type.
Variable ET_fromstring : pystr -> Element + (E + X).
Variable html_unescape : pystr -> pystr + X.


End FailureKinds.


(** The three kinds, at the model: a rule of the dialect, an unclosed
    element, a surrogate code point. *)
Example failure_kinds_at_model :
  parse_raising html5_excerpt (py "<p></p>")
  = Raising.Raise (Raising.Exception msg_not_speak) /\
  parse_raising html5_excerpt (py "<speak>")
  = Raising.Raise (Raising.ParseError tt) /\
  parse_raising html5_excerpt (py "<speak>" ++ [0xD800%N] ++ py "</speak>")
  = Raising.Raise (Raising.Uncaught UnicodeEncodeError).
Proof. repeat split; vm_compute; reflexivity. Qed.
